(** * Adaptive concurrent extraction engine: a shallow embedding

    The development follows [cross_validator.py] (credential rotation,
    page-range planning, the worker pool, result assembly) and
    [cache_manager.py] (the tiered cache).  Python values are modelled as
    follows.

    - [str] is a sequence of Unicode code points, [list N]; [len] counts
      code points, as Python does.
    - [int] is [Z].
    - [float] timestamps and durations are idealised as rationals [Q].
    - a [dict] whose iteration order is observed is an insertion-ordered
      association list ([PyDict]); a dict only looked up by key is a
      [gmap]; a [set] is a [gset].
    - an exception is a value of [exn]; code that can raise returns a sum.
*)

From Stdlib Require Import ZArith QArith Qminmax Lia List.
From stdpp Require Import gmap list sorting strings.

Open Scope Z_scope.

(** ** Python primitives *)

Module Py.

Definition str := list N.

Definition len {A} (s : list A) : Z := Z.of_nat (length s).

(** [s[:k]] *)
Definition slice_to {A} (s : list A) (k : Z) : list A :=
  take (Z.to_nat (if k <? 0 then len s + k else k)) s.

(** [s[k:]] *)
Definition slice_from {A} (s : list A) (k : Z) : list A :=
  drop (Z.to_nat (if k <? 0 then len s + k else k)) s.

(** Decimal digits of a non-negative integer, most significant first.
    The fuel is an upper bound on the number of digits. *)
Fixpoint digits_aux (fuel : nat) (n : Z) (acc : str) : str :=
  match fuel with
  | O => acc
  | S f =>
    let acc' := (N.of_nat 48 + Z.to_N (n mod 10))%N :: acc in
    if n <? 10 then acc' else digits_aux f (n / 10) acc'
  end.

Definition digits (n : Z) : str :=
  digits_aux (S (Z.to_nat (Z.log2 n))) n [].

(** [str(n)] for an [int] *)
Definition str_of_int (n : Z) : str :=
  if n <? 0 then 45%N :: digits (- n) else digits n.

(** Thousands separators, on the reversed digit string. *)
Fixpoint group3_rev (ds : str) : str :=
  match ds with
  | a :: b :: c :: ((_ :: _) as r) => a :: b :: c :: 44%N :: group3_rev r
  | _ => ds
  end.

(** [format(n, ',')], as in the f-string [{n:,}] *)
Definition format_comma (n : Z) : str :=
  let body := rev (group3_rev (rev (digits (Z.abs n)))) in
  if n <? 0 then 45%N :: body else body.

(** [range(start, stop, step)]; [None] is the [ValueError] of a zero step. *)
Definition range (start stop step : Z) : option (list Z) :=
  if step =? 0 then None
  else
    let n := if 0 <? step then (stop - start + step - 1) / step
             else (start - stop - step - 1) / (- step) in
    Some (map (fun i : nat => start + Z.of_nat i * step) (seq 0 (Z.to_nat n))).


(** [needle in hay] for strings *)
Fixpoint starts_with (needle hay : str) : bool :=
  match needle, hay with
  | [], _ => true
  | _ :: _, [] => false
  | a :: n', b :: h' => (a =? b)%N && starts_with n' h'
  end.

Fixpoint contains (needle hay : str) : bool :=
  starts_with needle hay ||
  match hay with
  | [] => false
  | _ :: h' => contains needle h'
  end.

(** An ASCII literal as code points. *)
Definition lit (s : string) : str :=
  map (fun a => N.of_nat (Ascii.nat_of_ascii a)) (String.list_ascii_of_string s).

End Py.

Abbreviation pystr := Py.str.
Abbreviation len := Py.len.

(** ** Page-range planning: [CrossValidator._split_pdf_pages]

    [total_pages] is what [_get_pdf_page_count] returned (0 when the
    document could not be read). *)

Definition covered_pages (chunks : list (Z * Z)) : Z :=
  foldr (fun c acc => (snd c - fst c + 1) + acc) 0 chunks.

Definition make_chunks (total_pages pages_per_chunk : Z) (starts : list Z)
  : list (Z * Z) :=
  map (fun start_page =>
         (start_page, Z.min (start_page + pages_per_chunk - 1) total_pages))
      starts.

Definition _split_pdf_pages (total_pages pages_per_chunk : Z) : list (Z * Z) :=
  if total_pages <=? 0 then []
  else if total_pages <=? pages_per_chunk then [(1, total_pages)]
  else
    match Py.range 1 (total_pages + 1) pages_per_chunk with
    | None => []   (* ValueError, caught by the function's except clause *)
    | Some starts =>
      let chunks := make_chunks total_pages pages_per_chunk starts in
      if covered_pages chunks =? total_pages then chunks
      else make_chunks total_pages pages_per_chunk starts
    end.

(** Each range starts right after the previous one ends. *)
Fixpoint contiguous_from (p : Z) (chunks : list (Z * Z)) : Prop :=
  match chunks with
  | [] => True
  | (s, e) :: rest => s = p /\ s <= e /\ contiguous_from (e + 1) rest
  end.

(** The page that follows the last range of a run starting at page [p]. *)
Fixpoint end_of (p : Z) (chunks : list (Z * Z)) : Z :=
  match chunks with
  | [] => p
  | (_, e) :: rest => end_of (e + 1) rest
  end.

(** No page belongs to two ranges. *)
Definition non_overlapping (chunks : list (Z * Z)) : Prop :=
  forall (i j : nat) a b,
    chunks !! i = Some a -> chunks !! j = Some b -> (i < j)%nat ->
    snd a < fst b.

Definition ascending_starts (chunks : list (Z * Z)) : Prop :=
  StronglySorted Z.lt (map fst chunks).

(** ** Head/tail truncation: [CrossValidator._smart_truncate_content] *)

Definition omission_marker (omitted_chars : Z) : pystr :=
  [10; 10; 91; 46; 46; 46; 32; 20013; 38388; 30465; 30053; 32]%N
  ++ Py.format_comma omitted_chars
  ++ [32; 20010; 23383; 31526; 32; 46; 46; 46; 93; 10; 10]%N.

Definition _smart_truncate_content
  (content : pystr) (max_length head_size tail_size : Z) : pystr :=
  match content with
  | [] => content
  | _ =>
    if len content <=? max_length then content
    else
      let omitted_chars := len content - head_size - tail_size in
      let head_part := Py.slice_to content head_size in
      let tail_part :=
        if 0 <? tail_size then Py.slice_from content (- tail_size) else [] in
      head_part ++ omission_marker omitted_chars ++ tail_part
  end.

(** The call that every call site makes. *)
Definition truncate_200k (content : pystr) : pystr :=
  _smart_truncate_content content 200000 5000 5000.


(** ** What the Python runtime supplies

    These tables and library functions are not part of the repository:
    the Unicode classes behind [\d], [\s] and [str.strip], [str.lower],
    [repr], [hashlib.md5], UTF-8 encoding and the printing of floats.
    Every definition and theorem below holds for any such runtime. *)

Class PyRuntime := {
  unicode_digit : N -> bool;
  unicode_space : N -> bool;
  str_lower : pystr -> pystr;
  str_repr : pystr -> pystr;
  str_encode : pystr -> list N;
  md5_hexdigest : list N -> pystr;
  float_str : Q -> pystr;
}.

(** ** Regular expressions: the fragment used by [_clean_page_content]

    A pattern is a sequence of items, each a single character of a class
    or a greedy star over a class.  [re_match] is the backtracking matcher
    anchored at the start of the string; it returns what is left of the
    string after the match. *)

Inductive re_item :=
| ROne (p : N -> bool)
| RStar (p : N -> bool).

Definition RChar (c : N) : re_item := ROne (N.eqb c).
Definition RPlus (p : N -> bool) : list re_item := [ROne p; RStar p].

Fixpoint re_match (re : list re_item) : pystr -> option pystr :=
  match re with
  | [] => fun s => Some s
  | ROne p :: re' =>
    fun s =>
      match s with
      | c :: s' => if p c then re_match re' s' else None
      | [] => None
      end
  | RStar p :: re' =>
    fix star (s : pystr) : option pystr :=
      match s with
      | c :: s' =>
        if p c then
          match star s' with
          | Some r => Some r
          | None => re_match re' s
          end
        else re_match re' s
      | [] => re_match re' s
      end
  end.

(** [re.sub(re, repl, s)] for a pattern that matches no empty string:
    [skip] counts the characters of the current match still to be dropped. *)
Fixpoint re_sub_aux (re : list re_item) (repl s : pystr) (skip : nat) : pystr :=
  match s with
  | [] => []
  | c :: s' =>
    match skip with
    | S k => re_sub_aux re repl s' k
    | O =>
      match re_match re s with
      | Some rest =>
        match (length s - length rest)%nat with
        | O => repl ++ c :: re_sub_aux re repl s' O
        | S k => repl ++ re_sub_aux re repl s' k
        end
      | None => c :: re_sub_aux re repl s' O
      end
    end
  end.

Definition re_sub (re : list re_item) (repl s : pystr) : pystr :=
  re_sub_aux re repl s O.

Fixpoint lstrip (sp : N -> bool) (s : pystr) : pystr :=
  match s with
  | c :: s' => if sp c then lstrip sp s' else s
  | [] => []
  end.

Definition strip (sp : N -> bool) (s : pystr) : pystr :=
  reverse (lstrip sp (reverse (lstrip sp s))).

(** ** Results of the page-range tasks and their assembly
    ([CrossValidator._extract_pdf_pages_concurrent], after the workers
    have been joined) *)

(** The [results] dict in insertion order: [task_id -> (start_page, content)]. *)
Definition results_dict := list (nat * (Z * pystr)).

Definition start_of (kv : nat * (Z * pystr)) : Z := fst (snd kv).
Definition content_of (kv : nat * (Z * pystr)) : pystr := snd (snd kv).

(** [sorted(xs, key=...)] is stable: an element goes before the first
    element whose key is not smaller. *)
Fixpoint insert_by {A} (key : A -> Z) (x : A) (l : list A) : list A :=
  match l with
  | [] => [x]
  | y :: l' => if key x <=? key y then x :: l else y :: insert_by key x l'
  end.

Definition key_le {A} (key : A -> Z) (x y : A) : Prop := key x <= key y.

Fixpoint sorted_by {A} (key : A -> Z) (l : list A) : list A :=
  match l with
  | [] => []
  | x :: l' => insert_by key x (sorted_by key l')
  end.

(** [list(range(a, b))] *)
Definition range2 (a b : Z) : list Z :=
  map (fun i : nat => a + Z.of_nat i) (seq 0 (Z.to_nat (b - a))).


Definition max_combined_length : Z := 500000.


Definition remaining_note (remaining_space : Z) : pystr :=
  [10; 10; 91; 27880; 24847; 65306; 24635; 38271; 24230; 38480; 21046; 65292;
   24050; 25130; 21462; 21097; 20313]%N
  ++ Py.str_of_int (remaining_space / 1000)
  ++ [75; 23383; 31526; 93]%N.


Definition final_note : pystr :=
  [10; 10; 91; 27880; 24847; 65306; 21512; 24182; 21518; 24635; 38271; 24230;
   36229; 38480; 65292; 24050; 26368; 32456; 25130; 21462; 21040]%N
  ++ Py.str_of_int (max_combined_length / 1000)
  ++ [75; 23383; 31526; 93]%N.


(** State of the merge loop. [stopped] records that the loop was left
    through its [break]. *)
Record merge_state := {
  combined_parts : list pystr;
  total_length : Z;
  expected_page : Z;
  missing_pages : list Z;
  stopped : bool;
}.

Definition merge_init : merge_state :=
  {| combined_parts := []; total_length := 0; expected_page := 1;
     missing_pages := []; stopped := false |}.

(** [next((r for r in page_ranges if r[0] == start_page), None)] *)
Definition find_range (page_ranges : list (Z * Z)) (start_page : Z)
  : option (Z * Z) :=
  List.find (fun r => fst r =? start_page) page_ranges.

Section Assembly.
Context `{PyRuntime}.

(** [CrossValidator._clean_page_content] *)
Definition page_tag_pattern : list re_item :=
  let tag :=
    [RChar 91; RChar 31532] ++ RPlus unicode_digit ++ [RChar 45]
    ++ RPlus unicode_digit ++ [RChar 39029; RChar 93] in
  tag ++ [RStar unicode_space] ++ tag.

Definition newlines_pattern : list re_item :=
  [RChar 10; RChar 10; RChar 10; RChar 10; RStar (N.eqb 10)].

Definition _clean_page_content (content : pystr) (start_page : Z) : pystr :=
  match content with
  | [] => content
  | _ =>
    let content :=
      re_sub page_tag_pattern
        ([91; 31532]%N ++ Py.str_of_int start_page ++ [39029; 24320; 22987; 93]%N)
        content in
    let content := re_sub newlines_pattern [10; 10; 10]%N content in
    strip unicode_space content
  end.

(** One iteration of the merge loop; the loop is over once [stopped]. *)
Definition merge_step (page_ranges : list (Z * Z)) (st : merge_state)
  (item : nat * (Z * pystr)) : merge_state :=
  let start_page := start_of item in
  let content := content_of item in
  let missing :=
    if expected_page st <? start_page
    then missing_pages st ++ range2 (expected_page st) start_page
    else missing_pages st in
  let add content :=
    let content := _clean_page_content content start_page in
    {| combined_parts := combined_parts st ++ [content];
       total_length := total_length st + len content;
       expected_page :=
         match find_range page_ranges start_page with
         | Some task_range => snd task_range + 1
         | None => expected_page st
         end;
       missing_pages := missing;
       stopped := false |} in
  if max_combined_length <? total_length st + len content then
    let remaining_space := max_combined_length - total_length st in
    if 5000 <? remaining_space then
      add (Py.slice_to content (remaining_space - 1000)
           ++ remaining_note remaining_space)
    else
      {| combined_parts := combined_parts st;
         total_length := total_length st;
         expected_page := expected_page st;
         missing_pages := missing;
         stopped := true |}
  else add content.

Fixpoint merge_loop (page_ranges : list (Z * Z)) (st : merge_state)
  (items : results_dict) : merge_state :=
  match items with
  | [] => st
  | item :: rest =>
    let st' := merge_step page_ranges st item in
    if stopped st' then st' else merge_loop page_ranges st' rest
  end.

Definition sorted_results (results : results_dict) : results_dict :=
  sorted_by start_of results.

Definition merge_walk (page_ranges : list (Z * Z)) (results : results_dict)
  : merge_state :=
  merge_loop page_ranges merge_init (sorted_results results).

(** The final length check. *)
Definition final_length_check (combined_content : pystr) : pystr :=
  if max_combined_length <? len combined_content then
    Py.slice_to combined_content max_combined_length ++ final_note
  else combined_content.


End Assembly.

(** ** Exceptions and outcomes

    [Diverge] is the outcome of a loop whose fuel ran out; the totality
    lemmas show that the loops modelled here never produce it. *)

Inductive exn :=
| ValueError (msg : pystr)
| KeyError (key : pystr)
| IndexError
| Exception (msg : pystr).

Inductive outcome (A : Type) :=
| Ret (a : A)
| Raise (e : exn)
| Diverge.
Arguments Ret {A} a.
Arguments Raise {A} e.
Arguments Diverge {A}.

(** [str(e)] *)
Definition exn_str `{PyRuntime} (e : exn) : pystr :=
  match e with
  | ValueError msg => msg
  | KeyError key => str_repr key
  | IndexError => Py.lit "list index out of range"%string
  | Exception msg => msg
  end.

(** [l[i]] for a list *)
Definition getitem {A} (l : list A) (i : Z) : option A :=
  if i <? 0 then
    if len l + i <? 0 then None else l !! Z.to_nat (len l + i)
  else l !! Z.to_nat i.

(** [l.index(x)] *)
Fixpoint index_of (l : list pystr) (x : pystr) : option Z :=
  match l with
  | [] => None
  | y :: l' => if decide (y = x) then Some 0 else Z.succ <$> index_of l' x
  end.

(** ** The credential pool: [APIRotator] *)

Record APIRotator := {
  api_keys : list pystr;
  current_index : Z;
  clients : gmap pystr pystr;   (* a client is identified by its key *)
  usage_count : gmap pystr Z;
  last_use_time : gmap pystr Q;
  error_count : gmap pystr Z;
  response_times : gmap pystr (list Q);
  avg_response_time : gmap pystr Q;
  success_count : gmap pystr Z;
  blacklisted : gset pystr;
}.

(** [{key: v for key in keys}] *)
Definition dict_of_keys {V} (keys : list pystr) (v : V) : gmap pystr V :=
  list_to_map (map (fun key => (key, v)) keys).

(** [APIRotator.__init__]. [client_ok key] tells whether
    [genai.Client(api_key=key)] succeeds. *)
Definition rotator_init (keys : list pystr) (client_ok : pystr -> bool)
  : APIRotator :=
  {| api_keys := keys;
     current_index := 0;
     clients :=
       list_to_map (map (fun key => (key, key)) (List.filter client_ok keys));
     usage_count := dict_of_keys keys 0;
     last_use_time := dict_of_keys keys 0%Q;
     error_count := dict_of_keys keys 0;
     response_times := dict_of_keys keys [];
     avg_response_time := dict_of_keys keys 0%Q;
     success_count := dict_of_keys keys 0;
     blacklisted :=
       list_to_set (List.filter (fun key => negb (client_ok key)) keys) |}.

Definition no_keys_message : pystr :=
  [26410; 37197; 32622; 20219; 20309; 65; 80; 73; 23494; 38053]%N.

(** The [while next_index not in available_indices] loop of
    [get_next_client]. *)
Fixpoint find_next (fuel : nat) (n current : Z) (available_indices : list Z)
  (next_index : Z) : outcome Z :=
  match fuel with
  | O => Diverge
  | S fuel' =>
    if bool_decide (next_index ∈ available_indices) then Ret next_index
    else
      let next_index := (next_index + 1) mod n in
      if next_index =? current then
        match available_indices with
        | first :: _ => Ret first
        | [] => Raise IndexError
        end
      else find_next fuel' n current available_indices next_index
  end.

Definition set_blacklisted (r : APIRotator) (b : gset pystr) : APIRotator :=
  {| api_keys := api_keys r; current_index := current_index r;
     clients := clients r; usage_count := usage_count r;
     last_use_time := last_use_time r; error_count := error_count r;
     response_times := response_times r;
     avg_response_time := avg_response_time r;
     success_count := success_count r; blacklisted := b |}.

Definition set_error_count (r : APIRotator) (e : gmap pystr Z) : APIRotator :=
  {| api_keys := api_keys r; current_index := current_index r;
     clients := clients r; usage_count := usage_count r;
     last_use_time := last_use_time r; error_count := e;
     response_times := response_times r;
     avg_response_time := avg_response_time r;
     success_count := success_count r; blacklisted := blacklisted r |}.

Definition set_current_index (r : APIRotator) (i : Z) : APIRotator :=
  {| api_keys := api_keys r; current_index := i;
     clients := clients r; usage_count := usage_count r;
     last_use_time := last_use_time r; error_count := error_count r;
     response_times := response_times r;
     avg_response_time := avg_response_time r;
     success_count := success_count r; blacklisted := blacklisted r |}.

Definition set_usage (r : APIRotator) (u : gmap pystr Z) (t : gmap pystr Q)
  : APIRotator :=
  {| api_keys := api_keys r; current_index := current_index r;
     clients := clients r; usage_count := u;
     last_use_time := t; error_count := error_count r;
     response_times := response_times r;
     avg_response_time := avg_response_time r;
     success_count := success_count r; blacklisted := blacklisted r |}.

Definition set_success (r : APIRotator) (s : gmap pystr Z)
  (rt : gmap pystr (list Q)) (avg : gmap pystr Q) : APIRotator :=
  {| api_keys := api_keys r; current_index := current_index r;
     clients := clients r; usage_count := usage_count r;
     last_use_time := last_use_time r; error_count := error_count r;
     response_times := rt; avg_response_time := avg;
     success_count := s; blacklisted := blacklisted r |}.

(** The keys that [get_next_client] may choose from. *)
Definition available_keys (r : APIRotator) : list pystr :=
  filter (fun key => key ∉ blacklisted r) (api_keys r).

(** The choice of the key, after a possible reset of the blacklist:
    the selected key and the new value of [current_index]. *)
Definition select_key (r : APIRotator) (available : list pystr)
  : outcome (pystr * Z) :=
  match available with
  | [selected_key] => Ret (selected_key, current_index r)
  | _ =>
    match mapM (index_of (api_keys r)) available with
    | None => Raise (ValueError (Py.lit "x not in list"%string))
    | Some available_indices =>
      match find_next (S (length (api_keys r))) (len (api_keys r))
              (current_index r) available_indices (current_index r) with
      | Ret next_index =>
        match getitem (api_keys r) next_index with
        | Some selected_key =>
          Ret (selected_key, (next_index + 1) mod len (api_keys r))
        | None => Raise IndexError
        end
      | Raise e => Raise e
      | Diverge => Diverge
      end
    end
  end.

(** [APIRotator.get_next_client]; [now] is the reading of [time.time()]. *)
Definition get_next_client (r : APIRotator) (now : Q)
  : APIRotator * outcome (pystr * pystr) :=
  match api_keys r with
  | [] => (r, Raise (ValueError no_keys_message))
  | _ =>
    let r1 :=
      match available_keys r with
      | [] => set_error_count (set_blacklisted r ∅)
                (dict_of_keys (api_keys r) 0)
      | _ => r
      end in
    let available :=
      match available_keys r with
      | [] => api_keys r
      | ks => ks
      end in
    match select_key r1 available with
    | Ret (selected_key, index) =>
      let r2 := set_current_index r1 index in
      match usage_count r2 !! selected_key with
      | None => (r2, Raise (KeyError selected_key))
      | Some used =>
        let r3 :=
          set_usage r2 (<[selected_key := used + 1]> (usage_count r2))
            (<[selected_key := now]> (last_use_time r2)) in
        match clients r3 !! selected_key with
        | Some client => (r3, Ret (client, selected_key))
        | None => (r3, Raise (KeyError selected_key))
        end
      end
    | Raise e => (r1, Raise e)
    | Diverge => (r1, Diverge)
    end
  end.

(** [APIRotator.report_error] *)
Definition report_error (r : APIRotator) (api_key : pystr)
  : APIRotator * outcome unit :=
  match error_count r !! api_key with
  | None => (r, Raise (KeyError api_key))
  | Some errors =>
    let r1 := set_error_count r (<[api_key := errors + 1]> (error_count r)) in
    if 3 <=? errors + 1
    then (set_blacklisted r1 ({[api_key]} ∪ blacklisted r1), Ret tt)
    else (r1, Ret tt)
  end.

Definition Qsum (xs : list Q) : Q := foldl Qplus 0%Q xs.

(** [APIRotator.report_success] *)
Definition report_success (r : APIRotator) (api_key : pystr) (response_time : Q)
  : APIRotator * outcome unit :=
  match error_count r !! api_key with
  | None => (r, Raise (KeyError api_key))
  | Some errors =>
    let errors' := if 0 <? errors then Z.max 0 (errors - 1) else errors in
    let r1 :=
      if 0 <? errors
      then set_error_count r (<[api_key := errors']> (error_count r))
      else r in
    let r2 :=
      if (errors' =? 0) && bool_decide (api_key ∈ blacklisted r1)
      then set_blacklisted r1 (blacklisted r1 ∖ {[api_key]})
      else r1 in
    match success_count r2 !! api_key with
    | None => (r2, Raise (KeyError api_key))
    | Some successes =>
      let r3 :=
        set_success r2 (<[api_key := successes + 1]> (success_count r2))
          (response_times r2) (avg_response_time r2) in
      if Qlt_le_dec 0 response_time then
        match response_times r3 !! api_key with
        | None => (r3, Raise (KeyError api_key))
        | Some times =>
          let times := if 10 <=? len times then drop 1 times else times in
          let times := times ++ [response_time] in
          let avg :=
            match times with
            | [] => avg_response_time r3
            | _ =>
              <[api_key := (Qsum times / inject_Z (len times))%Q]>
                (avg_response_time r3)
            end in
          (set_success r3 (success_count r3)
             (<[api_key := times]> (response_times r3)) avg, Ret tt)
        end
      else (r3, Ret tt)
    end
  end.

(** Consecutive successful calls reported for one credential. *)
Fixpoint report_successes (k : nat) (r : APIRotator) (key : pystr) (t : Q)
  : APIRotator :=
  match k with
  | O => r
  | S k' => report_successes k' (fst (report_success r key t)) key t
  end.

(** ** Insertion-ordered dictionaries

    Python's [dict] keeps its keys in insertion order; assigning to a key
    that is present keeps its position. *)

Module PyDict.
Section Dict.
Context {K V : Type} `{EqDecision K}.

Fixpoint get (d : list (K * V)) (k : K) : option V :=
  match d with
  | [] => None
  | (k', v) :: d' => if decide (k' = k) then Some v else get d' k
  end.

(** [d[k] = v] *)
Fixpoint set (d : list (K * V)) (k : K) (v : V) : list (K * V) :=
  match d with
  | [] => [(k, v)]
  | (k', v') :: d' =>
    if decide (k' = k) then (k, v) :: d' else (k', v') :: set d' k v
  end.

(** [del d[k]], for a key that is present *)
Fixpoint del (d : list (K * V)) (k : K) : list (K * V) :=
  match d with
  | [] => []
  | (k', v') :: d' => if decide (k' = k) then d' else (k', v') :: del d' k
  end.

Definition keys (d : list (K * V)) : list K := map fst d.

End Dict.
End PyDict.

(** ** The tiered cache: [cache_manager.py] *)

Record CacheEntry := {
  content : pystr;
  file_hash : pystr;
  file_size : Z;
  file_mtime : Q;
  cache_time : Q;
  access_count : Z;
  last_access : Q;
}.

(** A source file: its bytes, its modification time, and whether it can be
    opened for reading. [os.stat] gives the length of the bytes and the
    modification time. *)
Record source_file := {
  f_data : list N;
  f_mtime : Q;
  f_readable : bool;
}.

Definition st_size (f : source_file) : Z := len (f_data f).

(** A cache file on disk: the pickled entry ([None] when the file does not
    unpickle), its size and its modification time. *)
Record cache_file := {
  cf_entry : option CacheEntry;
  cf_size : Z;
  cf_mtime : Q;
}.

Record cache_stats := {
  hits : Z; misses : Z; disk_hits : Z; memory_hits : Z; redis_hits : Z;
  files_cached : Z; cache_size_mb : Q;
}.

Record SmartCacheManager := {
  max_age_hours : Z;
  max_memory_items : Z;
  max_disk_size_mb : Z;
  memory_cache : list (pystr * CacheEntry);
  (** [redis_client]: [None] when Redis is off; a stored value carries the
      time at which Redis expires it *)
  redis_store : option (gmap pystr (CacheEntry * Q));
  (** the [*.cache] files, in the order the directory walk lists them *)
  disk_files : list (pystr * cache_file);
  stats : cache_stats;
}.

(** What one cache operation sees of the world: the clock, the source
    files, whether the Redis server answers, whether the cache directory
    can be used, and the size of a pickled entry. *)
Record cache_env := {
  now : Q;
  files : gmap pystr source_file;
  redis_ok : bool;
  disk_ok : bool;
  pickle_size : Z;
}.

Definition Qltb (a b : Q) : bool := negb (Qle_bool b a).

(** [CacheEntry.is_expired] *)
Definition is_expired (e : CacheEntry) (now : Q) (max_age_hours : Z) : bool :=
  Qltb (inject_Z (max_age_hours * 3600)) (now - cache_time e).

(** [CacheEntry.is_file_changed] *)
Definition is_file_changed (e : CacheEntry) (fs : gmap pystr source_file)
  (file_path : pystr) : bool :=
  match fs !! file_path with
  | Some f =>
    negb (st_size f =? file_size e) || negb (Qeq_bool (f_mtime f) (file_mtime e))
  | None => true
  end.

Definition touch (e : CacheEntry) (now : Q) : CacheEntry :=
  {| content := content e; file_hash := file_hash e; file_size := file_size e;
     file_mtime := file_mtime e; cache_time := cache_time e;
     access_count := access_count e + 1; last_access := now |}.

Definition set_memory (c : SmartCacheManager) (m : list (pystr * CacheEntry))
  : SmartCacheManager :=
  {| max_age_hours := max_age_hours c; max_memory_items := max_memory_items c;
     max_disk_size_mb := max_disk_size_mb c; memory_cache := m;
     redis_store := redis_store c; disk_files := disk_files c;
     stats := stats c |}.

Definition set_redis (c : SmartCacheManager)
  (r : option (gmap pystr (CacheEntry * Q))) : SmartCacheManager :=
  {| max_age_hours := max_age_hours c; max_memory_items := max_memory_items c;
     max_disk_size_mb := max_disk_size_mb c; memory_cache := memory_cache c;
     redis_store := r; disk_files := disk_files c; stats := stats c |}.

Definition set_disk (c : SmartCacheManager) (d : list (pystr * cache_file))
  : SmartCacheManager :=
  {| max_age_hours := max_age_hours c; max_memory_items := max_memory_items c;
     max_disk_size_mb := max_disk_size_mb c; memory_cache := memory_cache c;
     redis_store := redis_store c; disk_files := d; stats := stats c |}.

Definition set_stats (c : SmartCacheManager) (s : cache_stats)
  : SmartCacheManager :=
  {| max_age_hours := max_age_hours c; max_memory_items := max_memory_items c;
     max_disk_size_mb := max_disk_size_mb c; memory_cache := memory_cache c;
     redis_store := redis_store c; disk_files := disk_files c; stats := s |}.

Definition count_hit (s : cache_stats) (tier : nat) : cache_stats :=
  {| hits := hits s + 1; misses := misses s;
     disk_hits := disk_hits s + (if decide (tier = 2%nat) then 1 else 0);
     memory_hits := memory_hits s + (if decide (tier = 0%nat) then 1 else 0);
     redis_hits := redis_hits s + (if decide (tier = 1%nat) then 1 else 0);
     files_cached := files_cached s; cache_size_mb := cache_size_mb s |}.

Definition count_miss (s : cache_stats) : cache_stats :=
  {| hits := hits s; misses := misses s + 1; disk_hits := disk_hits s;
     memory_hits := memory_hits s; redis_hits := redis_hits s;
     files_cached := files_cached s; cache_size_mb := cache_size_mb s |}.

Definition empty_stats : cache_stats :=
  {| hits := 0; misses := 0; disk_hits := 0; memory_hits := 0; redis_hits := 0;
     files_cached := 0; cache_size_mb := 0 |}.

(** Stable sort on a rational key, as [sorted(..., key=...)]. *)
Fixpoint insert_by_q {A} (key : A -> Q) (x : A) (l : list A) : list A :=
  match l with
  | [] => [x]
  | y :: l' =>
    if Qle_bool (key x) (key y) then x :: l else y :: insert_by_q key x l'
  end.

Fixpoint sorted_by_q {A} (key : A -> Q) (l : list A) : list A :=
  match l with
  | [] => []
  | x :: l' => insert_by_q key x (sorted_by_q key l')
  end.

(** [SmartCacheManager._evict_memory_cache] *)
Definition evicted_keys (m : list (pystr * CacheEntry)) : list pystr :=
  let sorted_items := sorted_by_q (fun kv => last_access (snd kv)) m in
  let remove_count := Z.max 1 (len sorted_items / 4) in
  map fst (take (Z.to_nat remove_count) sorted_items).

Definition _evict_memory_cache (m : list (pystr * CacheEntry))
  : list (pystr * CacheEntry) :=
  match m with
  | [] => m
  | _ => foldl PyDict.del m (evicted_keys m)
  end.

Section Cache.
Context `{PyRuntime}.

Definition MB : Z := 1024 * 1024.

(** [SmartCacheManager._get_file_hash] *)
Definition _get_file_hash (fs : gmap pystr source_file) (file_path : pystr)
  : pystr :=
  match fs !! file_path with
  | None => md5_hexdigest (str_encode file_path)
  | Some f =>
    let file_info :=
      file_path ++ [95%N] ++ Py.str_of_int (st_size f) ++ [95%N]
      ++ float_str (f_mtime f) in
    if f_readable f then
      if 10 * MB <? st_size f then
        md5_hexdigest
          (take (Z.to_nat MB) (f_data f)
           ++ (if 2 * MB <? st_size f
               then drop (Z.to_nat (st_size f - MB)) (f_data f) else [])
           ++ str_encode file_info)
      else md5_hexdigest (f_data f)
    else md5_hexdigest (str_encode file_info)
  end.

(** [SmartCacheManager._get_cache_key] *)
Definition _get_cache_key (file_hash prefix : pystr) : pystr :=
  match prefix with
  | [] => file_hash
  | _ => prefix ++ [95%N] ++ file_hash
  end.

Definition cache_key_of (env : cache_env) (file_path prefix : pystr) : pystr :=
  _get_cache_key (_get_file_hash (files env) file_path) prefix.

Definition entry_valid (c : SmartCacheManager) (env : cache_env)
  (file_path : pystr) (e : CacheEntry) : bool :=
  negb (is_expired e (now env) (max_age_hours c))
  && negb (is_file_changed e (files env) file_path).

(** Loading a hit from a lower tier into memory, when there is room. *)
Definition promote (c : SmartCacheManager) (cache_key : pystr)
  (e : CacheEntry) : SmartCacheManager :=
  if len (memory_cache c) <? max_memory_items c
  then set_memory c (PyDict.set (memory_cache c) cache_key e)
  else c.

(** [redis_client.setex(key, ttl, value)]; an exception is logged and
    leaves the store as it was. Redis refuses a time to live that is not
    positive. *)
Definition redis_setex (c : SmartCacheManager) (env : cache_env)
  (cache_key : pystr) (e : CacheEntry) : SmartCacheManager :=
  match redis_store c with
  | Some store =>
    if redis_ok env && (0 <? max_age_hours c * 3600) then
      set_redis c
        (Some (<[cache_key :=
                   (e, (now env + inject_Z (max_age_hours c * 3600))%Q)]> store))
    else c
  | None => c
  end.

Definition miss (c : SmartCacheManager) : SmartCacheManager * option pystr :=
  (set_stats c (count_miss (stats c)), None).

(** Step 3 of [get]: the file cache. *)
Definition get_disk (c : SmartCacheManager) (env : cache_env)
  (file_path cache_key : pystr) : SmartCacheManager * option pystr :=
  if negb (disk_ok env) then miss c   (* the outer except clause *)
  else
    match PyDict.get (disk_files c) cache_key with
    | None => miss c
    | Some cf =>
      match cf_entry cf with
      | None =>   (* does not unpickle: the file is deleted *)
        miss (set_disk c (PyDict.del (disk_files c) cache_key))
      | Some e =>
        if entry_valid c env file_path e then
          let c := promote c cache_key (touch e (now env)) in
          let c := redis_setex c env cache_key e in
          (set_stats c (count_hit (stats c) 2), Some (content e))
        else miss (set_disk c (PyDict.del (disk_files c) cache_key))
      end
    end.

(** Step 2 of [get]: Redis. *)
Definition get_redis (c : SmartCacheManager) (env : cache_env)
  (file_path cache_key : pystr) : SmartCacheManager * option pystr :=
  match redis_store c with
  | Some store =>
    if negb (redis_ok env) then get_disk c env file_path cache_key
    else
      match store !! cache_key with
      | Some (e, expires) =>
        if Qle_bool expires (now env) then   (* expired by Redis *)
          get_disk (set_redis c (Some (delete cache_key store)))
            env file_path cache_key
        else if entry_valid c env file_path e then
          let c := promote c cache_key (touch e (now env)) in
          (set_stats c (count_hit (stats c) 1), Some (content e))
        else
          get_disk (set_redis c (Some (delete cache_key store)))
            env file_path cache_key
      | None => get_disk c env file_path cache_key
      end
  | None => get_disk c env file_path cache_key
  end.

(** [SmartCacheManager.get] *)
Definition get (c : SmartCacheManager) (env : cache_env)
  (file_path prefix : pystr) : SmartCacheManager * option pystr :=
  let cache_key := cache_key_of env file_path prefix in
  match PyDict.get (memory_cache c) cache_key with
  | Some e =>
    if entry_valid c env file_path e then
      let c :=
        set_memory c
          (PyDict.set (memory_cache c) cache_key (touch e (now env))) in
      (set_stats c (count_hit (stats c) 0), Some (content e))
    else
      get_redis (set_memory c (PyDict.del (memory_cache c) cache_key))
        env file_path cache_key
  | None => get_redis c env file_path cache_key
  end.

Definition disk_usage (d : list (pystr * cache_file)) : Z :=
  foldr (fun kv acc => cf_size (snd kv) + acc) 0 d.

(** The deletion loop of [_cleanup_large_cache], over the files sorted by
    modification time; it returns the files to delete. *)
Fixpoint cleanup_victims (sorted_files : list (pystr * cache_file))
  (cleaned_size to_free : Q) : list pystr :=
  match sorted_files with
  | [] => []
  | (k, cf) :: rest =>
    if Qle_bool to_free cleaned_size then []
    else k :: cleanup_victims rest (cleaned_size + inject_Z (cf_size cf)) to_free
  end.

(** [_update_cache_size], which calls [_cleanup_large_cache], which calls
    [_update_cache_size] again after deleting files. *)
Fixpoint _update_cache_size (fuel : nat) (c : SmartCacheManager)
  : SmartCacheManager :=
  let size_mb := (inject_Z (disk_usage (disk_files c)) / 1024 / 1024)%Q in
  let s := stats c in
  let c :=
    set_stats c
      {| hits := hits s; misses := misses s; disk_hits := disk_hits s;
         memory_hits := memory_hits s; redis_hits := redis_hits s;
         files_cached := files_cached s; cache_size_mb := size_mb |} in
  if Qltb (inject_Z (max_disk_size_mb c)) size_mb then
    let sorted_files := sorted_by_q (fun kv => cf_mtime (snd kv)) (disk_files c) in
    let target_size :=
      (inject_Z (max_disk_size_mb c) * 1024 * 1024 * (8 # 10))%Q in
    let victims :=
      cleanup_victims sorted_files 0 (size_mb * 1024 * 1024 - target_size)%Q in
    match victims, fuel with
    | [], _ => c
    | _, O => c
    | _, S fuel' =>
      _update_cache_size fuel' (set_disk c (foldl PyDict.del (disk_files c) victims))
    end
  else c.

(** [SmartCacheManager.set] *)
Definition set (c : SmartCacheManager) (env : cache_env)
  (file_path content prefix : pystr) : SmartCacheManager * bool :=
  let file_hash := _get_file_hash (files env) file_path in
  let cache_key := _get_cache_key file_hash prefix in
  match files env !! file_path with
  | None => (c, false)   (* os.stat raises: the outer except clause *)
  | Some f =>
    let entry :=
      {| content := content; file_hash := file_hash; file_size := st_size f;
         file_mtime := f_mtime f; cache_time := now env; access_count := 1;
         last_access := now env |} in
    let memory :=
      if max_memory_items c <=? len (memory_cache c)
      then _evict_memory_cache (memory_cache c)
      else memory_cache c in
    let c := set_memory c (PyDict.set memory cache_key entry) in
    let c := redis_setex c env cache_key entry in
    let c :=
      if disk_ok env then
        set_disk c
          (PyDict.set (disk_files c) cache_key
             {| cf_entry := Some entry; cf_size := pickle_size env;
                cf_mtime := now env |})
      else c in
    let s := stats c in
    let c :=
      set_stats c
        {| hits := hits s; misses := misses s; disk_hits := disk_hits s;
           memory_hits := memory_hits s; redis_hits := redis_hits s;
           files_cached := files_cached s + 1;
           cache_size_mb := cache_size_mb s |} in
    (_update_cache_size (S (length (disk_files c))) c, true)
  end.

(** [SmartCacheManager.clear] *)
Definition clear (c : SmartCacheManager) (env : cache_env) : SmartCacheManager :=
  let c := set_memory c [] in
  let c :=
    match redis_store c with
    | Some store => if redis_ok env then set_redis c (Some ∅) else c
    | None => c
    end in
  let c := if disk_ok env then set_disk c [] else c in
  set_stats c empty_stats.

End Cache.

(** A cache manager as [__init__] leaves its memory tier. *)
Definition new_cache (max_age_hours max_memory_items max_disk_size_mb : Z)
  (redis : option (gmap pystr (CacheEntry * Q)))
  (disk : list (pystr * cache_file)) : SmartCacheManager :=
  {| max_age_hours := max_age_hours; max_memory_items := max_memory_items;
     max_disk_size_mb := max_disk_size_mb; memory_cache := [];
     redis_store := redis; disk_files := disk; stats := empty_stats |}.


(** Entry [e] is held under [key] by one of the three tiers. *)
Definition cached_in (c : SmartCacheManager) (key : pystr) (e : CacheEntry)
  : Prop :=
  (key, e) ∈ memory_cache c \/
  (exists store expires,
     redis_store c = Some store /\ store !! key = Some (e, expires)) \/
  (exists cf, (key, cf) ∈ disk_files c /\ cf_entry cf = Some e).

(** ** Calls through the pool: [CrossValidator._rotated_api_call]

    The world outside is given by three oracles: the successive readings of
    [time.time()], the successive draws of [random.uniform(0, 0.5)], and the
    outcome of the n-th invocation of [call_func] with the client it gets.
    [time.sleep] is recorded, not waited for. *)

Record call_env (A : Type) := {
  clock : nat -> Q;
  jitter : nat -> Q;
  call_func : nat -> pystr -> exn + A;
}.
Arguments clock {A} _ _.
Arguments jitter {A} _ _.
Arguments call_func {A} _ _ _.

Record caller := {
  api_rotator : APIRotator;
  last_api_call_time : Q;
  clock_reads : nat;
  jitter_draws : nat;
  calls_made : nat;
  sleeps : list Q;
}.

Definition min_call_interval : Q := 1 # 10.

Definition retries_exhausted_message (max_retries : Z) : pystr :=
  [65; 80; 73; 35843; 29992; 22833; 36133; 65292; 24050; 37325; 35797]%N
  ++ Py.str_of_int max_retries ++ [27425%N].

Inductive error_class := RateLimited | InvalidKey | OtherFailure.

Section RotatedCall.
Context `{PyRuntime} {A : Type} (E : call_env A).

(** The classification of an error by the text of its message. *)
Definition classify_error (e : exn) : error_class :=
  let error_str := str_lower (exn_str e) in
  if existsb (fun keyword => Py.contains keyword error_str)
       [Py.lit "rate limit"; Py.lit "quota"; Py.lit "too many requests";
        Py.lit "429"]
  then RateLimited
  else if Py.contains (Py.lit "invalid api key") error_str
          || Py.contains (Py.lit "api_key_invalid") error_str
  then InvalidKey
  else OtherFailure.

(** The body of the [try] of one attempt. *)
Definition try_call (s : caller) : caller * outcome A :=
  let t0 := clock_reads s in
  let (rot, acquired) := get_next_client (api_rotator s) (clock E t0) in
  match acquired with
  | Ret (client, api_key) =>
    let current_time := clock E (S t0) in
    let sleeps :=
      if Qlt_le_dec (current_time - last_api_call_time s) min_call_interval
      then sleeps s
           ++ [(min_call_interval - (current_time - last_api_call_time s))%Q]
      else sleeps s in
    let call_start_time := clock E (S (S t0)) in
    match call_func E (calls_made s) client with
    | inr result =>
      let response_time := (clock E (S (S (S t0))) - call_start_time)%Q in
      let (rot, reported) := report_success rot api_key response_time in
      let s' :=
        {| api_rotator := rot;
           last_api_call_time := clock E (S (S (S (S t0))));
           clock_reads := S (S (S (S (S t0))));
           jitter_draws := jitter_draws s;
           calls_made := S (calls_made s); sleeps := sleeps |} in
      match reported with
      | Ret _ => (s', Ret result)
      | Raise e => (s', Raise e)
      | Diverge => (s', Diverge)
      end
    | inl e =>
      ({| api_rotator := rot; last_api_call_time := last_api_call_time s;
          clock_reads := S (S (S t0)); jitter_draws := jitter_draws s;
          calls_made := S (calls_made s); sleeps := sleeps |}, Raise e)
    end
  | Raise e =>
    ({| api_rotator := rot; last_api_call_time := last_api_call_time s;
        clock_reads := S t0; jitter_draws := jitter_draws s;
        calls_made := calls_made s; sleeps := sleeps s |}, Raise e)
  | Diverge =>
    ({| api_rotator := rot; last_api_call_time := last_api_call_time s;
        clock_reads := S t0; jitter_draws := jitter_draws s;
        calls_made := calls_made s; sleeps := sleeps s |}, Diverge)
  end.

(** The [except] clause of one attempt. *)
Definition handle_error (s : caller) (e : exn) (attempt : Z)
  : caller * outcome unit :=
  let t0 := clock_reads s in
  let (rot, acquired) := get_next_client (api_rotator s) (clock E t0) in
  let rot :=
    match acquired with
    | Ret (_, current_api_key) => fst (report_error rot current_api_key)
    | _ => rot
    end in
  let s1 (draws : nat) (slept : list Q) :=
    {| api_rotator := rot; last_api_call_time := last_api_call_time s;
       clock_reads := S t0; jitter_draws := draws;
       calls_made := calls_made s; sleeps := sleeps s ++ slept |} in
  match acquired with
  | Diverge => (s1 (jitter_draws s) [], Diverge)
  | _ =>
    match classify_error e with
    | RateLimited =>
      let wait_time :=
        (inject_Z (2 ^ attempt) * (1 + jitter E (jitter_draws s)))%Q in
      (s1 (S (jitter_draws s)) [Qmin wait_time 60], Ret tt)
    | InvalidKey => (s1 (jitter_draws s) [], Ret tt)
    | OtherFailure => (s1 (jitter_draws s) [inject_Z (2 ^ attempt)], Ret tt)
    end
  end.

Fixpoint rotated_loop (attempts : list Z) (s : caller)
  (last_exception : option exn) (max_retries : Z) : caller * outcome A :=
  match attempts with
  | [] =>
    (s, Raise (default (Exception (retries_exhausted_message max_retries))
                 last_exception))
  | attempt :: rest =>
    match try_call s with
    | (s1, Raise e) =>
      match handle_error s1 e attempt with
      | (s2, Ret _) => rotated_loop rest s2 (Some e) max_retries
      | (s2, Raise e') => (s2, Raise e')
      | (s2, Diverge) => (s2, Diverge)
      end
    | done => done
    end
  end.

Definition _rotated_api_call (s : caller) (max_retries : Z)
  : caller * outcome A :=
  rotated_loop (range2 0 max_retries) s None max_retries.

End RotatedCall.

(** ** One page range: [CrossValidator._extract_single_page_range]

    [call_func] stands for the closure [ai_call_for_pages] (slicing the
    PDF and asking the service); its result is [response.text]. *)

Record extractor := {
  ex_caller : caller;
  ex_cache : SmartCacheManager;
}.

Definition range_failure (start_page end_page : Z) (reason : pystr) : pystr :=
  [91; 31532]%N ++ Py.str_of_int start_page ++ [45%N]
  ++ Py.str_of_int end_page
  ++ [39029; 22788; 29702; 22833; 36133; 65306]%N ++ reason ++ [93%N].

Definition empty_response_reason : pystr :=
  [36820; 22238; 31354; 20869; 23481]%N.

Section PageRange.
Context `{PyRuntime} (E : call_env (option pystr)).

Definition page_cache_prefix (pdf_path : pystr) (start_page end_page : Z)
  : pystr :=
  Py.lit "pages_" ++ Py.str_of_int start_page ++ [95%N]
  ++ Py.str_of_int end_page ++ Py.lit "_file_"
  ++ Py.slice_to (md5_hexdigest (str_encode pdf_path)) 8.

Definition _extract_single_page_range (env_get env_set : cache_env)
  (w : extractor) (pdf_path : pystr) (start_page end_page : Z)
  : extractor * outcome pystr :=
  let cache_prefix := page_cache_prefix pdf_path start_page end_page in
  let (cache, cached_content) := get (ex_cache w) env_get pdf_path cache_prefix in
  match cached_content with
  | Some ((_ :: _) as cached) =>
    ({| ex_caller := ex_caller w; ex_cache := cache |}, Ret cached)
  | _ =>
    match _rotated_api_call E (ex_caller w) 2 with
    | (s, Ret response) =>
      match strip unicode_space (default [] response) with
      | [] =>
        ({| ex_caller := s; ex_cache := cache |},
         Ret (range_failure start_page end_page empty_response_reason))
      | content =>
        let content :=
          if 200000 <? len content then truncate_200k content else content in
        ({| ex_caller := s;
            ex_cache := fst (set cache env_set pdf_path content cache_prefix) |},
         Ret content)
      end
    | (s, Raise e) =>
      ({| ex_caller := s; ex_cache := cache |},
       Ret (range_failure start_page end_page (Py.slice_to (exn_str e) 100)))
    | (s, Diverge) => ({| ex_caller := s; ex_cache := cache |}, Diverge)
    end
  end.

End PageRange.

(** ** The worker pool of [_extract_pdf_pages_concurrent]

    The threads interleave at the granularity of the operations on the
    shared objects: a [get] on the queue, a section under [results_lock],
    a [task_done].  A run is a sequence of steps of single workers.

    [self._log] calls the progress callback of the caller, which may
    raise.  [pool_step log_raises] is the step relation; the steps that
    start with a raising log call need [log_raises = true], so
    [pool_step false] describes the runs in which the callback never
    raises and [pool_step true] all runs.

    [stored] is a ghost log of the task ids whose results were written,
    in the order of the writes. *)

Definition task := (nat * Z * Z)%type.

Definition task_id (t : task) : nat := fst (fst t).

(** Where a worker thread is in its loop. *)
Inductive worker_state :=
| Idle (processed_count : nat)
    (* at the head of the loop *)
| Got (t : task) (processed_count : nat)
    (* [t] taken from the queue, [results_lock] not yet acquired *)
| Running (t : task) (processed_count : nat)
    (* [t] added to [processed_tasks]; nothing stored for it *)
| Stored (t : task) (processed_count : nat)
    (* the content of [t] stored and counted; the log call that follows
       not yet made *)
| Finishing (processed_count : nat)
    (* before the [task_done] that ends the loop body *)
| Aborting
    (* in the outer [except Exception] clause, before its [task_done] *)
| Exited.
    (* left the loop, or died from an exception *)

Record pool := {
  task_queue : list task;
  unfinished_tasks : nat;
  processed_tasks : gset nat;
  results : results_dict;
  workers : list worker_state;
  stored : list nat;
}.

(** [enumerate(page_ranges)], from index [i] *)
Fixpoint enumerate_from (i : nat) (page_ranges : list (Z * Z)) : list task :=
  match page_ranges with
  | [] => []
  | (start_page, end_page) :: rest =>
    (i, start_page, end_page) :: enumerate_from (S i) rest
  end.

(** [min(len(page_ranges), len(api_keys) * 2, 12)] *)
Definition max_workers (page_ranges : list (Z * Z)) (api_key_count : Z) : Z :=
  Z.min (Z.min (len page_ranges) (api_key_count * 2)) 12.

Definition pool_init (page_ranges : list (Z * Z)) (api_key_count : Z) : pool :=
  {| task_queue := enumerate_from 0 page_ranges;
     unfinished_tasks := length page_ranges;
     processed_tasks := ∅;
     results := [];
     workers :=
       replicate (Z.to_nat (max_workers page_ranges api_key_count)) (Idle 0);
     stored := [] |}.

(** What a worker stores for a task: the content, cut down when it is
    longer than 200000 characters, or the error message. *)
Definition task_result `{PyRuntime} (start_page end_page : Z)
  (o : exn + pystr) : pystr :=
  match o with
  | inr content =>
    if 200000 <? len content then truncate_200k content else content
  | inl e => range_failure start_page end_page (Py.slice_to (exn_str e) 100)
  end.

Inductive pool_step `{PyRuntime} (log_raises : bool) : pool -> pool -> Prop :=
| step_get st ws1 ws2 n t queue :
    (* [task_queue.get(timeout=1)] returns a task *)
    task_queue st = t :: queue ->
    workers st = ws1 ++ Idle n :: ws2 ->
    pool_step log_raises st
      {| task_queue := queue;
         unfinished_tasks := unfinished_tasks st;
         processed_tasks := processed_tasks st;
         results := results st;
         workers := ws1 ++ Got t n :: ws2;
         stored := stored st |}
| step_claim st ws1 ws2 n t :
    (* under the lock: the task is new and is marked as processed *)
    workers st = ws1 ++ Got t n :: ws2 ->
    task_id t ∉ processed_tasks st ->
    pool_step log_raises st
      {| task_queue := task_queue st;
         unfinished_tasks := unfinished_tasks st;
         processed_tasks := {[task_id t]} ∪ processed_tasks st;
         results := results st;
         workers := ws1 ++ Running t n :: ws2;
         stored := stored st |}
| step_skip st ws1 ws2 n t :
    (* under the lock: the task was processed before; [task_done],
       [continue] *)
    workers st = ws1 ++ Got t n :: ws2 ->
    task_id t ∈ processed_tasks st ->
    pool_step log_raises st
      {| task_queue := task_queue st;
         unfinished_tasks := pred (unfinished_tasks st);
         processed_tasks := processed_tasks st;
         results := results st;
         workers := ws1 ++ Idle n :: ws2;
         stored := stored st |}
| step_skip_raise st ws1 ws2 n t :
    (* the log call before that [task_done] raises *)
    log_raises = true ->
    workers st = ws1 ++ Got t n :: ws2 ->
    task_id t ∈ processed_tasks st ->
    pool_step log_raises st
      {| task_queue := task_queue st;
         unfinished_tasks := unfinished_tasks st;
         processed_tasks := processed_tasks st;
         results := results st;
         workers := ws1 ++ Aborting :: ws2;
         stored := stored st |}
| step_store st ws1 ws2 n id start_page end_page content :
    (* the extraction returns [content]; it is stored and counted *)
    workers st = ws1 ++ Running (id, start_page, end_page) n :: ws2 ->
    pool_step log_raises st
      {| task_queue := task_queue st;
         unfinished_tasks := unfinished_tasks st;
         processed_tasks := processed_tasks st;
         results :=
           PyDict.set (results st) id
             (start_page, task_result start_page end_page (inr content));
         workers := ws1 ++ Stored (id, start_page, end_page) (S n) :: ws2;
         stored := stored st ++ [id] |}
| step_fail st ws1 ws2 n id start_page end_page e :
    (* an exception [e] before the content is stored; the inner handler
       stores the error message *)
    workers st = ws1 ++ Running (id, start_page, end_page) n :: ws2 ->
    pool_step log_raises st
      {| task_queue := task_queue st;
         unfinished_tasks := unfinished_tasks st;
         processed_tasks := processed_tasks st;
         results :=
           PyDict.set (results st) id
             (start_page, task_result start_page end_page (inl e));
         workers := ws1 ++ Finishing n :: ws2;
         stored := stored st ++ [id] |}
| step_abort st ws1 ws2 n t :
    (* the log call after the claim raises, or the log call of the inner
       handler does: the outer handler is entered with nothing stored *)
    log_raises = true ->
    workers st = ws1 ++ Running t n :: ws2 ->
    pool_step log_raises st
      {| task_queue := task_queue st;
         unfinished_tasks := unfinished_tasks st;
         processed_tasks := processed_tasks st;
         results := results st;
         workers := ws1 ++ Aborting :: ws2;
         stored := stored st |}
| step_logged st ws1 ws2 n t :
    (* the log call after the store returns *)
    workers st = ws1 ++ Stored t n :: ws2 ->
    pool_step log_raises st
      {| task_queue := task_queue st;
         unfinished_tasks := unfinished_tasks st;
         processed_tasks := processed_tasks st;
         results := results st;
         workers := ws1 ++ Finishing n :: ws2;
         stored := stored st |}
| step_overwrite st ws1 ws2 n id start_page end_page e :
    (* the log call after the store raises [e]; the inner handler stores
       the error message over the content *)
    log_raises = true ->
    workers st = ws1 ++ Stored (id, start_page, end_page) n :: ws2 ->
    pool_step log_raises st
      {| task_queue := task_queue st;
         unfinished_tasks := unfinished_tasks st;
         processed_tasks := processed_tasks st;
         results :=
           PyDict.set (results st) id
             (start_page, task_result start_page end_page (inl e));
         workers := ws1 ++ Finishing n :: ws2;
         stored := stored st ++ [id] |}
| step_abort_stored st ws1 ws2 n t :
    (* the log call after the store raises, and so does the log call of
       the inner handler *)
    log_raises = true ->
    workers st = ws1 ++ Stored t n :: ws2 ->
    pool_step log_raises st
      {| task_queue := task_queue st;
         unfinished_tasks := unfinished_tasks st;
         processed_tasks := processed_tasks st;
         results := results st;
         workers := ws1 ++ Aborting :: ws2;
         stored := stored st |}
| step_task_done st ws1 ws2 n :
    (* [task_queue.task_done()] at the end of the loop body *)
    workers st = ws1 ++ Finishing n :: ws2 ->
    pool_step log_raises st
      {| task_queue := task_queue st;
         unfinished_tasks := pred (unfinished_tasks st);
         processed_tasks := processed_tasks st;
         results := results st;
         workers := ws1 ++ Idle n :: ws2;
         stored := stored st |}
| step_abort_done st ws1 ws2 :
    (* the outer handler: its log call returns, [task_done], [break] *)
    workers st = ws1 ++ Aborting :: ws2 ->
    pool_step log_raises st
      {| task_queue := task_queue st;
         unfinished_tasks := pred (unfinished_tasks st);
         processed_tasks := processed_tasks st;
         results := results st;
         workers := ws1 ++ Exited :: ws2;
         stored := stored st |}
| step_abort_die st ws1 ws2 :
    (* the log call of the outer handler raises: the thread dies before
       its [task_done] *)
    log_raises = true ->
    workers st = ws1 ++ Aborting :: ws2 ->
    pool_step log_raises st
      {| task_queue := task_queue st;
         unfinished_tasks := unfinished_tasks st;
         processed_tasks := processed_tasks st;
         results := results st;
         workers := ws1 ++ Exited :: ws2;
         stored := stored st |}
| step_exit st ws1 ws2 n :
    (* [queue.Empty]: the thread leaves the loop *)
    task_queue st = [] ->
    workers st = ws1 ++ Idle n :: ws2 ->
    pool_step log_raises st
      {| task_queue := task_queue st;
         unfinished_tasks := unfinished_tasks st;
         processed_tasks := processed_tasks st;
         results := results st;
         workers := ws1 ++ Exited :: ws2;
         stored := stored st |}.

Definition got_id (w : worker_state) : option nat :=
  match w with
  | Got t _ => Some (task_id t)
  | _ => None
  end.

Definition running_id (w : worker_state) : option nat :=
  match w with
  | Running t _ => Some (task_id t)
  | _ => None
  end.

Definition stored_id (w : worker_state) : option nat :=
  match w with
  | Stored t _ => Some (task_id t)
  | _ => None
  end.

(** The task a worker holds. *)
Definition holding (w : worker_state) : option task :=
  match w with
  | Got t _ | Running t _ | Stored t _ => Some t
  | _ => None
  end.

(** The number of [task_done] calls a worker still has to make for the
    task it took. *)
Definition owes (w : worker_state) : nat :=
  match w with
  | Idle _ | Exited => 0
  | _ => 1
  end.

Definition got_ids (ws : list worker_state) : list nat := omap got_id ws.
Definition running_ids (ws : list worker_state) : list nat :=
  omap running_id ws.
Definition stored_ids (ws : list worker_state) : list nat :=
  omap stored_id ws.



(** What holds in every state of a run.  [dropped] lists the tasks that a
    worker gave up in the outer handler before storing anything. *)
Record pool_inv (log_raises : bool) (page_ranges : list (Z * Z))
  (worker_count : nat) (st : pool) : Prop := {
  inv_taken :
    exists taken dropped,
      enumerate_from 0 page_ranges = taken ++ task_queue st /\
      map task_id taken
        ≡ₚ got_ids (workers st) ++ running_ids (workers st)
            ++ PyDict.keys (results st) ++ dropped /\
      (forall id,
         id ∈ processed_tasks st
         <-> id ∈ running_ids (workers st) ++ PyDict.keys (results st)
                    ++ dropped) /\
      (log_raises = false -> dropped = []);
  inv_stored :
    forall id, id ∈ stored_ids (workers st) -> id ∈ PyDict.keys (results st);
  inv_unfinished :
    (length (task_queue st) + sum_list (map owes (workers st))
     <= unfinished_tasks st)%nat;
  inv_workers : length (workers st) = worker_count;
  inv_starts :
    forall id start_page text,
      (id, (start_page, text)) ∈ results st ->
      exists end_page, page_ranges !! id = Some (start_page, end_page);
  inv_holding :
    forall id start_page end_page,
      (id, start_page, end_page) ∈ omap holding (workers st) ->
      page_ranges !! id = Some (start_page, end_page);
  inv_quiet :
    log_raises = false ->
    unfinished_tasks st
      = (length (task_queue st) + sum_list (map owes (workers st)))%nat /\
    stored st = PyDict.keys (results st) /\
    (Aborting ∉ workers st) /\
    (Exited ∈ workers st -> task_queue st = []);
}.

(** ** The thread pool of [_process_files_with_enhanced_concurrency]

    The tasks run in the threads of a [ThreadPoolExecutor]; the function
    itself collects their results.  What the function sees of the tasks,
    of the clock and of the progress callback is given by an environment:
    - [completion]: the futures, by index of their file, in the order in
      which [as_completed] yields them; when the list ends before every
      future was yielded, [as_completed] raises [TimeoutError];
    - [future_result i]: what [future.result] returns or raises for a
      future that was yielded;
    - [set_order]: the order in which a set of all the futures is
      iterated;
    - [hangs]: some task that was started never returns, so that leaving
      the [with] block, which waits for the running tasks, never ends;
    - [log_result k]: what the [k]-th call of [self._log] made by the
      function raises, if anything.
    The argument [mid] of the function only enters the cache keys of the
    tasks. *)

(** What [os.path] and [str] supply to [_safe_basename]. *)
Class OsRuntime := {
  os_path_basename : pystr -> pystr;
  str_isprintable : N -> bool;
}.

Definition unknown_file : pystr := [26410; 30693; 25991; 20214]%N.

(** [CrossValidator._safe_basename], for a path that is a [str] *)
Definition _safe_basename `{OsRuntime} (file_path : pystr) : pystr :=
  let basename := os_path_basename file_path in
  let cleaned_name :=
    map (fun c =>
           if ((c <? 65536)%N && str_isprintable c)
              || bool_decide (c ∈ [19968; 45; 40959]%N)
           then c else 95%N)
        basename in
  if len cleaned_name <? 2 then unknown_file else cleaned_name.

(** The exceptions that the collection tells apart:
    [concurrent.futures.TimeoutError] and the others. *)
Inductive pool_exn :=
| TimeoutError
| OtherError (e : exn).

Inductive run (A : Type) :=
| Returns (a : A)
| Raises (e : pool_exn)
| Hangs.
Arguments Returns {A} a.
Arguments Raises {A} e.
Arguments Hangs {A}.

Record pool_env := {
  completion : list nat;
  future_result : nat -> pool_exn + pystr;
  set_order : list nat;
  hangs : bool;
  log_result : nat -> option pool_exn;
}.

Record collector := {
  co_results : list pystr;
  completed_count : Z;
  unfinished_futures : gset nat;
  log_calls : nat;
}.

Definition big_file : pystr := [22823; 25991; 20214]%N.
Definition medium_file : pystr := [20013; 31561; 25991; 20214]%N.

(** ["--- {file_type}文件: {filename} ---\n"] *)
Definition file_header (file_type filename : pystr) : pystr :=
  [45; 45; 45; 32]%N ++ file_type ++ [25991; 20214; 58; 32]%N ++ filename
  ++ [32; 45; 45; 45; 10]%N.

Definition timeout_marker (file_type filename : pystr) : pystr :=
  file_header file_type filename
  ++ [25991; 20214; 22788; 29702; 36229; 26102]%N.

Definition failure_marker (file_type filename error_msg : pystr) : pystr :=
  file_header file_type filename
  ++ [25991; 20214; 24182; 21457; 22788; 29702; 22833; 36133; 58; 32]%N
  ++ error_msg.

(** [results.append(r)] followed by [completed_count += 1] *)
Definition add_result (c : collector) (r : pystr) : collector :=
  {| co_results := co_results c ++ [r];
     completed_count := completed_count c + 1;
     unfinished_futures := unfinished_futures c;
     log_calls := log_calls c |}.

Definition discard_future (c : collector) (i : nat) : collector :=
  {| co_results := co_results c;
     completed_count := completed_count c;
     unfinished_futures := unfinished_futures c ∖ {[i]};
     log_calls := log_calls c |}.

Section ThreadPool.
Context `{PyRuntime} `{OsRuntime} (E : pool_env).
Context (files : list pystr) (file_type : pystr) (api_key_count : Z).

(** One call of [self._log]: the exception it raises, if any. *)
Definition log_call (c : collector) : collector * option pool_exn :=
  ({| co_results := co_results c;
      completed_count := completed_count c;
      unfinished_futures := unfinished_futures c;
      log_calls := S (log_calls c) |},
   log_result E (log_calls c)).

(** The clause [except concurrent.futures.TimeoutError] of the loop body *)
Definition on_timeout (filename : pystr) (c : collector)
  : collector * option pool_exn :=
  let (c, raised) := log_call c in
  match raised with
  | Some e => (c, Some e)
  | None => (add_result c (timeout_marker file_type filename), None)
  end.

(** The clause [except Exception as e] of the loop body *)
Definition on_error (filename : pystr) (e : exn) (c : collector)
  : collector * option pool_exn :=
  let error_msg := Py.slice_to (exn_str e) 50 in
  let (c, raised) := log_call c in
  match raised with
  | Some e' => (c, Some e')
  | None =>
    (add_result c (failure_marker file_type filename error_msg), None)
  end.

(** The body of the loop over [as_completed]; the second component is the
    exception that leaves the body. *)
Definition collect_one (i : nat) (c : collector)
  : collector * option pool_exn :=
  match files !! i with
  | None => (c, None)   (* not a future of this call *)
  | Some file_path =>
    let filename := _safe_basename file_path in
    let c := discard_future c i in
    match future_result E i with
    | inr result =>
      let c := add_result c result in
      let (c, raised) := log_call c in
      match raised with
      | None => (c, None)
      | Some TimeoutError => on_timeout filename c
      | Some (OtherError e) => on_error filename e c
      end
    | inl TimeoutError => on_timeout filename c
    | inl (OtherError e) => on_error filename e c
    end
  end.

Fixpoint collect_loop (yielded : list nat) (c : collector)
  : collector * option pool_exn :=
  match yielded with
  | [] => (c, None)
  | i :: rest =>
    let (c, raised) := collect_one i c in
    match raised with
    | Some e => (c, Some e)
    | None => collect_loop rest c
    end
  end.

(** The body of the loop over [unfinished_futures] *)
Definition sweep_one (i : nat) (c : collector)
  : collector * option pool_exn :=
  match files !! i with
  | None => (c, None)
  | Some file_path =>
    let filename := _safe_basename file_path in
    let c := add_result c (timeout_marker file_type filename) in
    let (c, raised) := log_call c in
    match raised with
    | None => (c, None)
    | Some _ => log_call c   (* [except Exception]: one more log call *)
    end
  end.

Fixpoint sweep_loop (futures : list nat) (c : collector)
  : collector * option pool_exn :=
  match futures with
  | [] => (c, None)
  | i :: rest =>
    let (c, raised) := sweep_one i c in
    match raised with
    | Some e => (c, Some e)
    | None => sweep_loop rest c
    end
  end.

(** The outer clause [except concurrent.futures.TimeoutError] *)
Definition on_phase_timeout (c : collector) : collector * option pool_exn :=
  let (c, raised) := log_call c in
  match raised with
  | Some e => (c, Some e)
  | None =>
    sweep_loop
      (filter (fun i => i ∈ unfinished_futures c) (set_order E)) c
  end.

(** The [try] statement inside the [with] block *)
Definition collect (c : collector) : collector * option pool_exn :=
  let (c, raised) := collect_loop (completion E) c in
  match raised with
  | Some TimeoutError => on_phase_timeout c
  | Some (OtherError e) => (c, Some (OtherError e))
  | None =>
    if bool_decide (unfinished_futures c = ∅) then (c, None)
    else on_phase_timeout c   (* [as_completed] raises [TimeoutError] *)
  end.

Definition pool_size : Z :=
  if bool_decide (file_type = big_file)
  then Z.min (Z.min (len files) (api_key_count * 2)) 16
  else if bool_decide (file_type = medium_file)
  then Z.min (Z.min (len files) (api_key_count * 2)) 12
  else Z.min (Z.min (len files) api_key_count) 8.

Definition _process_files_with_enhanced_concurrency : run (list pystr) :=
  match files with
  | [] => Returns []
  | _ =>
    let c :=
      {| co_results := []; completed_count := 0;
         unfinished_futures := list_to_set (seq 0 (length files));
         log_calls := 0 |} in
    let (c, raised) := log_call c in
    match raised with
    | Some e => Raises e
    | None =>
      let (c, raised) := log_call c in
      match raised with
      | Some e => Raises e
      | None =>
        if pool_size <=? 0 then
          Raises (OtherError
                    (ValueError
                       (Py.lit "max_workers must be greater than 0"%string)))
        else
          let (c, raised) := collect c in
          if hangs E then Hangs
          else
            match raised with
            | Some e => Raises e
            | None =>
              let (c, raised) := log_call c in
              match raised with
              | Some e => Raises e
              | None => Returns (co_results c)
              end
            end
      end
    end
  end.


End ThreadPool.

(** ** Histories of the credential pool

    The calls that the rest of the program makes on the pool, and the
    state they leave behind; a call that raises leaves the updates it made
    before raising. *)

Inductive rotator_op :=
| OpNext (now : Q)
| OpError (api_key : pystr)
| OpSuccess (api_key : pystr) (response_time : Q).

Definition run_op (r : APIRotator) (op : rotator_op) : APIRotator :=
  match op with
  | OpNext now => fst (get_next_client r now)
  | OpError api_key => fst (report_error r api_key)
  | OpSuccess api_key response_time =>
    fst (report_success r api_key response_time)
  end.

Definition run_ops (r : APIRotator) (ops : list rotator_op) : APIRotator :=
  foldl run_op r ops.

(** What holds of a pool created for [keys] after any history. *)
Record rotator_inv (keys : list pystr) (client_ok : pystr -> bool)
  (r : APIRotator) : Prop := {
  rinv_keys : api_keys r = keys;
  rinv_cursor : current_index r = 0 \/ 0 <= current_index r < len keys;
  rinv_clients :
    forall key, is_Some (clients r !! key)
                <-> key ∈ keys /\ client_ok key = true;
  rinv_client_id :
    forall key client, clients r !! key = Some client -> client = key;
  rinv_blacklisted : forall key, key ∈ blacklisted r -> key ∈ keys;
  rinv_errors : forall key, is_Some (error_count r !! key) <-> key ∈ keys;
  rinv_errors_nonneg : forall key n, error_count r !! key = Some n -> 0 <= n;
  rinv_usage : forall key, is_Some (usage_count r !! key) <-> key ∈ keys;
  rinv_usage_nonneg : forall key n, usage_count r !! key = Some n -> 0 <= n;
  rinv_successes : forall key, is_Some (success_count r !! key) <-> key ∈ keys;
  rinv_times : forall key, is_Some (response_times r !! key) <-> key ∈ keys;
  rinv_history :
    forall key times, response_times r !! key = Some times ->
      len times <= 10 /\ Forall (fun t => (0 < t)%Q) times;
}.

(** ** The plan of [_extract_pdf_with_concurrent_pages]

    [None] stands for the fallback to [_extract_pdf_with_file_api]: no
    valid page count, a division by zero caught by the [except] clause, or
    an empty list of ranges. *)

Definition optimal_chunk_size (total_pages api_count : Z) : option Z :=
  let target_chunks := api_count * 2 in
  if target_chunks =? 0 then None   (* ZeroDivisionError *)
  else
    let optimal_chunk_size := Z.max 2 (total_pages / target_chunks) in
    Some (if 6 <? optimal_chunk_size then 6 else optimal_chunk_size).

Definition plan_page_ranges (total_pages api_count : Z)
  : option (list (Z * Z)) :=
  if total_pages <=? 0 then None
  else
    match optimal_chunk_size total_pages api_count with
    | None => None
    | Some chunk =>
      match _split_pdf_pages total_pages chunk with
      | [] => None
      | page_ranges => Some page_ranges
      end
    end.

Definition range_pages (r : Z * Z) : Z := snd r - fst r + 1.

(** ** Concrete inputs

    To evaluate the model, the runtime is instantiated on ASCII text:
    the classes [\d] and [\s] and [str.lower] restricted to ASCII, UTF-8
    encoding as the identity on ASCII, and, in place of MD5, an injective
    stand-in that returns its input. *)

Definition ascii_space (c : N) : bool :=
  ((9 <=? c) && (c <=? 13) || (28 <=? c) && (c <=? 32))%N.

Definition ascii_digit (c : N) : bool := ((48 <=? c) && (c <=? 57))%N.

Definition ascii_lower (s : pystr) : pystr :=
  map (fun c => if ((65 <=? c) && (c <=? 90))%N then (c + 32)%N else c) s.

Definition ascii_runtime : PyRuntime :=
  {| unicode_digit := ascii_digit;
     unicode_space := ascii_space;
     str_lower := ascii_lower;
     str_repr := fun s => [39%N] ++ s ++ [39%N];
     str_encode := fun s => s;
     md5_hexdigest := fun bytes => bytes;
     float_str := fun _ => Py.lit "0.0" |}.

(** [n] times the letter A *)
Definition letters (n : Z) : pystr := repeat 65%N (Z.to_nat n).

(** Six planned ranges; results for all of them but [(9, 10)], the first
    three filling the total-length limit of the assembly. *)
Definition gap_plan : list (Z * Z) := _split_pdf_pages 12 2.

Definition gap_results : results_dict :=
  [(0%nat, (1, letters 200000)); (1%nat, (3, letters 200000));
   (2%nat, (5, letters 100000)); (3%nat, (7, letters 1));
   (5%nat, (11, letters 1))].



(** A pool of two credentials after one call and three reported failures
    for each credential. *)
Definition key_a : pystr := Py.lit "key-a".
Definition key_b : pystr := Py.lit "key-b".

Definition fail3 (r : APIRotator) (key : pystr) : APIRotator :=
  fst (report_error (fst (report_error (fst (report_error r key)) key)) key).

Definition two_keys : APIRotator := rotator_init [key_a; key_b] (fun _ => true).

Definition two_keys_blacklisted : APIRotator :=
  fail3 (fail3 (fst (get_next_client two_keys 0)) key_a) key_b.

(** A source file of one byte, rewritten in place with another byte and
    the same modification time. *)
Definition doc_path : pystr := Py.lit "doc.pdf".

Definition env_at (time : Q) (data : list N) (mtime : Q) : cache_env :=
  {| now := time;
     files :=
       {[ doc_path := {| f_data := data; f_mtime := mtime;
                         f_readable := true |} ]};
     redis_ok := true; disk_ok := true; pickle_size := 100 |}.

Definition fresh_cache (max_memory_items : Z) : SmartCacheManager :=
  new_cache 24 max_memory_items 1000 None [].

(** A path library on ASCII text: the name after the last slash, and the
    printable ASCII characters. *)
Fixpoint ascii_basename (path : pystr) : pystr :=
  match path with
  | [] => []
  | c :: rest =>
    if bool_decide (47%N ∈ rest) then ascii_basename rest
    else if (c =? 47)%N then rest else path
  end.

Definition ascii_os : OsRuntime :=
  {| os_path_basename := ascii_basename;
     str_isprintable := fun c => (32 <=? c)%N && (c <=? 126)%N |}.


(** One page range and one worker whose log call after the claim raises:
    the state once the outer handler has marked the task as done. *)
Definition one_task_dropped : pool :=
  {| task_queue := [];
     unfinished_tasks := 0;
     processed_tasks := {[0%nat]} ∪ ∅;
     results := [];
     workers := [Exited];
     stored := [] |}.

(** One page range and one worker whose log call after the store raises:
    the state once the error message is stored over the content and the
    task is done. *)
Definition one_task_overwritten : pool :=
  {| task_queue := [];
     unfinished_tasks := 0;
     processed_tasks := {[0%nat]} ∪ ∅;
     results := [(0%nat, (1, range_failure 1 2 (Py.lit "log failed")))];
     workers := [Idle 1];
     stored := [0%nat; 0%nat] |}.

(** One file whose task returns in time. [failing_log k] is a progress
    callback that raises on call [k] of the collection. *)
Definition failing_log (k : nat) : pool_env :=
  {| completion := [0%nat];
     future_result := fun _ => inr (Py.lit "text");
     set_order := [0%nat];
     hangs := false;
     log_result :=
       fun n => if (n =? k)%nat
                then Some (OtherError (Exception (Py.lit "log failed")))
                else None |}.



Definition key_c : pystr := Py.lit "key-c".

(** Three credentials; the second one is blacklisted after the first call. *)
Definition three_keys_middle_out : APIRotator :=
  fail3 (fst (get_next_client
                (rotator_init [key_a; key_b; key_c] (fun _ => true)) 0))
        key_b.

(** * Properties *)

(** ** Decimal printing *)

Section Printing.

Lemma digits_aux_length fuel : forall n acc (k : nat),
  0 <= n < 10 ^ Z.of_nat k -> (1 <= k)%nat ->
  (length (Py.digits_aux fuel n acc) <= k + length acc)%nat.
Proof.
  induction fuel as [|fuel IH]; intros n acc k Hn Hk; simpl; [lia|].
  destruct (Z.ltb_spec n 10) as [Hlt|Hge]; [simpl; lia|].
  destruct k as [|[|k]]; [lia| |].
  - change (10 ^ Z.of_nat 1) with 10 in Hn. lia.
  - specialize (IH (n / 10) ((N.of_nat 48 + Z.to_N (n mod 10))%N :: acc) (S k)).
    simpl length in IH.
    assert (Hp : 10 ^ Z.of_nat (S (S k)) = 10 * 10 ^ Z.of_nat (S k)).
    { rewrite (Nat2Z.inj_succ (S k)), Z.pow_succ_r by lia. reflexivity. }
    assert (0 <= n / 10 < 10 ^ Z.of_nat (S k)).
    { split; [apply Z.div_pos; lia|].
      apply Z.div_lt_upper_bound; lia. }
    specialize (IH ltac:(assumption) ltac:(lia)). lia.
Qed.

Lemma digits_length n (k : nat) :
  0 <= n < 10 ^ Z.of_nat k -> (1 <= k)%nat -> (length (Py.digits n) <= k)%nat.
Proof.
  intros Hn Hk. unfold Py.digits.
  pose proof (digits_aux_length (S (Z.to_nat (Z.log2 n))) n [] k Hn Hk) as Hl.
  change (length (@nil N)) with 0%nat in Hl. lia.
Qed.

Lemma group3_rev_length_aux (n : nat) : forall ds,
  (length ds <= n)%nat -> (length (Py.group3_rev ds) <= 2 * length ds)%nat.
Proof.
  induction n as [|n IH]; intros ds Hds.
  - destruct ds; simpl in *; lia.
  - destruct ds as [|a [|b [|c [|d r]]]]; simpl in *; try lia.
    specialize (IH (d :: r)). simpl in IH.
    specialize (IH ltac:(lia)). lia.
Qed.

Lemma format_comma_length n (k : nat) :
  Z.abs n < 10 ^ Z.of_nat k -> (1 <= k)%nat ->
  (length (Py.format_comma n) <= 1 + 2 * k)%nat.
Proof.
  intros Hn Hk. unfold Py.format_comma.
  assert (Hd : (length (Py.digits (Z.abs n)) <= k)%nat)
    by (apply digits_length; lia).
  pose proof (group3_rev_length_aux _ (rev (Py.digits (Z.abs n))) (le_n _)) as Hg.
  rewrite length_rev in Hg.
  destruct (n <? 0); simpl; rewrite length_rev; lia.
Qed.

End Printing.

(** ** Head/tail truncation *)

Section Truncation.

Lemma omission_marker_length n :
  Z.abs n < 10 ^ 19 -> (length (omission_marker n) <= 62)%nat.
Proof.
  intros Hn. unfold omission_marker. rewrite !length_app.
  pose proof (format_comma_length n 19 Hn ltac:(lia)). simpl length. lia.
Qed.

Lemma truncate_200k_long (content : pystr) :
  200000 < len content ->
  truncate_200k content =
    take (Z.to_nat 5000) content
    ++ omission_marker (len content - 10000)
    ++ drop (Z.to_nat (len content - 5000)) content.
Proof.
  intros Hlen. unfold truncate_200k, _smart_truncate_content.
  destruct content as [|c content']; [unfold Py.len in Hlen; simpl in Hlen; lia|].
  set (content := c :: content') in *.
  destruct (Z.leb_spec (len content) 200000); [lia|].
  unfold Py.slice_to, Py.slice_from.
  change (5000 <? 0) with false. change (0 <? 5000) with true.
  change (- (5000) <? 0) with true. cbv iota.
  replace (len content - 5000 - 5000) with (len content - 10000) by lia.
  replace (len content + - (5000)) with (len content - 5000) by lia.
  reflexivity.
Qed.

Lemma truncate_200k_bound (content : pystr) :
  len content < 2 ^ 63 -> len (truncate_200k content) <= 200000.
Proof.
  intros Hmax.
  destruct (Z_lt_le_dec 200000 (len content)) as [Hlong|Hshort].
  - rewrite truncate_200k_long by exact Hlong.
    unfold Py.len in *. rewrite !length_app, length_take, length_drop.
    pose proof (omission_marker_length (Z.of_nat (length content) - 10000)) as Hm.
    assert (Hp : 2 ^ 63 < 10 ^ 19) by reflexivity.
    specialize (Hm ltac:(lia)). lia.
  - unfold truncate_200k, _smart_truncate_content.
    destruct content as [|c0 rest]; [unfold Py.len; simpl; lia|].
    destruct (Z.leb_spec (len (c0 :: rest)) 200000); lia.
Qed.

Lemma final_length_check_long (combined_content : pystr) :
  max_combined_length < len combined_content ->
  final_length_check combined_content
    = take (Z.to_nat 500000) combined_content ++ final_note /\
  len (final_length_check combined_content) = 500028.
Proof.
  intros Hlen. unfold final_length_check, max_combined_length in *.
  destruct (Z.ltb_spec 500000 (len combined_content)); [|lia].
  unfold Py.slice_to. change (500000 <? 0) with false. cbv iota.
  split; [reflexivity|].
  unfold Py.len in *. rewrite length_app, length_take.
  assert (Hn : length final_note = 28%nat) by reflexivity.
  rewrite Hn. lia.
Qed.

Lemma final_length_check_bound (combined_content : pystr) :
  len (final_length_check combined_content) <= 500028.
Proof.
  destruct (Z_lt_le_dec max_combined_length (len combined_content)) as [Hl|Hs].
  - apply final_length_check_long in Hl as [_ ->]. lia.
  - unfold final_length_check, max_combined_length in *.
    destruct (Z.ltb_spec 500000 (len combined_content)); lia.
Qed.

End Truncation.

(** ** Page-range planning *)

Section Planner.

Lemma contiguous_from_lower p chunks :
  contiguous_from p chunks ->
  Forall (fun c => p <= fst c /\ fst c <= snd c) chunks.
Proof.
  revert p. induction chunks as [|[s e] rest IH]; intros p H; [constructor|].
  destruct H as (-> & Hle & Hrest). constructor; [simpl; lia|].
  apply IH in Hrest. eapply Forall_impl; [exact Hrest|].
  intros c [? ?]. lia.
Qed.

Lemma contiguous_ascending p chunks :
  contiguous_from p chunks -> ascending_starts chunks.
Proof.
  unfold ascending_starts. revert p.
  induction chunks as [|[s e] rest IH]; intros p H; simpl; [constructor|].
  destruct H as (-> & Hle & Hrest). constructor; [eauto|].
  apply contiguous_from_lower in Hrest.
  rewrite Forall_fmap. eapply Forall_impl; [exact Hrest|].
  intros c [? ?]. simpl. lia.
Qed.

Lemma contiguous_non_overlapping p chunks :
  contiguous_from p chunks -> non_overlapping chunks.
Proof.
  revert p. induction chunks as [|[s e] rest IH]; intros p H i j a b Ha Hb Hij.
  - rewrite lookup_nil in Ha. discriminate.
  - destruct H as (-> & Hle & Hrest).
    destruct j as [|j]; [lia|]. simpl in Hb.
    destruct i as [|i]; simpl in Ha.
    + injection Ha as <-. simpl.
      apply contiguous_from_lower in Hrest.
      rewrite Forall_forall in Hrest.
      assert (Hin : b ∈ rest) by (apply list_elem_of_lookup; eauto).
      specialize (Hrest b Hin). lia.
    + eapply (IH _ Hrest i j); eauto. lia.
Qed.

(** The chunks built over the start pages [1 + a*C, 1 + (a+1)*C, ...],
    when the last start page is the last one not beyond [N]. *)
Lemma make_chunks_seq N C n a :
  0 < C ->
  1 + (Z.of_nat a + Z.of_nat n) * C <= N < 1 + (Z.of_nat a + Z.of_nat n + 1) * C ->
  let chunks :=
    make_chunks N C (map (fun i : nat => 1 + Z.of_nat i * C) (seq a (S n))) in
  contiguous_from (1 + Z.of_nat a * C) chunks /\
  covered_pages chunks = N - Z.of_nat a * C.
Proof.
  intros HC. revert a. induction n as [|n IH]; intros a Hb.
  - cbn [seq map make_chunks contiguous_from covered_pages foldr fst snd].
    unfold make_chunks. cbn [map contiguous_from covered_pages foldr fst snd].
    rewrite Z.min_r by nia. repeat split; nia.
  - specialize (IH (S a)).
    assert (Hb' : 1 + (Z.of_nat (S a) + Z.of_nat n) * C <= N <
                  1 + (Z.of_nat (S a) + Z.of_nat n + 1) * C) by nia.
    specialize (IH Hb'). cbv zeta in IH. destruct IH as [IHc IHs].
    change (seq a (S (S n))) with (a :: seq (S a) (S n)).
    unfold make_chunks in *.
    set (tl := seq (S a) (S n)) in *. clearbody tl.
    cbn [map contiguous_from covered_pages foldr fst snd].
    rewrite Z.min_l by nia.
    replace (1 + Z.of_nat a * C + C - 1 + 1) with (1 + Z.of_nat (S a) * C) by nia.
    unfold covered_pages in IHs. rewrite IHs.
    repeat split; try nia. exact IHc.
Qed.

Lemma split_large N C :
  0 < C -> C < N ->
  contiguous_from 1 (_split_pdf_pages N C) /\
  covered_pages (_split_pdf_pages N C) = N.
Proof.
  intros HC HN. unfold _split_pdf_pages, Py.range.
  destruct (Z.leb_spec N 0); [lia|].
  destruct (Z.leb_spec N C); [lia|].
  destruct (Z.eqb_spec C 0); [lia|].
  destruct (Z.ltb_spec 0 C); [|lia].
  replace (N + 1 - 1 + C - 1) with (N + C - 1) by lia.
  set (q := (N + C - 1) / C).
  assert (Hq1 : C * q <= N + C - 1) by (apply Z.mul_div_le; lia).
  assert (Hq2 : N + C - 1 < C * Z.succ q) by (apply Z.mul_succ_div_gt; lia).
  assert (Hq : 2 <= q) by nia.
  cbv zeta.
  replace (N + 1 - 1 + C - 1) with (N + C - 1) by lia. fold q.
  destruct (Z.to_nat q) as [|k] eqn:En; [lia|].
  assert (Hn : Z.of_nat k = q - 1) by lia.
  pose proof (make_chunks_seq N C k 0 HC) as Hm.
  cbv zeta in Hm. change (Z.of_nat 0) with 0 in Hm.
  destruct Hm as [Hc Hs]; [nia|].
  rewrite Z.mul_0_l, Z.add_0_r in Hc. rewrite Z.mul_0_l, Z.sub_0_r in Hs.
  destruct (_ =? _); split; assumption.
Qed.

End Planner.

(** C2. For every page count [N] and chunk size [C > 0]: no ranges when
    [N <= 0]; the single range [(1, N)] when [0 < N <= C]; and when [N > C]
    the ranges are contiguous from page 1, do not overlap, have ascending
    start pages, and their page counts add up to [N]. *)
Theorem split_pdf_pages_partition (N C : Z) :
  0 < C ->
  (N <= 0 -> _split_pdf_pages N C = []) /\
  (0 < N <= C -> _split_pdf_pages N C = [(1, N)]) /\
  (C < N ->
   contiguous_from 1 (_split_pdf_pages N C) /\
   non_overlapping (_split_pdf_pages N C) /\
   ascending_starts (_split_pdf_pages N C) /\
   covered_pages (_split_pdf_pages N C) = N).
Proof.
  intros HC. split; [|split].
  - intros HN. unfold _split_pdf_pages.
    destruct (Z.leb_spec N 0); [reflexivity|lia].
  - intros HN. unfold _split_pdf_pages.
    destruct (Z.leb_spec N 0); [lia|].
    destruct (Z.leb_spec N C); [reflexivity|lia].
  - intros HN. destruct (split_large N C HC HN) as [Hc Hs].
    repeat split; eauto using contiguous_non_overlapping, contiguous_ascending.
Qed.

Lemma split_pdf_pages_partition_witness :
  contiguous_from 1 (_split_pdf_pages 20 6) /\
  non_overlapping (_split_pdf_pages 20 6) /\
  ascending_starts (_split_pdf_pages 20 6) /\
  covered_pages (_split_pdf_pages 20 6) = 20.
Proof.
  apply (split_pdf_pages_partition 20 6); lia.
Defined.

(** ** Sorting by start page *)

Section Sorting.
Context {A : Type} (key : A -> Z).

Lemma insert_by_perm x l : insert_by key x l ≡ₚ x :: l.
Proof.
  induction l as [|y l IH]; simpl; [reflexivity|].
  destruct (key x <=? key y); [reflexivity|].
  rewrite IH. apply perm_swap.
Qed.

Lemma sorted_by_perm l : sorted_by key l ≡ₚ l.
Proof.
  induction l as [|x l IH]; simpl; [reflexivity|].
  rewrite insert_by_perm. by rewrite IH.
Qed.

Lemma insert_by_sorted x l :
  StronglySorted (key_le key) l -> StronglySorted (key_le key) (insert_by key x l).
Proof.
  induction 1 as [|y l Hs IH Hy]; simpl.
  - repeat constructor.
  - destruct (Z.leb_spec (key x) (key y)) as [Hle|Hgt].
    + constructor; [by constructor|].
      constructor; [exact Hle|].
      eapply Forall_impl; [exact Hy|]. unfold key_le. intros z Hz. lia.
    + constructor; [exact IH|].
      rewrite insert_by_perm. constructor; [unfold key_le; lia|exact Hy].
Qed.

Lemma sorted_by_sorted l : StronglySorted (key_le key) (sorted_by key l).
Proof.
  induction l as [|x l IH]; simpl; [constructor|].
  by apply insert_by_sorted.
Qed.



End Sorting.

(** ** Assembly *)

Section AssemblyProps.
Context `{PyRuntime}.


Lemma contiguous_from_app p a b :
  contiguous_from p (a ++ b) <->
  contiguous_from p a /\ contiguous_from (end_of p a) b.
Proof.
  revert p. induction a as [|[s e] a IH]; intros p; simpl; [tauto|].
  rewrite IH. tauto.
Qed.

Lemma find_range_unique page_ranges r :
  StronglySorted Z.lt (map fst page_ranges) -> r ∈ page_ranges ->
  find_range page_ranges (fst r) = Some r.
Proof.
  unfold find_range.
  induction page_ranges as [|r0 rest IH]; intros Hs Hr;
    [by apply elem_of_nil in Hr|].
  simpl in Hs. apply StronglySorted_cons in Hs as [Hall Hs].
  simpl. apply elem_of_cons in Hr as [->|Hr].
  - by rewrite Z.eqb_refl.
  - rewrite Forall_forall in Hall.
    assert (fst r0 < fst r) by (apply Hall; by apply list_elem_of_fmap_2).
    destruct (Z.eqb_spec (fst r0) (fst r)); [lia|]. by apply IH.
Qed.

(** An iteration that does not leave the loop records the gap before the
    item, if any, and moves the expected page past the item's range. *)
Lemma merge_step_running page_ranges st item :
  stopped (merge_step page_ranges st item) = false ->
  missing_pages (merge_step page_ranges st item)
    = (if expected_page st <? start_of item
       then missing_pages st ++ range2 (expected_page st) (start_of item)
       else missing_pages st) /\
  expected_page (merge_step page_ranges st item)
    = match find_range page_ranges (start_of item) with
      | Some task_range => snd task_range + 1
      | None => expected_page st
      end.
Proof.
  unfold merge_step.
  destruct (max_combined_length <? total_length st + len (content_of item));
    [destruct (5000 <? max_combined_length - total_length st)|];
    simpl; intros Hs; try discriminate; split; reflexivity.
Qed.

Lemma merge_loop_app page_ranges st a b :
  stopped st = false ->
  merge_loop page_ranges st (a ++ b)
    = if stopped (merge_loop page_ranges st a)
      then merge_loop page_ranges st a
      else merge_loop page_ranges (merge_loop page_ranges st a) b.
Proof.
  revert st. induction a as [|x a IH]; intros st Hst; simpl.
  - by rewrite Hst.
  - destruct (stopped (merge_step page_ranges st x)) eqn:Hx.
    + by rewrite Hx.
    + by apply IH.
Qed.

(** Walking over results whose ranges follow one another from the expected
    page adds no missing page. *)
Lemma merge_loop_contiguous page_ranges rs : forall items st,
  map start_of items = map fst rs ->
  contiguous_from (expected_page st) rs ->
  (forall r, r ∈ rs -> find_range page_ranges (fst r) = Some r) ->
  stopped st = false ->
  stopped (merge_loop page_ranges st items) = false ->
  missing_pages (merge_loop page_ranges st items) = missing_pages st /\
  expected_page (merge_loop page_ranges st items) = end_of (expected_page st) rs.
Proof.
  induction rs as [|[s e] rs IH]; intros items st Hm Hc Hf Hst Hfin.
  - destruct items; [|discriminate]. simpl. auto.
  - destruct items as [|item items]; [discriminate|].
    simpl in Hm. injection Hm as Hs Hm.
    destruct Hc as (Hexp & Hle & Hc).
    simpl in Hfin |- *.
    destruct (stopped (merge_step page_ranges st item)) eqn:Hstep;
      [congruence|].
    destruct (merge_step_running _ _ _ Hstep) as [Hmiss Hnext].
    pose proof (Hf (s, e) ltac:(by left)) as Hfs. simpl in Hfs.
    rewrite Hs, Hfs in Hnext. simpl in Hnext.
    rewrite Hs, Hexp, Z.ltb_irrefl in Hmiss.
    destruct (IH items (merge_step page_ranges st item)) as [IHm IHe]; auto.
    + by rewrite Hnext.
    + intros r Hr. apply Hf. by right.
    + rewrite IHm, IHe, Hmiss, Hnext. auto.
Qed.

Lemma sorted_starts (results : results_dict) (starts : list Z) :
  StronglySorted Z.lt starts ->
  map start_of results ≡ₚ starts ->
  map start_of (sorted_results results) = starts.
Proof.
  intros Hs Hp.
  apply (StronglySorted_unique_strong Z.le).
  - intros; lia.
  - apply (StronglySorted_fmap start_of (key_le start_of) Z.le);
      [intros x y Hxy; exact Hxy|apply sorted_by_sorted].
  - clear Hp. induction Hs as [|x l Hl IH Hx]; constructor; [exact IH|].
    eapply Forall_impl; [exact Hx|]. intros; lia.
  - unfold sorted_results. by rewrite sorted_by_perm.
Qed.

End AssemblyProps.


Lemma elem_of_range2 (a b p : Z) : p ∈ range2 a b <-> a <= p < b.
Proof.
  unfold range2. rewrite list_elem_of_fmap. split.
  - intros (i & -> & Hi). apply elem_of_seq in Hi. lia.
  - intros Hp. exists (Z.to_nat (p - a)). split; [lia|].
    apply elem_of_seq. lia.
Qed.

(** C5 (amended). When the results cover every planned range except one
    that is followed by at least one more range, and the walk over the
    results is not cut short by the total-length limit, the missing-pages
    list is exactly the pages of the omitted range, in order. *)
Theorem gap_detection `{PyRuntime}
  (pre post : list (Z * Z)) (rStart rEnd : Z) (results : results_dict) :
  contiguous_from 1 (pre ++ (rStart, rEnd) :: post) ->
  post <> [] ->
  map start_of results ≡ₚ map fst (pre ++ post) ->
  stopped (merge_walk (pre ++ (rStart, rEnd) :: post) results) = false ->
  missing_pages (merge_walk (pre ++ (rStart, rEnd) :: post) results)
    = range2 rStart (rEnd + 1) /\
  (forall p,
     p ∈ missing_pages (merge_walk (pre ++ (rStart, rEnd) :: post) results)
     <-> rStart <= p <= rEnd).
Proof.
  intros Hc Hpost Hp Hfin.
  set (ranges := pre ++ (rStart, rEnd) :: post) in *.
  assert (Hasc : StronglySorted Z.lt (map fst ranges))
    by (eapply contiguous_ascending; exact Hc).
  assert (Hfind : forall r, r ∈ ranges -> find_range ranges (fst r) = Some r)
    by (intros r Hr; by apply find_range_unique).
  assert (Hasc' : StronglySorted Z.lt (map fst (pre ++ post))).
  { unfold ranges in Hasc. rewrite map_app in Hasc |- *. simpl in Hasc.
    apply StronglySorted_app in Hasc as (Hcross & Hpre & Hrest).
    apply StronglySorted_cons in Hrest as [_ Hpo].
    apply StronglySorted_app. split; [|split]; auto.
    intros x1 x2 H1 H2. apply Hcross; [exact H1|]. by right. }
  pose proof (sorted_starts results _ Hasc' Hp) as Hsorted.
  rewrite map_app in Hsorted.
  apply fmap_app_inv in Hsorted as (items1 & items2 & Hi1 & Hi2 & Hitems).
  apply contiguous_from_app in Hc as [Hcpre Hcrest].
  destruct Hcrest as (HrS & Hle & Hcpost).
  destruct post as [|[s1 e1] post']; [congruence|].
  destruct Hcpost as (Hs1 & Hle1 & Hcpost').
  destruct items2 as [|item items2]; [discriminate|].
  simpl in Hi2. injection Hi2 as Hitem Hi2.
  assert (Hmiss :
    missing_pages (merge_walk ranges results) = range2 rStart (rEnd + 1)).
  { unfold merge_walk in *. rewrite Hitems in *.
    rewrite merge_loop_app in * by reflexivity.
    destruct (stopped (merge_loop ranges merge_init items1)) eqn:Hst1;
      [congruence|].
    destruct (merge_loop_contiguous ranges pre items1 merge_init)
      as [Hm1 He1]; auto.
    { intros r Hr. apply Hfind. unfold ranges. set_solver. }
    set (st1 := merge_loop ranges merge_init items1) in *.
    simpl in Hm1, He1. simpl in Hfin |- *.
    destruct (stopped (merge_step ranges st1 item)) eqn:Hstep; [congruence|].
    destruct (merge_step_running _ _ _ Hstep) as [Hm2 He2].
    pose proof (Hfind (s1, e1)) as Hf1. simpl in Hf1.
    rewrite <- Hitem, Hf1 in He2 by (unfold ranges; set_solver).
    simpl in He2.
    rewrite He1, <- HrS, <- Hitem, Hm1 in Hm2.
    destruct (Z.ltb_spec rStart s1); [|lia].
    destruct (merge_loop_contiguous ranges post' items2
                (merge_step ranges st1 item)) as [Hm3 _]; auto.
    { by rewrite He2. }
    { intros r Hr. apply Hfind. unfold ranges. set_solver. }
    rewrite Hm3, Hm2, Hs1. reflexivity. }
  split; [exact Hmiss|].
  intros p. rewrite Hmiss, elem_of_range2. lia.
Qed.

(** ** The credential pool *)

Section Rotator.

Lemma report_error_fields r key n :
  error_count r !! key = Some n ->
  snd (report_error r key) = Ret tt /\
  error_count (fst (report_error r key)) = <[key := n + 1]> (error_count r) /\
  blacklisted (fst (report_error r key))
    = (if 3 <=? n + 1 then {[key]} ∪ blacklisted r else blacklisted r) /\
  api_keys (fst (report_error r key)) = api_keys r /\
  current_index (fst (report_error r key)) = current_index r.
Proof.
  intros Hn. unfold report_error. rewrite Hn.
  destruct (3 <=? n + 1); simpl; auto.
Qed.

Lemma report_success_fields r key n t :
  error_count r !! key = Some n ->
  let n' := if 0 <? n then Z.max 0 (n - 1) else n in
  error_count (fst (report_success r key t)) = <[key := n']> (error_count r) /\
  blacklisted (fst (report_success r key t))
    = (if n' =? 0 then blacklisted r ∖ {[key]} else blacklisted r) /\
  api_keys (fst (report_success r key t)) = api_keys r /\
  current_index (fst (report_success r key t)) = current_index r.
Proof.
  intros Hn n'. unfold report_success. rewrite Hn. fold n'.
  assert (He : error_count
            (if 0 <? n then set_error_count r (<[key := n']> (error_count r))
             else r) = <[key := n']> (error_count r)).
  { destruct (Z.ltb_spec 0 n); simpl; [reflexivity|].
    subst n'. destruct (Z.ltb_spec 0 n); [lia|].
    symmetry. by apply insert_id. }
  set (r1 := if 0 <? n then _ else r) in *.
  assert (Hb1 : blacklisted r1 = blacklisted r)
    by (subst r1; destruct (0 <? n); reflexivity).
  assert (Hk1 : api_keys r1 = api_keys r /\ current_index r1 = current_index r)
    by (subst r1; destruct (0 <? n); auto).
  set (r2 := if (n' =? 0) && bool_decide (key ∈ blacklisted r1) then _ else r1).
  assert (H2 : error_count r2 = <[key := n']> (error_count r) /\
               blacklisted r2
                 = (if n' =? 0 then blacklisted r ∖ {[key]} else blacklisted r) /\
               api_keys r2 = api_keys r /\ current_index r2 = current_index r).
  { subst r2. destruct (n' =? 0); simpl; [|rewrite <- Hb1; tauto].
    case_bool_decide as Hin; simpl; rewrite ?Hb1 in *; [tauto|].
    repeat split; try tauto. set_solver. }
  destruct H2 as (H2e & H2b & H2k & H2c).
  destruct (success_count r2 !! key); [|simpl; auto].
  destruct (Qlt_le_dec 0 t); [|simpl; auto].
  simpl. destruct (response_times r2 !! key); simpl; auto.
Qed.

End Rotator.

Lemma report_successes_heal (k : nat) : forall r key t,
  error_count r !! key = Some (Z.of_nat (S k)) ->
  let r' := report_successes (S k) r key t in
  error_count r' !! key = Some 0 /\ key ∉ blacklisted r'.
Proof.
  induction k as [|k IH]; intros r key t Hn r'; subst r';
    destruct (report_success_fields r key _ t Hn) as (He & Hb & _);
    cbv zeta in He, Hb; cbn [report_successes].
  - change (Z.of_nat 1) with 1 in He, Hb. simpl in He, Hb.
    rewrite He, Hb, lookup_insert_eq. split; [done|set_solver].
  - apply (IH (fst (report_success r key t)) key t).
    rewrite He, lookup_insert_eq.
    destruct (Z.ltb_spec 0 (Z.of_nat (S (S k)))); f_equal; lia.
Qed.

(** C7. A reported failure adds one to the credential's error counter and
    the credential is blacklisted by it exactly when the counter has reached
    3; a reported success takes one off a positive counter and the
    credential is off the blacklist exactly when the counter is then zero;
    so after as many successes as there were errors the credential is
    available again.  Other credentials are not touched. *)
Theorem circuit_breaker (r : APIRotator) (key : pystr) (n : Z) (t : Q) :
  error_count r !! key = Some n ->
  (snd (report_error r key) = Ret tt /\
   error_count (fst (report_error r key)) !! key = Some (n + 1) /\
   (key ∈ blacklisted (fst (report_error r key))
      <-> key ∈ blacklisted r \/ 3 <= n + 1)) /\
  (0 < n ->
   error_count (fst (report_success r key t)) !! key = Some (n - 1) /\
   (key ∈ blacklisted (fst (report_success r key t))
      <-> key ∈ blacklisted r /\ n - 1 <> 0)) /\
  (0 < n ->
   let healed := report_successes (Z.to_nat n) r key t in
   error_count healed !! key = Some 0 /\ key ∉ blacklisted healed) /\
  (forall other, other <> key ->
   error_count (fst (report_error r key)) !! other = error_count r !! other /\
   error_count (fst (report_success r key t)) !! other
     = error_count r !! other /\
   (other ∈ blacklisted (fst (report_error r key)) <-> other ∈ blacklisted r) /\
   (other ∈ blacklisted (fst (report_success r key t))
      <-> other ∈ blacklisted r)).
Proof.
  intros Hn.
  destruct (report_error_fields r key n Hn) as (Hret & Hee & Heb & _).
  destruct (report_success_fields r key n t Hn) as (Hse & Hsb & _).
  cbv zeta in Hse, Hsb.
  split; [|split; [|split]].
  - split; [exact Hret|]. rewrite Hee, Heb, lookup_insert_eq. split; [done|].
    destruct (Z.leb_spec 3 (n + 1)); set_solver by lia.
  - intros Hpos. rewrite Hse, Hsb, lookup_insert_eq.
    destruct (Z.ltb_spec 0 n); [|lia].
    rewrite Z.max_r by lia. split; [done|].
    destruct (Z.eqb_spec (n - 1) 0); set_solver by lia.
  - intros Hpos healed. subst healed.
    destruct (Z.to_nat n) as [|k] eqn:Hk; [lia|].
    apply report_successes_heal. rewrite Hn. f_equal. lia.
  - intros other Hne. rewrite Hee, Hse, Heb, Hsb.
    rewrite !lookup_insert_ne by done.
    repeat split; auto; try (destruct (3 <=? n + 1); set_solver);
      try (destruct (_ =? 0); set_solver).
Qed.

Section Acquire.

Lemma index_of_lookup l x i :
  index_of l x = Some i -> 0 <= i /\ l !! Z.to_nat i = Some x.
Proof.
  revert i. induction l as [|y l IH]; intros i; simpl; [discriminate|].
  destruct (decide (y = x)) as [->|Hne].
  - intros [= <-]. split; [lia|reflexivity].
  - destruct (index_of l x) as [j|]; [|discriminate].
    intros [= <-]. destruct (IH j eq_refl) as [Hj Hl]. split; [lia|].
    rewrite Z2Nat.inj_succ by lia. exact Hl.
Qed.

Lemma index_of_elem l x : x ∈ l -> is_Some (index_of l x).
Proof.
  induction l as [|y l IH]; intros Hx; [by apply elem_of_nil in Hx|].
  simpl. destruct (decide (y = x)); [eauto|].
  apply elem_of_cons in Hx as [->|Hx]; [done|].
  destruct (IH Hx) as [j ->]. simpl. eauto.
Qed.

Lemma index_of_NoDup l x (i : nat) :
  NoDup l -> l !! i = Some x -> index_of l x = Some (Z.of_nat i).
Proof.
  revert i. induction l as [|y l IH]; intros i Hnd Hl; [discriminate|].
  apply NoDup_cons in Hnd as [Hy Hnd]. simpl.
  destruct i as [|i]; simpl in Hl.
  - injection Hl as ->. by rewrite decide_True.
  - rewrite decide_False.
    + rewrite (IH i Hnd Hl). simpl. f_equal. lia.
    + intros ->. apply Hy. eapply list_elem_of_lookup_2. exact Hl.
Qed.

Lemma getitem_nonneg {A} (l : list A) i :
  0 <= i -> getitem l i = l !! Z.to_nat i.
Proof. intros Hi. unfold getitem. destruct (Z.ltb_spec i 0); [lia|done]. Qed.

Lemma find_next_ret fuel n current available next i :
  find_next fuel n current available next = Ret i -> i ∈ available.
Proof.
  revert next. induction fuel as [|fuel IH]; intros next; simpl; [discriminate|].
  case_bool_decide as Hin; [by intros [= <-]|].
  destruct (_ =? current).
  - destruct available as [|first rest]; [discriminate|].
    intros [= <-]. by left.
  - apply IH.
Qed.

Lemma find_next_no_raise fuel n current available next e :
  available <> [] -> find_next fuel n current available next <> Raise e.
Proof.
  intros Hne. revert next.
  induction fuel as [|fuel IH]; intros next; simpl; [discriminate|].
  case_bool_decide; [discriminate|].
  destruct (_ =? current); [|apply IH].
  destruct available; [done|discriminate].
Qed.

Lemma find_next_total fuel n current available a : forall next,
  0 < n -> a ∈ available -> 0 <= a < n -> 0 <= next < n ->
  (a - next) mod n < Z.of_nat fuel ->
  find_next fuel n current available next <> Diverge.
Proof.
  induction fuel as [|fuel IH]; intros next Hn Ha Har Hnr Hd; simpl.
  - pose proof (Z.mod_pos_bound (a - next) n Hn). lia.
  - case_bool_decide as Hin; [discriminate|].
    assert (Hne : a <> next) by (intros ->; done).
    destruct (_ =? current); [destruct available; discriminate|].
    apply IH; auto; [apply Z.mod_pos_bound; lia|].
    assert (Hstep : (a - (next + 1) mod n) mod n = (a - next) mod n - 1).
    { destruct (Z_lt_le_dec (next + 1) n) as [Hlt|Hge].
      - rewrite (Z.mod_small (next + 1) n) by lia.
        destruct (Z_lt_le_dec next a).
        + rewrite !Z.mod_small by lia. lia.
        + rewrite <- (Z_mod_plus_full (a - (next + 1)) 1 n).
          rewrite <- (Z_mod_plus_full (a - next) 1 n).
          rewrite !Z.mod_small by lia. lia.
      - replace (next + 1) with n by lia. rewrite Z.mod_same by lia.
        rewrite <- (Z_mod_plus_full (a - next) 1 n).
        rewrite !Z.mod_small by lia. lia. }
    lia.
Qed.

Lemma find_next_start fuel n current available a next :
  0 < n -> a ∈ available -> 0 <= a < n -> n <= Z.of_nat fuel ->
  find_next (S fuel) n current available next <> Diverge.
Proof.
  intros Hn Ha Har Hf. simpl.
  case_bool_decide; [discriminate|].
  destruct (_ =? current); [destruct available; discriminate|].
  apply (find_next_total fuel n current available a); auto.
  - apply Z.mod_pos_bound; lia.
  - pose proof (Z.mod_pos_bound (a - (next + 1) mod n) n Hn). lia.
Qed.

Lemma mapM_index_of keys available :
  available ⊆ keys ->
  exists indices, mapM (index_of keys) available = Some indices /\
    Forall2 (fun key i => index_of keys key = Some i) available indices.
Proof.
  intros Hsub.
  assert (Hall : Forall (fun key => is_Some (index_of keys key)) available).
  { apply Forall_forall. intros key Hk. apply index_of_elem, Hsub, Hk. }
  apply mapM_is_Some in Hall as [indices Hm].
  exists indices. split; [exact Hm|]. by apply mapM_Some.
Qed.

(** The key chosen by [select_key] is one of the available keys. *)
Lemma select_key_available r available selected index :
  select_key r available = Ret (selected, index) -> selected ∈ available.
Proof.
  unfold select_key.
  assert (Hgen :
    match mapM (index_of (api_keys r)) available with
    | Some available_indices =>
      match find_next (S (length (api_keys r))) (len (api_keys r))
              (current_index r) available_indices (current_index r) with
      | Ret next_index =>
        match getitem (api_keys r) next_index with
        | Some selected_key =>
          Ret (selected_key, (next_index + 1) mod len (api_keys r))
        | None => Raise IndexError
        end
      | Raise e => Raise e
      | Diverge => Diverge
      end
    | None => Raise (ValueError (Py.lit "x not in list"))
    end = Ret (selected, index) -> selected ∈ available).
  { destruct (mapM _ available) as [indices|] eqn:Hm; [|discriminate].
    apply mapM_Some in Hm.
    destruct (find_next _ _ _ _ _) as [next| |] eqn:Hf; try discriminate.
    apply find_next_ret in Hf.
    destruct (getitem (api_keys r) next) as [sel|] eqn:Hg; [|discriminate].
    intros [= <- <-].
    apply list_elem_of_lookup in Hf as [j Hj].
    destruct (Forall2_lookup_r _ _ _ _ _ Hm Hj) as (key & Hkey & Hidx).
    apply index_of_lookup in Hidx as [Hpos Hl].
    rewrite getitem_nonneg in Hg by exact Hpos.
    assert (sel = key) by congruence. subst sel.
    eapply list_elem_of_lookup_2. exact Hkey. }
  destruct available as [|k [|k2 rest]]; [exact Hgen| |exact Hgen].
  intros [= <- <-]. by left.
Qed.

Lemma available_keys_spec r key :
  key ∈ available_keys r <-> key ∈ api_keys r /\ key ∉ blacklisted r.
Proof. unfold available_keys. rewrite list_elem_of_filter. tauto. Qed.

Lemma get_next_client_blacklist r now :
  blacklisted (fst (get_next_client r now))
    = match api_keys r, available_keys r with
      | _ :: _, [] => ∅
      | _, _ => blacklisted r
      end /\
  error_count (fst (get_next_client r now))
    = match api_keys r, available_keys r with
      | _ :: _, [] => dict_of_keys (api_keys r) 0
      | _, _ => error_count r
      end.
Proof.
  unfold get_next_client.
  destruct (api_keys r) as [|k0 ks] eqn:Hk; [simpl; auto|].
  destruct (available_keys r) as [|a avail] eqn:Ha.
  - destruct (select_key _ _) as [[sel idx]| |]; simpl; auto.
    destruct (usage_count r !! sel); simpl; auto.
    destruct (clients r !! sel); simpl; auto.
  - destruct (select_key _ _) as [[sel idx]| |]; simpl; auto.
    destruct (usage_count r !! sel); simpl; auto.
    destruct (clients r !! sel); simpl; auto.
Qed.

(** What is returned is an available key: never a blacklisted one. *)
Lemma get_next_client_safe r now r' client key :
  get_next_client r now = (r', Ret (client, key)) ->
  key ∈ api_keys r /\ (key ∉ blacklisted r') /\ clients r !! key = Some client.
Proof.
  intros Hget.
  pose proof (get_next_client_blacklist r now) as [Hb _].
  rewrite Hget in Hb. simpl in Hb.
  unfold get_next_client in Hget.
  destruct (api_keys r) as [|k0 ks] eqn:Hk; [discriminate|].
  destruct (available_keys r) as [|a avail] eqn:Ha.
  - destruct (select_key _ _) as [[sel idx]| |] eqn:Hsel; try discriminate.
    apply select_key_available in Hsel.
    simpl in Hget.
    destruct (usage_count r !! sel); [|discriminate]. simpl in Hget.
    destruct (clients r !! sel) eqn:Hc; [|discriminate].
    injection Hget as <- <- <-. rewrite Hb. split; [done|]. split; [set_solver|done].
  - destruct (select_key _ _) as [[sel idx]| |] eqn:Hsel; try discriminate.
    apply select_key_available in Hsel. rewrite <- Ha in Hsel.
    apply available_keys_spec in Hsel as [Hin Hnb]. rewrite Hk in Hin.
    simpl in Hget.
    destruct (usage_count r !! sel); [|discriminate]. simpl in Hget.
    destruct (clients r !! sel) eqn:Hc; [|discriminate].
    injection Hget as <- <- <-. rewrite Hb. auto.
Qed.

Lemma select_key_total r available :
  available <> [] -> available ⊆ api_keys r ->
  exists selected index, select_key r available = Ret (selected, index).
Proof.
  intros Hne Hsub. unfold select_key.
  destruct (mapM_index_of (api_keys r) available Hsub) as (indices & Hm & Hf).
  rewrite Hm.
  destruct available as [|k [|k2 rest]]; [done|eauto|].
  destruct indices as [|a indices]; [by apply Forall2_nil_inv_r in Hf|].
  assert (Hrange : forall i, i ∈ a :: indices ->
            0 <= i < len (api_keys r) /\ is_Some (getitem (api_keys r) i)).
  { intros i Hi. apply list_elem_of_lookup in Hi as [j Hj].
    destruct (Forall2_lookup_r _ _ _ _ _ Hf Hj) as (key & _ & Hidx).
    apply index_of_lookup in Hidx as [Hpos Hl].
    rewrite getitem_nonneg by exact Hpos. split; [|eauto].
    apply lookup_lt_Some in Hl. unfold Py.len. lia. }
  destruct (find_next _ _ _ _ _) as [next|e|] eqn:Hfn.
  - apply find_next_ret in Hfn.
    destruct (Hrange next Hfn) as [_ [sel ->]]. eauto.
  - by apply find_next_no_raise in Hfn.
  - exfalso. revert Hfn.
    destruct (Hrange a ltac:(by left)) as [Ha _].
    apply (find_next_start _ _ _ _ a); [lia|by left|exact Ha|].
    unfold Py.len. lia.
Qed.

Lemma available_keys_subseteq r : available_keys r ⊆ api_keys r.
Proof. intros key Hk. by apply available_keys_spec in Hk as [? _]. Qed.

(** With counters and a client for every key, a key is returned. *)
Lemma get_next_client_total r now :
  api_keys r <> [] ->
  (forall key, key ∈ api_keys r ->
     is_Some (usage_count r !! key) /\ is_Some (clients r !! key)) ->
  exists client key, snd (get_next_client r now) = Ret (client, key).
Proof.
  intros Hne Hwf. unfold get_next_client.
  destruct (api_keys r) as [|k0 ks] eqn:Hk; [done|].
  destruct (available_keys r) as [|a avail] eqn:Ha.
  - destruct (select_key_total
                (set_error_count (set_blacklisted r ∅)
                   (dict_of_keys (k0 :: ks) 0)) (k0 :: ks))
      as (sel & idx & Hsel); [done|simpl; by rewrite Hk|].
    pose proof Hsel as Hin. apply select_key_available in Hin.
    rewrite Hsel. simpl.
    destruct (Hwf sel Hin) as [[u ->] [c Hc]]. simpl. rewrite Hc. simpl. eauto.
  - destruct (select_key_total r (a :: avail)) as (sel & idx & Hsel);
      [done|rewrite <- Ha; apply available_keys_subseteq|].
    pose proof Hsel as Hin. apply select_key_available in Hin.
    rewrite <- Ha in Hin. apply available_keys_subseteq in Hin.
    rewrite Hk in Hin. rewrite Hsel. simpl.
    destruct (Hwf sel Hin) as [[u ->] [c Hc]]. simpl. rewrite Hc. simpl. eauto.
Qed.

Lemma all_blacklisted_none_available r :
  (forall key, key ∈ api_keys r -> key ∈ blacklisted r) ->
  available_keys r = [].
Proof.
  intros Hall. destruct (available_keys r) as [|a avail] eqn:Ha; [done|].
  assert (Hin : a ∈ available_keys r) by (rewrite Ha; by left).
  apply available_keys_spec in Hin as [Hk Hnb]. by apply Hall in Hk.
Qed.

(** When every key is a candidate, the key under the cursor is chosen. *)
Lemma select_key_cursor r key :
  NoDup (api_keys r) ->
  0 <= current_index r < len (api_keys r) ->
  getitem (api_keys r) (current_index r) = Some key ->
  exists index, select_key r (api_keys r) = Ret (key, index).
Proof.
  intros Hnd Hcur Hget. unfold select_key.
  rewrite getitem_nonneg in Hget by lia.
  destruct (mapM_index_of (api_keys r) (api_keys r)) as (indices & Hm & Hf);
    [done|].
  rewrite Hm.
  destruct (api_keys r) as [|k [|k2 rest]] eqn:Hk; [discriminate| |].
  - unfold Py.len in Hcur. simpl in Hcur.
    replace (current_index r) with 0 in * by lia.
    simpl in Hget. injection Hget as ->. eauto.
  - rewrite <- Hk in *.
    assert (Hin : current_index r ∈ indices).
    { destruct (Forall2_lookup_l _ _ _ _ _ Hf Hget) as (i & Hi & Hidx).
      rewrite (index_of_NoDup _ _ _ Hnd Hget) in Hidx.
      injection Hidx as <-. rewrite Z2Nat.id in Hi by lia.
      eapply list_elem_of_lookup_2. exact Hi. }
    cbn [find_next]. rewrite bool_decide_true by exact Hin.
    rewrite getitem_nonneg by lia. rewrite Hget. eauto.
Qed.

End Acquire.

(** C8 (amended). A pool with at least one credential hands out one of
    its credentials, and one that is not blacklisted: while some credential
    is off the blacklist, the credential handed out was not blacklisted when
    the call was made, and the call changes neither the blacklist nor the
    error counters.  A credential is handed out whenever every key has its
    counters and its client.  When every credential is blacklisted, the call
    empties the blacklist, resets all error counters, and hands out the
    credential under the rotation cursor. *)
Theorem acquire_never_blacklisted (r : APIRotator) (now : Q) :
  api_keys r <> [] ->
  (forall r' client key,
     get_next_client r now = (r', Ret (client, key)) ->
     key ∈ api_keys r /\ (key ∉ blacklisted r') /\
     ((exists free, free ∈ api_keys r /\ free ∉ blacklisted r) ->
      (key ∉ blacklisted r) /\
      blacklisted r' = blacklisted r /\ error_count r' = error_count r)) /\
  ((forall key, key ∈ api_keys r ->
      is_Some (usage_count r !! key) /\ is_Some (clients r !! key)) ->
   exists client key, snd (get_next_client r now) = Ret (client, key)) /\
  ((forall key, key ∈ api_keys r -> key ∈ blacklisted r) ->
   blacklisted (fst (get_next_client r now)) = ∅ /\
   error_count (fst (get_next_client r now)) = dict_of_keys (api_keys r) 0 /\
   (forall key client,
      NoDup (api_keys r) ->
      0 <= current_index r < len (api_keys r) ->
      getitem (api_keys r) (current_index r) = Some key ->
      clients r !! key = Some client ->
      is_Some (usage_count r !! key) ->
      snd (get_next_client r now) = Ret (client, key))).
Proof.
  intros Hne. split; [|split].
  - intros r' client key Hget.
    pose proof (get_next_client_blacklist r now) as [Hb He].
    rewrite Hget in Hb, He. cbn [fst] in Hb, He.
    apply get_next_client_safe in Hget as (Hin & Hfree & _).
    split; [exact Hin|]. split; [exact Hfree|].
    intros (free & Hfin & Hffree).
    assert (Hav : free ∈ available_keys r) by by apply available_keys_spec.
    destruct (api_keys r) as [|k0 ks]; [done|].
    destruct (available_keys r) as [|a0 rest]; [by apply elem_of_nil in Hav|].
    rewrite <- Hb. auto.
  - by apply get_next_client_total.
  - intros Hall.
    pose proof (all_blacklisted_none_available r Hall) as Hnone.
    destruct (get_next_client_blacklist r now) as [Hb He].
    rewrite Hnone in Hb, He.
    destruct (api_keys r) as [|k0 ks] eqn:Hk; [done|].
    split; [exact Hb|]. split; [exact He|].
    intros key client Hnd Hcur Hget Hclient [u Hu].
    unfold get_next_client. rewrite Hk, Hnone. rewrite <- Hk in *.
    set (r1 := set_error_count _ _).
    destruct (select_key_cursor r1 key) as [idx Hsel]; auto.
    change (api_keys r1) with (api_keys r) in Hsel.
    rewrite Hsel. simpl. rewrite Hu. simpl. rewrite Hclient. reflexivity.
Qed.

(** ** Insertion-ordered dictionaries *)

Section DictProps.
Context {K V : Type} `{EqDecision K}.
Implicit Types (d : list (K * V)) (k : K) (v : V).

Lemma dict_get_elem d k v : PyDict.get d k = Some v -> (k, v) ∈ d.
Proof.
  induction d as [|[k' v'] d IH]; simpl; [discriminate|].
  destruct (decide (k' = k)) as [->|Hne].
  - intros [= ->]. by left.
  - intros Hg. right. by apply IH.
Qed.

Lemma dict_get_set_eq d k v : PyDict.get (PyDict.set d k v) k = Some v.
Proof.
  induction d as [|[k' v'] d IH]; simpl.
  - by rewrite decide_True.
  - destruct (decide (k' = k)) as [->|Hne]; simpl.
    + by rewrite decide_True.
    + by rewrite decide_False.
Qed.




Lemma dict_set_elem d k v k0 v0 :
  (k0, v0) ∈ PyDict.set d k v -> (k0 = k /\ v0 = v) \/ (k0, v0) ∈ d.
Proof.
  induction d as [|[k' v'] d IH]; simpl.
  - intros Hin. apply list_elem_of_singleton in Hin. injection Hin as -> ->. auto.
  - destruct (decide (k' = k)) as [->|Hne]; intros Hin;
      apply elem_of_cons in Hin as [Heq|Hin].
    + injection Heq as -> ->. auto.
    + right. by right.
    + injection Heq as -> ->. right. by left.
    + destruct (IH Hin) as [?|?]; [auto|]. right. by right.
Qed.


Lemma dict_del_elem d k k0 v0 : (k0, v0) ∈ PyDict.del d k -> (k0, v0) ∈ d.
Proof.
  induction d as [|[k' v'] d IH]; simpl; [done|].
  destruct (decide (k' = k)); intros Hin; [by right|].
  apply elem_of_cons in Hin as [->|Hin]; [by left|]. right. by apply IH.
Qed.



Lemma dict_del_keys d k x :
  NoDup (PyDict.keys d) ->
  x ∈ PyDict.keys (PyDict.del d k) <-> x ∈ PyDict.keys d /\ x <> k.
Proof.
  unfold PyDict.keys. induction d as [|[k' v'] d IH]; simpl; intros Hnd.
  - set_solver.
  - apply NoDup_cons in Hnd as [Hk Hnd].
    destruct (decide (k' = k)) as [->|Hne]; simpl.
    + split; [|set_solver]. intros Hx. split; [by right|]. by intros ->.
    + rewrite !elem_of_cons, IH by done. split; [|tauto].
      intros [->|[? ?]]; auto.
Qed.

Lemma dict_del_NoDup d k :
  NoDup (PyDict.keys d) -> NoDup (PyDict.keys (PyDict.del d k)).
Proof.
  unfold PyDict.keys. induction d as [|[k' v'] d IH]; simpl; intros Hnd; [done|].
  pose proof Hnd as Hnd'. apply NoDup_cons in Hnd as [Hk Hnd].
  destruct (decide (k' = k)) as [->|Hne]; simpl; [done|].
  apply NoDup_cons. split; [|by apply IH].
  intros Hin. apply (dict_del_keys d k k' Hnd) in Hin as [? _]. done.
Qed.

Lemma dict_dels_elem d ks k0 v0 :
  (k0, v0) ∈ foldl PyDict.del d ks -> (k0, v0) ∈ d.
Proof.
  revert d. induction ks as [|k ks IH]; intros d; simpl; [done|].
  intros Hin. apply IH in Hin. by apply dict_del_elem in Hin.
Qed.



Lemma dict_dels_keys d ks x :
  NoDup (PyDict.keys d) ->
  x ∈ PyDict.keys (foldl PyDict.del d ks) <-> x ∈ PyDict.keys d /\ x ∉ ks.
Proof.
  revert d. induction ks as [|k ks IH]; intros d Hnd; simpl.
  - set_solver.
  - rewrite IH by (by apply dict_del_NoDup).
    rewrite dict_del_keys by done. set_solver.
Qed.

End DictProps.


(** ** Eviction from the memory tier *)

Section Eviction.
Context {A : Type} (key : A -> Q).





End Eviction.

Section EvictionProps.
Implicit Types m : list (pystr * CacheEntry).








End EvictionProps.

(** ** The tiered cache *)

Section CacheProps.
Context `{PyRuntime}.

Lemma update_cache_size_frame fuel : forall c,
  memory_cache (_update_cache_size fuel c) = memory_cache c /\
  max_memory_items (_update_cache_size fuel c) = max_memory_items c /\
  max_age_hours (_update_cache_size fuel c) = max_age_hours c /\
  redis_store (_update_cache_size fuel c) = redis_store c /\
  (forall k cf, (k, cf) ∈ disk_files (_update_cache_size fuel c) ->
                (k, cf) ∈ disk_files c).
Proof.
  induction fuel as [|fuel IH]; intros c; simpl.
  - destruct (Qltb _ _); [|simpl; auto].
    destruct (cleanup_victims _ _ _); simpl; auto.
  - destruct (Qltb _ _); [|simpl; auto].
    destruct (cleanup_victims _ _ _) as [|v vs] eqn:Hv; [simpl; auto|].
    match goal with |- context [_update_cache_size fuel ?c'] =>
      destruct (IH c') as (Hm & Hx & Ha & Hr & Hd) end.
    rewrite Hm, Hx, Ha, Hr. simpl. repeat split; auto.
    intros k cf Hin. apply Hd in Hin. simpl in Hin.
    eapply (dict_dels_elem _ (v :: vs)). exact Hin.
Qed.

Lemma redis_setex_frame c env key e :
  memory_cache (redis_setex c env key e) = memory_cache c /\
  max_memory_items (redis_setex c env key e) = max_memory_items c /\
  max_age_hours (redis_setex c env key e) = max_age_hours c /\
  disk_files (redis_setex c env key e) = disk_files c.
Proof.
  unfold redis_setex. destruct (redis_store c); [|auto].
  destruct (_ && _); simpl; auto.
Qed.

(** What [set] leaves in the memory tier. *)
Lemma set_memory_cache c env file_path text prefix c1 :
  set c env file_path text prefix = (c1, true) ->
  exists f,
    files env !! file_path = Some f /\
    max_memory_items c1 = max_memory_items c /\
    max_age_hours c1 = max_age_hours c /\
    memory_cache c1
      = PyDict.set
          (if max_memory_items c <=? len (memory_cache c)
           then _evict_memory_cache (memory_cache c) else memory_cache c)
          (cache_key_of env file_path prefix)
          {| content := text;
             file_hash := _get_file_hash (files env) file_path;
             file_size := st_size f; file_mtime := f_mtime f;
             cache_time := now env; access_count := 1;
             last_access := now env |}.
Proof.
  unfold set. cbv zeta.
  destruct (files env !! file_path) as [f|]; [|discriminate].
  match goal with |- (_update_cache_size ?n ?c', true) = _ -> _ =>
    generalize (update_cache_size_frame n c');
    generalize (_update_cache_size n c') end.
  intros c2 (Hm & Hx & Ha & _) [= <-]. exists f. split; [done|].
  rewrite Hm, Hx, Ha. clear Hm Hx Ha.
  match goal with |- context [redis_setex ?c' env ?k ?e] =>
    destruct (redis_setex_frame c' env k e) as (Hm & Hx & Ha & _) end.
  destruct (disk_ok env); simpl; rewrite Hm, Hx, Ha; simpl; auto.
Qed.


Lemma promote_frame c key e :
  max_memory_items (promote c key e) = max_memory_items c /\
  max_age_hours (promote c key e) = max_age_hours c /\
  redis_store (promote c key e) = redis_store c /\
  disk_files (promote c key e) = disk_files c.
Proof. unfold promote. destruct (_ <? _); simpl; auto. Qed.










(** *** Hits are backed by a valid entry *)

Lemma get_disk_sound c env file_path key x :
  snd (get_disk c env file_path key) = Some x ->
  exists cf e,
    (key, cf) ∈ disk_files c /\ cf_entry cf = Some e /\
    content e = x /\ entry_valid c env file_path e = true.
Proof.
  unfold get_disk, miss.
  destruct (disk_ok env); simpl; [|discriminate].
  destruct (PyDict.get (disk_files c) key) as [cf|] eqn:Hg; simpl;
    [|discriminate].
  destruct (cf_entry cf) as [e|] eqn:He; simpl; [|discriminate].
  destruct (entry_valid c env file_path e) eqn:Hv; simpl; [|discriminate].
  intros [= <-]. exists cf, e. split; [by apply dict_get_elem|]. auto.
Qed.

Lemma get_redis_sound c env file_path key x :
  snd (get_redis c env file_path key) = Some x ->
  exists e,
    ((exists store expires,
        redis_store c = Some store /\ store !! key = Some (e, expires)) \/
     (exists cf, (key, cf) ∈ disk_files c /\ cf_entry cf = Some e)) /\
    content e = x /\ entry_valid c env file_path e = true.
Proof.
  assert (Hdisk : forall c', disk_files c' = disk_files c ->
            max_age_hours c' = max_age_hours c ->
            snd (get_disk c' env file_path key) = Some x ->
            exists e,
              ((exists store expires,
                  redis_store c = Some store /\
                  store !! key = Some (e, expires)) \/
               (exists cf, (key, cf) ∈ disk_files c /\ cf_entry cf = Some e)) /\
              content e = x /\ entry_valid c env file_path e = true).
  { intros c' Hd Ha Hx.
    apply get_disk_sound in Hx as (cf & e & Hin & He & Hc & Hv).
    exists e. rewrite Hd in Hin. split; [right; eauto|]. split; [done|].
    unfold entry_valid in *. by rewrite <- Ha. }
  unfold get_redis.
  destruct (redis_store c) as [store|] eqn:Hr; [|by apply Hdisk].
  destruct (redis_ok env); simpl; [|by apply Hdisk].
  destruct (store !! key) as [[e expires]|] eqn:Hs; [|by apply Hdisk].
  destruct (Qle_bool expires (now env)); [by apply Hdisk|].
  destruct (entry_valid c env file_path e) eqn:Hv; [|by apply Hdisk].
  simpl. intros [= <-]. exists e. split; [left; eauto|]. auto.
Qed.

Lemma get_sound c env file_path prefix x :
  snd (get c env file_path prefix) = Some x ->
  exists e,
    cached_in c (cache_key_of env file_path prefix) e /\
    content e = x /\ entry_valid c env file_path e = true.
Proof.
  assert (Hredis : forall c', disk_files c' = disk_files c ->
            redis_store c' = redis_store c ->
            max_age_hours c' = max_age_hours c ->
            snd (get_redis c' env file_path
                   (cache_key_of env file_path prefix)) = Some x ->
            exists e,
              cached_in c (cache_key_of env file_path prefix) e /\
              content e = x /\ entry_valid c env file_path e = true).
  { intros c' Hd Hr Ha Hx.
    apply get_redis_sound in Hx as (e & Hin & Hc & Hv).
    exists e. rewrite Hd, Hr in Hin. split; [by right|]. split; [done|].
    unfold entry_valid in *. by rewrite <- Ha. }
  unfold get.
  destruct (PyDict.get (memory_cache c) _) as [e|] eqn:Hg; [|by apply Hredis].
  destruct (entry_valid c env file_path e) eqn:Hv; [|by apply Hredis].
  simpl. intros [= <-]. exists e. split; [|done].
  left. by apply dict_get_elem.
Qed.

(** A valid entry was recorded for the file as it is now. *)
Lemma entry_valid_current c env file_path e :
  entry_valid c env file_path e = true ->
  exists f,
    files env !! file_path = Some f /\
    file_size e = st_size f /\ (file_mtime e == f_mtime f)%Q.
Proof.
  unfold entry_valid, is_file_changed.
  destruct (files env !! file_path) as [f|]; [|by rewrite andb_false_r].
  intros Hv. apply andb_true_iff in Hv as [_ Hc].
  apply negb_true_iff, orb_false_iff in Hc as [Hs Hm].
  apply negb_false_iff in Hs, Hm.
  apply Z.eqb_eq in Hs. apply Qeq_bool_iff in Hm.
  exists f. split; [done|]. split; [done|]. by symmetry.
Qed.

(** What [set] leaves in the two lower tiers. *)
Lemma set_lower_tiers c env file_path text prefix c1 :
  set c env file_path text prefix = (c1, true) ->
  exists f,
    files env !! file_path = Some f /\
    let entry :=
      {| content := text;
         file_hash := _get_file_hash (files env) file_path;
         file_size := st_size f; file_mtime := f_mtime f;
         cache_time := now env; access_count := 1;
         last_access := now env |} in
    (forall store e expires,
       redis_store c1 = Some store ->
       store !! cache_key_of env file_path prefix = Some (e, expires) ->
       e = entry \/
       exists store0, redis_store c = Some store0 /\
         store0 !! cache_key_of env file_path prefix = Some (e, expires)) /\
    (forall store e expires k,
       redis_store c1 = Some store -> store !! k = Some (e, expires) ->
       k <> cache_key_of env file_path prefix ->
       exists store0, redis_store c = Some store0 /\
         store0 !! k = Some (e, expires)) /\
    (forall k cf e,
       (k, cf) ∈ disk_files c1 -> cf_entry cf = Some e ->
       e = entry \/ (k, cf) ∈ disk_files c).
Proof.
  unfold set. cbv zeta.
  destruct (files env !! file_path) as [f|]; [|discriminate].
  match goal with |- (_update_cache_size ?n ?c', true) = _ -> _ =>
    generalize (update_cache_size_frame n c');
    generalize (_update_cache_size n c') end.
  intros c2 (_ & _ & _ & Hr & Hd) [= <-]. exists f. split; [done|].
  fold (cache_key_of env file_path prefix) in *.
  set (entry := {| content := text |}) in *.
  set (key := cache_key_of env file_path prefix) in *.
  set (c0 := set_memory c _) in *.
  assert (Hr0 : redis_store c0 = redis_store c) by reflexivity.
  assert (Hd0 : disk_files c0 = disk_files c) by reflexivity.
  clearbody c0.
  assert (Hrs : redis_store c2 = redis_store (redis_setex c0 env key entry)).
  { rewrite Hr. by destruct (disk_ok env). }
  assert (Hds : forall k cf, (k, cf) ∈ disk_files c2 ->
            (k, cf) ∈ disk_files c \/
            (k, cf) = (key, {| cf_entry := Some entry;
                               cf_size := pickle_size env;
                               cf_mtime := now env |})).
  { intros k cf Hin. apply Hd in Hin.
    destruct (redis_setex_frame c0 env key entry) as (_ & _ & _ & Hdf).
    destruct (disk_ok env); simpl in Hin; rewrite Hdf, Hd0 in Hin; [|auto].
    apply dict_set_elem in Hin as [[-> ->]|Hin]; auto. }
  clear Hr Hd. rewrite Hrs. unfold redis_setex. rewrite Hr0.
  split; [|split].
  - intros store e expires Hst Hl.
    destruct (redis_store c) as [store0|]; [|congruence].
    destruct (_ && _); simpl in Hst.
    + injection Hst as <-.
      rewrite lookup_insert_eq in Hl. injection Hl as <- <-. auto.
    + right. exists store0. split; [done|]. congruence.
  - intros store e expires k Hst Hl Hne.
    destruct (redis_store c) as [store0|]; [|congruence].
    destruct (_ && _); simpl in Hst.
    + injection Hst as <-. rewrite lookup_insert_ne in Hl by done. eauto.
    + exists store0. split; [done|]. congruence.
  - intros k cf e Hin He.
    destruct (Hds k cf Hin) as [?|Heq]; [auto|].
    injection Heq as -> ->. simpl in He. injection He as <-. auto.
Qed.

End CacheProps.

(** C6 (amended). After a successful [set], a [get] for the same file and
    prefix returns the stored content when the file is unchanged (same
    bytes, size and modification time) and the entry is not older than the
    maximum age.  Any hit of that [get] is backed by an entry recorded for
    the file's current size and modification time, so after a change of
    size or modification time the entry just stored is never returned; and
    when the cache held nothing before the [set], the [get] is then a
    miss. *)
Theorem cache_round_trip `{PyRuntime}
  (c c1 : SmartCacheManager) (env1 env2 : cache_env)
  (file_path text prefix : pystr) :
  set c env1 file_path text prefix = (c1, true) ->
  (files env2 !! file_path = files env1 !! file_path ->
   (now env2 - now env1 <= inject_Z (max_age_hours c * 3600))%Q ->
   snd (get c1 env2 file_path prefix) = Some text) /\
  (forall x,
     snd (get c1 env2 file_path prefix) = Some x ->
     exists e f,
       cached_in c1 (cache_key_of env2 file_path prefix) e /\
       content e = x /\
       files env2 !! file_path = Some f /\
       file_size e = st_size f /\ (file_mtime e == f_mtime f)%Q) /\
  (forall f1,
     memory_cache c = [] -> disk_files c = [] ->
     redis_store c = None \/ redis_store c = Some ∅ ->
     files env1 !! file_path = Some f1 ->
     (forall f2, files env2 !! file_path = Some f2 ->
        st_size f2 <> st_size f1 \/ ~ (f_mtime f2 == f_mtime f1)%Q) ->
     snd (get c1 env2 file_path prefix) = None).
Proof.
  intros Hset.
  destruct (set_memory_cache _ _ _ _ _ _ Hset) as (f & Hf & Hcap & Hage & Hmem).
  split; [|split].
  - intros Hsame Hfresh.
    assert (Hkey : cache_key_of env2 file_path prefix
                   = cache_key_of env1 file_path prefix).
    { unfold cache_key_of, _get_file_hash. by rewrite Hsame. }
    unfold get. rewrite Hkey, Hmem, dict_get_set_eq.
    set (entry := {| content := text |}).
    assert (Hv : entry_valid c1 env2 file_path entry = true).
    { unfold entry_valid, is_expired, is_file_changed, Qltb.
      rewrite Hsame, Hf, Hage. simpl.
      apply Qle_bool_iff in Hfresh. rewrite Hfresh.
      rewrite Z.eqb_refl. simpl.
      assert (Hq : Qeq_bool (f_mtime f) (f_mtime f) = true)
        by (apply Qeq_bool_iff; reflexivity).
      by rewrite Hq. }
    rewrite Hv. reflexivity.
  - intros x Hx. apply get_sound in Hx as (e & Hin & Hc & Hv).
    apply entry_valid_current in Hv as (f2 & Hf2 & Hs & Hm).
    exists e, f2. auto.
  - intros f1 Hm0 Hd0 Hr0 Hf1 Hchg.
    destruct (snd (get c1 env2 file_path prefix)) as [x|] eqn:Hx; [|done].
    exfalso.
    apply get_sound in Hx as (e & Hin & Hc & Hv).
    apply entry_valid_current in Hv as (f2 & Hf2 & Hs & Hm).
    destruct (set_lower_tiers _ _ _ _ _ _ Hset) as (f' & Hf' & Hr1 & Hr2 & Hd).
    cbv zeta in Hr1, Hr2, Hd.
    assert (f' = f) by congruence. subst f'.
    assert (f1 = f) by congruence. subst f1.
    set (entry := {| content := text |}) in *.
    assert (He : e = entry).
    { destruct Hin as [Hin|[(store & t & Hst & Hl)|(cf & Hin & Hcf)]].
      - rewrite Hmem, Hm0 in Hin.
        destruct (max_memory_items c <=? len (@nil (pystr * CacheEntry)));
          simpl in Hin; apply list_elem_of_singleton in Hin; congruence.
      - destruct (decide (cache_key_of env2 file_path prefix
                          = cache_key_of env1 file_path prefix)) as [Heq|Hne].
        + rewrite Heq in Hl.
          destruct (Hr1 _ _ _ Hst Hl) as [?|(store0 & Hs0 & Hl0)]; [done|].
          destruct Hr0 as [Hr0|Hr0]; rewrite Hr0 in Hs0; [discriminate|].
          injection Hs0 as <-. by rewrite lookup_empty in Hl0.
        + destruct (Hr2 _ _ _ _ Hst Hl Hne) as (store0 & Hs0 & Hl0).
          destruct Hr0 as [Hr0|Hr0]; rewrite Hr0 in Hs0; [discriminate|].
          injection Hs0 as <-. by rewrite lookup_empty in Hl0.
      - destruct (Hd _ _ _ Hin Hcf) as [?|Hin0]; [done|].
        rewrite Hd0 in Hin0. by apply elem_of_nil in Hin0. }
    subst e. simpl in Hs, Hm.
    destruct (Hchg f2 Hf2) as [Hne|Hne]; [congruence|].
    apply Hne. by symmetry.
Qed.


(** ** Retries *)

Section RetryProps.
Context `{PyRuntime}.

Lemma get_next_client_no_diverge r now :
  snd (get_next_client r now) <> Diverge.
Proof.
  unfold get_next_client.
  destruct (api_keys r) as [|k0 ks] eqn:Hk; [discriminate|].
  destruct (available_keys r) as [|a avail] eqn:Ha.
  - destruct (select_key_total
                (set_error_count (set_blacklisted r ∅)
                   (dict_of_keys (k0 :: ks) 0)) (k0 :: ks))
      as (sel & idx & ->); [done|simpl; by rewrite Hk|].
    simpl. destruct (usage_count r !! sel); [|discriminate]. simpl.
    destruct (clients r !! sel); discriminate.
  - destruct (select_key_total r (a :: avail)) as (sel & idx & ->);
      [done|rewrite <- Ha; apply available_keys_subseteq|].
    simpl. destruct (usage_count r !! sel); [|discriminate]. simpl.
    destruct (clients r !! sel); discriminate.
Qed.

Lemma report_success_no_diverge r key t :
  snd (report_success r key t) <> Diverge.
Proof.
  unfold report_success.
  destruct (error_count r !! key); [|discriminate].
  match goal with |- context [success_count ?r2 !! key] =>
    destruct (success_count r2 !! key) end; [|discriminate].
  destruct (Qlt_le_dec 0 t); [|discriminate].
  match goal with |- context [response_times ?r3 !! key] =>
    destruct (response_times r3 !! key) end; discriminate.
Qed.

Section WithEnv.
Context {A : Type} (E : call_env A).

Lemma try_call_spec s :
  snd (try_call E s) <> Diverge /\
  (calls_made s <= calls_made (fst (try_call E s)) <= S (calls_made s))%nat /\
  ((forall n client, exists e, call_func E n client = inl e) ->
   exists e, snd (try_call E s) = Raise e).
Proof.
  unfold try_call.
  pose proof (get_next_client_no_diverge (api_rotator s)
                (clock E (clock_reads s))) as Hnd.
  destruct (get_next_client _ _) as [rot [[client key]|e|]]; simpl in *;
    [|split; [discriminate|split; [lia|eauto]]|done].
  destruct (call_func E (calls_made s) client) as [e|result] eqn:Hcall.
  - simpl. split; [discriminate|]. split; [lia|eauto].
  - match goal with |- context [report_success rot key ?t] =>
      pose proof (report_success_no_diverge rot key t) as Hrs;
      destruct (report_success rot key t) as [rot' [[]|e|]] end;
      simpl in *; try done.
    + split; [discriminate|]. split; [lia|].
      intros Hfail. destruct (Hfail (calls_made s) client) as [e He].
      congruence.
    + split; [discriminate|]. split; [lia|eauto].
Qed.

Lemma handle_error_spec s e attempt :
  snd (handle_error E s e attempt) = Ret tt /\
  calls_made (fst (handle_error E s e attempt)) = calls_made s.
Proof.
  unfold handle_error.
  pose proof (get_next_client_no_diverge (api_rotator s)
                (clock E (clock_reads s))) as Hnd.
  destruct (get_next_client _ _) as [rot [[client key]|e'|]]; simpl in *;
    [| |done]; destruct (classify_error e); simpl; auto.
Qed.

Lemma rotated_loop_spec attempts : forall s last max_retries,
  snd (rotated_loop E attempts s last max_retries) <> Diverge /\
  (calls_made (fst (rotated_loop E attempts s last max_retries))
     <= calls_made s + length attempts)%nat /\
  ((forall n client, exists e, call_func E n client = inl e) ->
   exists e, snd (rotated_loop E attempts s last max_retries) = Raise e).
Proof.
  induction attempts as [|attempt rest IH]; intros s last max_retries.
  - simpl. split; [discriminate|]. split; [lia|eauto].
  - cbn [rotated_loop].
    destruct (try_call_spec s) as (Hnd & Hcalls & Hfail).
    destruct (try_call E s) as [s1 [result|e|]]; simpl in *; [| |done].
    + split; [discriminate|]. split; [lia|].
      intros Hall. destruct (Hfail Hall) as [e He]. discriminate.
    + destruct (handle_error_spec s1 e attempt) as (Hret & Hsame).
      destruct (handle_error E s1 e attempt) as [s2 r]. simpl in *. subst r.
      destruct (IH s2 (Some e) max_retries) as (IHd & IHc & IHf).
      split; [exact IHd|]. split; [lia|exact IHf].
Qed.

Lemma range2_length a b : length (range2 a b) = Z.to_nat (b - a).
Proof. unfold range2. by rewrite length_map, length_seq. Qed.

Lemma rotated_api_call_spec s max_retries :
  snd (_rotated_api_call E s max_retries) <> Diverge /\
  (calls_made (fst (_rotated_api_call E s max_retries))
     <= calls_made s + Z.to_nat max_retries)%nat /\
  ((forall n client, exists e, call_func E n client = inl e) ->
   exists e, snd (_rotated_api_call E s max_retries) = Raise e).
Proof.
  unfold _rotated_api_call.
  destruct (rotated_loop_spec (range2 0 max_retries) s None max_retries)
    as (Hd & Hc & Hf).
  rewrite range2_length, Z.sub_0_r in Hc. auto.
Qed.

End WithEnv.
End RetryProps.

(** C9. A call through the pool invokes the external function at most
    [max_retries] times and, when every invocation fails, ends by raising;
    the extraction of a page range, which allows two attempts, then hands
    an error-marker string to its caller, and in every case it returns a
    string: no exception leaves the task. *)
Theorem retry_ceiling `{PyRuntime} (E : call_env (option pystr))
  (env_get env_set : cache_env) (w : extractor) (pdf_path : pystr)
  (start_page end_page : Z) :
  (forall s max_retries,
     (calls_made (fst (_rotated_api_call E s max_retries))
        <= calls_made s + Z.to_nat max_retries)%nat) /\
  (exists text,
     snd (_extract_single_page_range E env_get env_set w pdf_path
            start_page end_page) = Ret text) /\
  ((forall n client, exists e, call_func E n client = inl e) ->
   snd (get (ex_cache w) env_get pdf_path
          (page_cache_prefix pdf_path start_page end_page)) = None ->
   (exists e,
      snd (_extract_single_page_range E env_get env_set w pdf_path
             start_page end_page)
        = Ret (range_failure start_page end_page
                 (Py.slice_to (exn_str e) 100))) /\
   (calls_made (ex_caller (fst (_extract_single_page_range E env_get env_set
                                  w pdf_path start_page end_page)))
      <= calls_made (ex_caller w) + 2)%nat).
Proof.
  split; [|split].
  - intros s max_retries. apply rotated_api_call_spec.
  - unfold _extract_single_page_range.
    destruct (get _ _ _ _) as [cache [[|c0 cached]|]];
      try (simpl; eauto; fail);
      destruct (rotated_api_call_spec E (ex_caller w) 2) as (Hd & _ & _);
      destruct (_rotated_api_call E (ex_caller w) 2) as [s [response|e|]];
      simpl in *; try done; eauto;
      destruct (strip unicode_space (default [] response)); simpl; eauto.
  - intros Hfail Hmiss. unfold _extract_single_page_range.
    destruct (get _ _ _ _) as [cache cached]. simpl in Hmiss. subst cached.
    destruct (rotated_api_call_spec E (ex_caller w) 2) as (_ & Hc & Hf).
    destruct (Hf Hfail) as [e He].
    destruct (_rotated_api_call E (ex_caller w) 2) as [s r].
    simpl in *. subst r. simpl. split; [eauto|].
    change (Z.to_nat 2) with 2%nat in Hc. exact Hc.
Qed.

(** ** The worker pool *)

Section PoolProps.
Context `{PyRuntime}.

Lemma enumerate_from_ids i page_ranges :
  map task_id (enumerate_from i page_ranges) = seq i (length page_ranges).
Proof.
  revert i. induction page_ranges as [|[s e] rest IH]; intros i; simpl; [done|].
  by rewrite IH.
Qed.

Lemma enumerate_from_lookup i page_ranges id start_page end_page :
  (id, start_page, end_page) ∈ enumerate_from i page_ranges ->
  (i <= id)%nat /\ page_ranges !! (id - i)%nat = Some (start_page, end_page).
Proof.
  revert i. induction page_ranges as [|[s e] rest IH]; intros i; simpl.
  - intros Hin. by apply elem_of_nil in Hin.
  - intros Hin. apply elem_of_cons in Hin as [Heq|Hin].
    + injection Heq as -> -> ->. split; [lia|]. by rewrite Nat.sub_diag.
    + apply IH in Hin as [Hle Hl]. split; [lia|].
      replace (id - i)%nat with (S (id - S i)) by lia. exact Hl.
Qed.

Lemma dict_set_keys_fresh {V} (d : list (nat * V)) k v :
  k ∉ PyDict.keys d -> PyDict.keys (PyDict.set d k v) = PyDict.keys d ++ [k].
Proof.
  unfold PyDict.keys. induction d as [|[k' v'] d IH]; simpl; intros Hk; [done|].
  apply not_elem_of_cons in Hk as [Hne Hk].
  rewrite decide_False by done. simpl. by rewrite IH.
Qed.

Lemma dict_set_keys_present {V} (d : list (nat * V)) k v :
  k ∈ PyDict.keys d -> PyDict.keys (PyDict.set d k v) = PyDict.keys d.
Proof.
  unfold PyDict.keys. induction d as [|[k' v'] d IH]; simpl; intros Hk.
  - by apply elem_of_nil in Hk.
  - destruct (decide (k' = k)) as [->|Hne]; simpl; [done|].
    apply elem_of_cons in Hk as [->|Hk]; [done|]. by rewrite IH.
Qed.

Lemma omap_middle {A B} (f : A -> option B) ws1 w ws2 :
  omap f (ws1 ++ w :: ws2) = omap f ws1 ++ option_list (f w) ++ omap f ws2.
Proof. rewrite omap_app. simpl. by destruct (f w). Qed.

Lemma sum_middle {A} (f : A -> nat) ws1 w ws2 :
  sum_list (map f (ws1 ++ w :: ws2))
    = (sum_list (map f ws1) + f w + sum_list (map f ws2))%nat.
Proof. induction ws1 as [|w1 ws1 IH]; simpl; lia. Qed.

Lemma omap_replicate_idle {B} (f : worker_state -> option B) n k :
  f (Idle k) = None -> omap f (replicate n (Idle k)) = [].
Proof. intros Hf. induction n; simpl; [done|]. by rewrite Hf. Qed.

Lemma owes_replicate_idle n k :
  sum_list (map owes (replicate n (Idle k))) = 0%nat.
Proof. induction n; simpl; auto. Qed.

Lemma elem_of_middle {A} (x w w' : A) ws1 ws2 :
  x ∈ ws1 ++ w' :: ws2 -> x = w' \/ x ∈ ws1 ++ w :: ws2.
Proof. rewrite !elem_of_app, !elem_of_cons. tauto. Qed.

Lemma NoDup_app_disjoint {A} (l1 l2 : list A) x :
  NoDup (l1 ++ l2) -> x ∈ l1 -> x ∈ l2 -> False.
Proof. intros [_ [Hd _]]%NoDup_app Hin1 Hin2. by eapply Hd. Qed.

Lemma taken_NoDup page_ranges taken queue :
  enumerate_from 0 page_ranges = taken ++ queue ->
  NoDup (map task_id taken ++ map task_id queue).
Proof.
  intros Heq. rewrite <- map_app, <- Heq, enumerate_from_ids. apply NoDup_seq.
Qed.

Lemma pool_inv_init b page_ranges api_key_count :
  pool_inv b page_ranges (Z.to_nat (max_workers page_ranges api_key_count))
    (pool_init page_ranges api_key_count).
Proof.
  assert (Hlen : length (enumerate_from 0 page_ranges) = length page_ranges).
  { by rewrite <- (length_map task_id), enumerate_from_ids, length_seq. }
  split; simpl.
  - exists [], []. unfold got_ids, running_ids.
    rewrite !omap_replicate_idle by done. simpl.
    split; [done|]. split; [done|]. split; [set_solver|done].
  - unfold stored_ids. rewrite omap_replicate_idle by done.
    intros id Hin. by apply elem_of_nil in Hin.
  - rewrite owes_replicate_idle, Hlen. lia.
  - apply length_replicate.
  - intros id s text Hin. by apply elem_of_nil in Hin.
  - rewrite omap_replicate_idle by done.
    intros id s e Hin. by apply elem_of_nil in Hin.
  - intros _. rewrite owes_replicate_idle, Hlen.
    split; [lia|]. split; [done|]. split.
    + intros Hin. apply elem_of_replicate in Hin as [? _]. discriminate.
    + intros Hin. apply elem_of_replicate in Hin as [? _]. discriminate.
Qed.

(** A task that a worker has taken and not yet claimed is not among the
    processed tasks, so the duplicate check never fires. *)
Lemma got_not_processed b page_ranges worker_count st ws1 ws2 t n :
  pool_inv b page_ranges worker_count st ->
  workers st = ws1 ++ Got t n :: ws2 ->
  task_id t ∉ processed_tasks st.
Proof.
  intros [(taken & dropped & Henum & Hperm & Hproc & _) _ _ _ _ _ _] Hw Hin.
  pose proof (taken_NoDup _ _ _ Henum) as Hnd.
  apply NoDup_app in Hnd as [Hnd _]. rewrite Hperm in Hnd.
  apply Hproc in Hin.
  apply (NoDup_app_disjoint _ _ (task_id t) Hnd); [|exact Hin].
  rewrite Hw. unfold got_ids. rewrite omap_middle. simpl. set_solver.
Qed.

Ltac elems :=
  repeat first
    [rewrite elem_of_app | rewrite elem_of_cons | rewrite elem_of_nil
    |rewrite elem_of_union | rewrite elem_of_singleton];
  tauto.

Ltac pool_goal :=
  unfold got_ids, running_ids, stored_ids;
  rewrite ?omap_middle, ?sum_middle;
  simpl.

Ltac pool_norm Hw :=
  unfold got_ids, running_ids, stored_ids in *;
  rewrite Hw in *;
  rewrite ?omap_middle, ?sum_middle in *;
  simpl in *.

Lemma pool_step_inv b page_ranges worker_count st st' :
  pool_inv b page_ranges worker_count st -> pool_step b st st' ->
  pool_inv b page_ranges worker_count st'.
Proof.
  intros Hinv Hstep.
  pose proof Hinv as
    [(taken & dropped & Henum & Hperm & Hproc & Hdrop)
       Hsto Hunf Hlen Hstart Hhold Hquiet].
  pose proof (taken_NoDup _ _ _ Henum) as Hnd.
  destruct Hstep as
    [st ws1 ws2 n t queue Hq Hw
    |st ws1 ws2 n t Hw Hfresh
    |st ws1 ws2 n t Hw Hold
    |st ws1 ws2 n t Hb Hw Hold
    |st ws1 ws2 n id s e content Hw
    |st ws1 ws2 n id s e e' Hw
    |st ws1 ws2 n t Hb Hw
    |st ws1 ws2 n t Hw
    |st ws1 ws2 n id s e e' Hb Hw
    |st ws1 ws2 n t Hb Hw
    |st ws1 ws2 n Hw
    |st ws1 ws2 Hw
    |st ws1 ws2 Hb Hw
    |st ws1 ws2 n Hq Hw].
  - (* get *)
    clear Hinv. pool_norm Hw. rewrite Hq in *. split; simpl.
    + exists (taken ++ [t]), dropped. pool_goal.
      split; [by rewrite <- app_assoc|]. split; [|split; [|exact Hdrop]].
      * rewrite map_app. simpl. rewrite Hperm.
        rewrite <- !app_assoc. simpl.
        rewrite <- Permutation_middle. rewrite <- !Permutation_middle.
        rewrite app_nil_r. done.
      * exact Hproc.
    + pool_goal. exact Hsto.
    + pool_goal. simpl in Hunf. lia.
    + rewrite !length_app in *. simpl in *. lia.
    + exact Hstart.
    + pool_goal. intros id s e Hin.
      apply elem_of_app in Hin as [Hin|Hin];
        [apply Hhold; set_solver|].
      apply elem_of_cons in Hin as [Heq|Hin]; [|apply Hhold; set_solver].
      assert (Ht : (id, s, e) ∈ enumerate_from 0 page_ranges)
        by (rewrite Henum, Heq; set_solver).
      apply enumerate_from_lookup in Ht as [_ Ht].
      by rewrite Nat.sub_0_r in Ht.
    + intros Hb. destruct (Hquiet Hb) as (Hu & Hs & Ha & He).
      pool_goal. simpl in Hu.
      split; [lia|]. split; [exact Hs|]. split.
      * intros Hin. apply Ha.
        apply (elem_of_middle _ (Idle n)) in Hin as [?|Hin]; [done|exact Hin].
      * intros Hin.
        apply (elem_of_middle _ (Idle n)) in Hin as [?|Hin]; [done|].
        by apply He in Hin.
  - (* claim *)
    clear Hinv. pool_norm Hw. split; simpl.
    + exists taken, dropped. pool_goal.
      split; [exact Henum|]. split; [|split; [|exact Hdrop]].
      * rewrite Hperm. rewrite <- !app_assoc. simpl.
        rewrite <- !Permutation_middle. done.
      * intros id. rewrite elem_of_union, elem_of_singleton, Hproc. elems.
    + pool_goal. exact Hsto.
    + pool_goal. lia.
    + rewrite !length_app in *. simpl in *. lia.
    + exact Hstart.
    + pool_goal. exact Hhold.
    + intros Hb. destruct (Hquiet Hb) as (Hu & Hs & Ha & He).
      pool_goal.
      split; [lia|]. split; [exact Hs|]. split.
      * intros Hin. apply Ha.
        apply (elem_of_middle _ (Got t n)) in Hin as [?|Hin]; [done|exact Hin].
      * intros Hin.
        apply (elem_of_middle _ (Got t n)) in Hin as [?|Hin]; [done|].
        by apply He in Hin.
  - (* skip: never enabled *)
    exfalso. by eapply got_not_processed.
  - exfalso. by eapply got_not_processed.
  - (* store *)
    clear Hinv.
    assert (Hrange : page_ranges !! id = Some (s, e)).
    { apply Hhold. rewrite Hw, omap_middle. simpl. set_solver. }
    assert (Hfreshkey : id ∉ PyDict.keys (results st)).
    { intros Hin. apply NoDup_app in Hnd as [Hnd _]. rewrite Hperm in Hnd.
      apply NoDup_app in Hnd as (_ & _ & Hnd).
      apply (NoDup_app_disjoint _ _ id Hnd).
      - pool_norm Hw. set_solver.
      - set_solver. }
    pool_norm Hw. split; simpl.
    + exists taken, dropped. pool_goal.
      rewrite dict_set_keys_fresh by done.
      split; [exact Henum|]. split; [|split; [|exact Hdrop]].
      * rewrite Hperm. rewrite <- !app_assoc. simpl.
        rewrite <- !Permutation_middle. done.
      * intros id'. rewrite Hproc. elems.
    + pool_goal. rewrite dict_set_keys_fresh by done.
      intros id' Hin. set_solver.
    + pool_goal. lia.
    + rewrite !length_app in *. simpl in *. lia.
    + intros id' s' text Hin.
      apply dict_set_elem in Hin as [[-> [= -> _]]|Hin]; eauto.
    + pool_goal. exact Hhold.
    + intros Hb. destruct (Hquiet Hb) as (Hu & Hs & Ha & He).
      pool_goal. rewrite dict_set_keys_fresh by done.
      split; [lia|]. split; [by rewrite Hs|]. split.
      * intros Hin. apply Ha.
        apply (elem_of_middle _ (Running (id, s, e) n)) in Hin as [?|Hin];
          [done|exact Hin].
      * intros Hin.
        apply (elem_of_middle _ (Running (id, s, e) n)) in Hin as [?|Hin];
          [done|].
        by apply He in Hin.
  - (* fail *)
    clear Hinv.
    assert (Hrange : page_ranges !! id = Some (s, e)).
    { apply Hhold. rewrite Hw, omap_middle. simpl. set_solver. }
    assert (Hfreshkey : id ∉ PyDict.keys (results st)).
    { intros Hin. apply NoDup_app in Hnd as [Hnd _]. rewrite Hperm in Hnd.
      apply NoDup_app in Hnd as (_ & _ & Hnd).
      apply (NoDup_app_disjoint _ _ id Hnd).
      - pool_norm Hw. set_solver.
      - set_solver. }
    pool_norm Hw. split; simpl.
    + exists taken, dropped. pool_goal.
      rewrite dict_set_keys_fresh by done.
      split; [exact Henum|]. split; [|split; [|exact Hdrop]].
      * rewrite Hperm. rewrite <- !app_assoc. simpl.
        rewrite <- !Permutation_middle. done.
      * intros id'. rewrite Hproc. elems.
    + pool_goal. rewrite dict_set_keys_fresh by done.
      intros id' Hin. set_solver.
    + pool_goal. lia.
    + rewrite !length_app in *. simpl in *. lia.
    + intros id' s' text Hin.
      apply dict_set_elem in Hin as [[-> [= -> _]]|Hin]; eauto.
    + pool_goal. intros id' s' e'' Hin. apply Hhold. set_solver.
    + intros Hb. destruct (Hquiet Hb) as (Hu & Hs & Ha & He).
      pool_goal. rewrite dict_set_keys_fresh by done.
      split; [lia|]. split; [by rewrite Hs|]. split.
      * intros Hin. apply Ha.
        apply (elem_of_middle _ (Running (id, s, e) n)) in Hin as [?|Hin];
          [done|exact Hin].
      * intros Hin.
        apply (elem_of_middle _ (Running (id, s, e) n)) in Hin as [?|Hin];
          [done|].
        by apply He in Hin.
  - (* abort with nothing stored *)
    clear Hinv. subst b. pool_norm Hw. split; simpl.
    + exists taken, (task_id t :: dropped). pool_goal.
      split; [exact Henum|]. split; [|split; [|done]].
      * rewrite Hperm. rewrite <- !app_assoc. simpl.
        rewrite <- !Permutation_middle. done.
      * intros id'. rewrite Hproc. elems.
    + pool_goal. exact Hsto.
    + pool_goal. lia.
    + rewrite !length_app in *. simpl in *. lia.
    + exact Hstart.
    + pool_goal. intros id' s' e' Hin. apply Hhold. set_solver.
    + done.
  - (* the log call after the store returns *)
    clear Hinv. pool_norm Hw. split; simpl.
    + exists taken, dropped. pool_goal. done.
    + pool_goal. intros id' Hin. apply Hsto. set_solver.
    + pool_goal. lia.
    + rewrite !length_app in *. simpl in *. lia.
    + exact Hstart.
    + pool_goal. intros id' s' e' Hin. apply Hhold. set_solver.
    + intros Hb. destruct (Hquiet Hb) as (Hu & Hs & Ha & He).
      pool_goal.
      split; [lia|]. split; [exact Hs|]. split.
      * intros Hin. apply Ha.
        apply (elem_of_middle _ (Stored t n)) in Hin as [?|Hin];
          [done|exact Hin].
      * intros Hin.
        apply (elem_of_middle _ (Stored t n)) in Hin as [?|Hin]; [done|].
        by apply He in Hin.
  - (* overwrite *)
    clear Hinv. subst b.
    assert (Hrange : page_ranges !! id = Some (s, e)).
    { apply Hhold. rewrite Hw, omap_middle. simpl. set_solver. }
    assert (Hkey : id ∈ PyDict.keys (results st)).
    { apply Hsto. pool_norm Hw. set_solver. }
    pool_norm Hw. split; simpl.
    + exists taken, dropped. pool_goal.
      rewrite dict_set_keys_present by done. done.
    + pool_goal. rewrite dict_set_keys_present by done.
      intros id' Hin. apply Hsto. set_solver.
    + pool_goal. lia.
    + rewrite !length_app in *. simpl in *. lia.
    + intros id' s' text Hin.
      apply dict_set_elem in Hin as [[-> [= -> _]]|Hin]; eauto.
    + pool_goal. intros id' s' e'' Hin. apply Hhold. set_solver.
    + done.
  - (* abort after the store *)
    clear Hinv. subst b. pool_norm Hw. split; simpl.
    + exists taken, dropped. pool_goal. done.
    + pool_goal. intros id' Hin. apply Hsto. set_solver.
    + pool_goal. lia.
    + rewrite !length_app in *. simpl in *. lia.
    + exact Hstart.
    + pool_goal. intros id' s' e' Hin. apply Hhold. set_solver.
    + done.
  - (* task_done *)
    clear Hinv. pool_norm Hw. split; simpl.
    + exists taken, dropped. pool_goal. done.
    + pool_goal. exact Hsto.
    + pool_goal. lia.
    + rewrite !length_app in *. simpl in *. lia.
    + exact Hstart.
    + pool_goal. exact Hhold.
    + intros Hb. destruct (Hquiet Hb) as (Hu & Hs & Ha & He).
      pool_goal.
      split; [lia|]. split; [exact Hs|]. split.
      * intros Hin. apply Ha.
        apply (elem_of_middle _ (Finishing n)) in Hin as [?|Hin];
          [done|exact Hin].
      * intros Hin.
        apply (elem_of_middle _ (Finishing n)) in Hin as [?|Hin]; [done|].
        by apply He in Hin.
  - (* the outer handler ends *)
    clear Hinv. pool_norm Hw. split; simpl.
    + exists taken, dropped. pool_goal. done.
    + pool_goal. exact Hsto.
    + pool_goal. lia.
    + rewrite !length_app in *. simpl in *. lia.
    + exact Hstart.
    + pool_goal. exact Hhold.
    + intros Hb. destruct (Hquiet Hb) as (_ & _ & Ha & _).
      exfalso. apply Ha. set_solver.
  - (* the thread dies in the outer handler *)
    clear Hinv. subst b. pool_norm Hw. split; simpl.
    + exists taken, dropped. pool_goal. done.
    + pool_goal. exact Hsto.
    + pool_goal. lia.
    + rewrite !length_app in *. simpl in *. lia.
    + exact Hstart.
    + pool_goal. exact Hhold.
    + done.
  - (* exit *)
    clear Hinv. pool_norm Hw. split; simpl.
    + exists taken, dropped. pool_goal. done.
    + pool_goal. exact Hsto.
    + pool_goal. lia.
    + rewrite !length_app in *. simpl in *. lia.
    + exact Hstart.
    + pool_goal. exact Hhold.
    + intros Hb. destruct (Hquiet Hb) as (Hu & Hs & Ha & He).
      pool_goal.
      split; [lia|]. split; [exact Hs|]. split.
      * intros Hin. apply Ha.
        apply (elem_of_middle _ (Idle n)) in Hin as [?|Hin];
          [done|exact Hin].
      * done.
Qed.

Lemma pool_reachable_inv b page_ranges api_key_count st :
  rtc (pool_step b) (pool_init page_ranges api_key_count) st ->
  pool_inv b page_ranges (Z.to_nat (max_workers page_ranges api_key_count)) st.
Proof.
  intros Hrun.
  eapply (rtc_ind_r
            (pool_inv b page_ranges
               (Z.to_nat (max_workers page_ranges api_key_count)))
            (pool_init page_ranges api_key_count));
    [apply pool_inv_init| |exact Hrun].
  intros st1 st2 _ Hstep Hinv. by eapply pool_step_inv.
Qed.



Lemma owes_zero ws :
  sum_list (map owes ws) = 0%nat ->
  got_ids ws = [] /\ running_ids ws = [] /\
  forall ws1 w ws2, ws = ws1 ++ w :: ws2 -> owes w = 0%nat.
Proof.
  intros Hsum. split; [|split].
  - induction ws as [|w ws IH]; simpl in *; [done|].
    destruct w; simpl in *; try lia; by apply IH.
  - induction ws as [|w ws IH]; simpl in *; [done|].
    destruct w; simpl in *; try lia; by apply IH.
  - intros ws1 w ws2 ->. rewrite sum_middle in Hsum. lia.
Qed.


(** The results once no task is unfinished. *)
Lemma pool_joined b page_ranges worker_count st :
  pool_inv b page_ranges worker_count st ->
  unfinished_tasks st = 0%nat ->
  task_queue st = [] /\ sum_list (map owes (workers st)) = 0%nat /\
  exists dropped,
    seq 0 (length page_ranges) ≡ₚ PyDict.keys (results st) ++ dropped /\
    (b = false -> dropped = []).
Proof.
  intros [(taken & dropped & Henum & Hperm & _ & Hdrop) _ Hunf _ _ _ _] Hdone.
  assert (Hq : task_queue st = [])
    by (destruct (task_queue st); [done|simpl in Hunf; lia]).
  assert (Hz : sum_list (map owes (workers st)) = 0%nat) by lia.
  split; [exact Hq|]. split; [exact Hz|].
  destruct (owes_zero _ Hz) as (Hg & Hr & _).
  exists dropped. split; [|exact Hdrop].
  rewrite Hq, app_nil_r in Henum. rewrite Hg, Hr in Hperm. simpl in Hperm.
  by rewrite <- Hperm, <- Henum, enumerate_from_ids.
Qed.

Lemma pool_step_after_join b st st' :
  task_queue st = [] -> sum_list (map owes (workers st)) = 0%nat ->
  pool_step b st st' ->
  results st' = results st /\ stored st' = stored st /\
  unfinished_tasks st' = unfinished_tasks st /\
  task_queue st' = [] /\ sum_list (map owes (workers st')) = 0%nat.
Proof.
  intros Hq Hz Hstep.
  destruct (owes_zero _ Hz) as (_ & _ & Hall).
  destruct Hstep;
    try match goal with
        | Hw : workers _ = _ |- _ =>
          specialize (Hall _ _ _ Hw); discriminate
        end.
  - congruence.
  - simpl. repeat split; auto.
    match goal with Hw : workers _ = _ |- _ => rewrite Hw in Hz end.
    rewrite sum_middle in *. simpl in *. lia.
Qed.

Lemma pool_run_after_join b st st' :
  rtc (pool_step b) st st' ->
  task_queue st = [] -> sum_list (map owes (workers st)) = 0%nat ->
  results st' = results st /\ stored st' = stored st /\
  unfinished_tasks st' = unfinished_tasks st.
Proof.
  induction 1 as [st|st st1 st' Hstep _ IH]; intros Hq Hz; [done|].
  destruct (pool_step_after_join _ _ _ Hq Hz Hstep)
    as (Hres & Hsto & Hunf & Hq1 & Hz1).
  destruct (IH Hq1 Hz1) as (-> & -> & ->). done.
Qed.

End PoolProps.

(** ** The thread pool *)

Section CollectorProps.
Context `{PyRuntime} `{OsRuntime} (E : pool_env).
Context (files : list pystr) (file_type : pystr).
Hypothesis quiet : forall k, log_result E k = None.







End CollectorProps.



(** * Instances of the theorems, and inputs on which the spec's own
    statements fail *)


(** With one page range and one worker whose log call after the claim
    raises, [task_queue.join()] returns with an empty results dict: the
    task is dropped.  With one file whose task returns its text and a log
    call that raises after the result is appended, the collection returns
    two entries for the one file. *)
Lemma task_dropped_when_log_raises :
  rtc (pool_step (H := ascii_runtime) true) (pool_init [(1, 2)] 1)
    one_task_dropped /\
  unfinished_tasks one_task_dropped = 0%nat /\
  results one_task_dropped = [] /\
  ~ (PyDict.keys (results one_task_dropped) ≡ₚ seq 0 1) /\
  _process_files_with_enhanced_concurrency (H := ascii_runtime)
    (H0 := ascii_os) (failing_log 2) [doc_path] big_file 1
  = Returns
      [Py.lit "text";
       failure_marker big_file doc_path (Py.lit "log failed")].
Proof.
  split; [|split; [reflexivity|split; [reflexivity|split]]].
  - apply (rtc_l _ _ (Build_pool [] 1 (∅ : gset nat) [] [Got (0%nat, 1, 2) 0]
      [])).
    { exact (step_get (H := ascii_runtime) true (pool_init [(1, 2)] 1) [] [] 0
        (0%nat, 1, 2) [] eq_refl eq_refl). }
    apply (rtc_l _ _ (Build_pool [] 1 ({[0%nat]} ∪ ∅) [] [Running (0%nat, 1,
        2) 0] [])).
    { refine (step_claim (H := ascii_runtime) true (Build_pool [] 1 (∅ : gset
        nat) [] [Got (0%nat, 1, 2) 0] []) [] [] 0 (0%nat, 1, 2) eq_refl _);
        simpl; set_solver. }
    apply (rtc_l _ _ (Build_pool [] 1 ({[0%nat]} ∪ ∅) [] [Aborting] [])).
    { exact (step_abort (H := ascii_runtime) true (Build_pool [] 1 ({[0%nat]}
        ∪ ∅) [] [Running (0%nat, 1, 2) 0] []) [] [] 0 (0%nat, 1, 2) eq_refl
        eq_refl). }
    apply (rtc_l _ _ one_task_dropped).
    { exact (step_abort_done (H := ascii_runtime) true (Build_pool [] 1
        ({[0%nat]} ∪ ∅) [] [Aborting] []) [] [] eq_refl). }
    apply rtc_refl.
  - simpl. intros Hp. apply Permutation_length in Hp. discriminate.
  - vm_compute. reflexivity.
Qed.




Lemma gap_detection_witness :
  missing_pages
    (merge_walk (H := ascii_runtime) ([(1, 2)] ++ (3, 4) :: [(5, 6)])
       [(2%nat, (5, Py.lit "c")); (0%nat, (1, Py.lit "a"))])
  = range2 3 (4 + 1).
Proof.
  apply (gap_detection (H := ascii_runtime) [(1, 2)] [(5, 6)] 3 4
           [(2%nat, (5, Py.lit "c")); (0%nat, (1, Py.lit "a"))]).
  - simpl. lia.
  - discriminate.
  - simpl. apply perm_swap.
  - reflexivity.
Defined.

(** The results of [gap_results] cover every range of [gap_plan] except
    [(9, 10)], yet no page is reported missing: the walk stops at the
    total-length limit before it reaches the gap. *)
Lemma gap_hidden_by_length_limit :
  gap_plan = [(1, 2); (3, 4); (5, 6); (7, 8)] ++ (9, 10) :: [(11, 12)] /\
  map start_of gap_results = [1; 3; 5; 7; 11] /\
  missing_pages (merge_walk (H := ascii_runtime) gap_plan gap_results) = [] /\
  stopped (merge_walk (H := ascii_runtime) gap_plan gap_results) = true.
Proof. repeat split; vm_compute; reflexivity. Qed.

Lemma circuit_breaker_witness :
  error_count two_keys !! key_a = Some 0 /\
  error_count (fst (report_error two_keys key_a)) !! key_a = Some (0 + 1).
Proof.
  assert (Hn : error_count two_keys !! key_a = Some 0) by reflexivity.
  split; [exact Hn|].
  apply (circuit_breaker two_keys key_a 0 0 Hn).
Defined.

Lemma acquire_never_blacklisted_witness :
  api_keys (fail3 two_keys key_a) <> [] /\
  key_a ∈ blacklisted (fail3 two_keys key_a) /\
  exists client,
    snd (get_next_client (fail3 two_keys key_a) 0) = Ret (client, key_b).
Proof.
  assert (Hne : api_keys (fail3 two_keys key_a) <> []) by discriminate.
  assert (Hout : key_a ∈ blacklisted (fail3 two_keys key_a)) by compute_done.
  split; [exact Hne|]. split; [exact Hout|].
  destruct (acquire_never_blacklisted (fail3 two_keys key_a) 0 Hne)
    as (Hsafe & Htotal & _).
  destruct Htotal as (client & key & Hret).
  { intros key Hkey. change (key ∈ [key_a; key_b]) in Hkey.
    apply elem_of_cons in Hkey as [->|Hkey];
      [|apply list_elem_of_singleton in Hkey; subst key];
      split; by eexists. }
  exists client.
  destruct (get_next_client (fail3 two_keys key_a) 0) as [r' o] eqn:Hget.
  cbn [snd] in Hret. subst o.
  destruct (Hsafe r' client key eq_refl) as (Hin & _ & Hfree).
  destruct Hfree as (Hfree & _).
  { exists key_b. split; [|compute_done].
    change (key_b ∈ [key_a; key_b]). set_solver. }
  change (key ∈ [key_a; key_b]) in Hin.
  apply elem_of_cons in Hin as [->|Hin]; [done|].
  apply list_elem_of_singleton in Hin. by subst key.
Defined.

(** With both credentials blacklisted and the cursor on the second one, the
    call hands out the second credential, not the first of the list. *)
Lemma rotation_resumes_at_cursor :
  api_keys two_keys_blacklisted = [key_a; key_b] /\
  blacklisted two_keys_blacklisted = {[key_a; key_b]} /\
  current_index two_keys_blacklisted = 1 /\
  snd (get_next_client two_keys_blacklisted 0) = Ret (key_b, key_b) /\
  snd (get_next_client two_keys_blacklisted 0) <> Ret (key_a, key_a).
Proof.
  split; [reflexivity|]. split; [|split; [reflexivity|]].
  - compute_done.
  - assert (Hr : snd (get_next_client two_keys_blacklisted 0)
                 = Ret (key_b, key_b)) by (vm_compute; reflexivity).
    split; [exact Hr|]. rewrite Hr. discriminate.
Qed.

Lemma cache_round_trip_witness :
  set (H := ascii_runtime) (fresh_cache 100) (env_at 10 [65%N] 5) doc_path
      (Py.lit "text") []
    = (fst (set (H := ascii_runtime) (fresh_cache 100) (env_at 10 [65%N] 5)
              doc_path (Py.lit "text") []), true) /\
  snd (get (H := ascii_runtime)
         (fst (set (H := ascii_runtime) (fresh_cache 100)
                 (env_at 10 [65%N] 5) doc_path (Py.lit "text") []))
         (env_at 11 [65%N] 5) doc_path [])
    = Some (Py.lit "text").
Proof.
  assert (Hset :
    set (H := ascii_runtime) (fresh_cache 100) (env_at 10 [65%N] 5) doc_path
        (Py.lit "text") []
      = (fst (set (H := ascii_runtime) (fresh_cache 100) (env_at 10 [65%N] 5)
                doc_path (Py.lit "text") []), true)) by reflexivity.
  split; [exact Hset|].
  apply (cache_round_trip (H := ascii_runtime) _ _ _ (env_at 11 [65%N] 5)
           _ _ _ Hset).
  - reflexivity.
  - vm_compute. discriminate.
Defined.

(** The file is rewritten with another byte of the same length and keeps
    its modification time; one second after the [set], the [get] misses. *)
Lemma same_size_and_mtime_miss :
  snd (set (H := ascii_runtime) (fresh_cache 100) (env_at 10 [65%N] 5)
         doc_path (Py.lit "text") []) = true /\
  st_size {| f_data := [66%N]; f_mtime := 5; f_readable := true |}
    = st_size {| f_data := [65%N]; f_mtime := 5; f_readable := true |} /\
  (now (env_at 11 [66%N] 5) - now (env_at 10 [65%N] 5)
     <= inject_Z (max_age_hours (fresh_cache 100) * 3600))%Q /\
  snd (get (H := ascii_runtime)
         (fst (set (H := ascii_runtime) (fresh_cache 100)
                 (env_at 10 [65%N] 5) doc_path (Py.lit "text") []))
         (env_at 11 [66%N] 5) doc_path [])
    = None.
Proof.
  split; [reflexivity|]. split; [reflexivity|].
  split; [vm_compute; discriminate|]. vm_compute. reflexivity.
Qed.



(** * Further properties of the code *)

(** ** Truncation and planning *)

Lemma truncate_200k_short (content : pystr) :
  len content <= 200000 -> truncate_200k content = content.
Proof.
  intros Hshort. unfold truncate_200k, _smart_truncate_content.
  destruct content as [|c0 rest]; [done|].
  destruct (Z.leb_spec (len (c0 :: rest)) 200000); [done|lia].
Qed.

(** X1. Truncating twice is the same as truncating once: the second cut
    that a worker applies to a range already cut by
    [_extract_single_page_range] changes nothing. *)
Theorem truncate_200k_idempotent (content : pystr) :
  len content < 2 ^ 63 ->
  truncate_200k (truncate_200k content) = truncate_200k content.
Proof.
  intros Hmax. apply truncate_200k_short. by apply truncate_200k_bound.
Qed.

Lemma truncate_200k_idempotent_witness :
  len (letters 200001) < 2 ^ 63 /\
  truncate_200k (truncate_200k (letters 200001))
    = truncate_200k (letters 200001).
Proof.
  assert (H2 : len (letters 200001) < 2 ^ 63) by (vm_compute; reflexivity).
  split; [exact H2|]. apply (truncate_200k_idempotent _ H2).
Defined.

Lemma split_unfold N C :
  0 < C -> C < N ->
  _split_pdf_pages N C
    = make_chunks N C
        (map (fun i : nat => 1 + Z.of_nat i * C)
             (seq 0 (Z.to_nat ((N + C - 1) / C)))).
Proof.
  intros HC HN. unfold _split_pdf_pages, Py.range.
  destruct (Z.leb_spec N 0); [lia|].
  destruct (Z.leb_spec N C); [lia|].
  destruct (Z.eqb_spec C 0); [lia|].
  destruct (Z.ltb_spec 0 C); [|lia].
  cbv zeta. replace (N + 1 - 1 + C - 1) with (N + C - 1) by lia.
  by destruct (_ =? _).
Qed.

(** X2. For a chunk size [C > 0] and [N > C] pages the planner returns
    [ceil(N / C)] ranges; range number [i] (from 0) starts at page
    [1 + i*C], has at least one and at most [C] pages, and every range but
    the last has exactly [C] pages. *)
Theorem split_pdf_pages_layout (N C : Z) :
  0 < C -> C < N ->
  Z.of_nat (length (_split_pdf_pages N C)) = (N + C - 1) / C /\
  (forall (i : nat) r,
     _split_pdf_pages N C !! i = Some r ->
     fst r = 1 + Z.of_nat i * C /\
     snd r = Z.min (Z.of_nat i * C + C) N /\
     1 <= range_pages r <= C /\
     ((S i < length (_split_pdf_pages N C))%nat -> range_pages r = C)).
Proof.
  intros HC HN. rewrite split_unfold by done.
  set (q := (N + C - 1) / C).
  assert (Hq1 : C * q <= N + C - 1) by (apply Z.mul_div_le; lia).
  assert (Hq2 : N + C - 1 < C * Z.succ q) by (apply Z.mul_succ_div_gt; lia).
  assert (Hq : 2 <= q) by nia.
  unfold make_chunks. rewrite !length_map, length_seq.
  split; [lia|].
  intros i r Hl. rewrite !list_lookup_fmap in Hl.
  destruct (seq 0 (Z.to_nat q) !! i) as [j|] eqn:Hj; [|discriminate].
  apply lookup_seq in Hj as [-> Hi]. simpl in Hl. injection Hl as <-.
  unfold range_pages. simpl.
  split; [done|]. split; [f_equal; lia|].
  split; [nia|]. intros Hnext. nia.
Qed.

Lemma split_pdf_pages_layout_witness :
  Z.of_nat (length (_split_pdf_pages 20 6)) = (20 + 6 - 1) / 6.
Proof. apply (split_pdf_pages_layout 20 6); lia. Defined.

(** X3. A chunk size that is not positive yields no ranges, whatever the
    page count: the caller falls back to processing the whole document. *)
Theorem split_pdf_pages_bad_chunk (N C : Z) :
  C <= 0 -> _split_pdf_pages N C = [].
Proof.
  intros HC. unfold _split_pdf_pages, Py.range.
  destruct (Z.leb_spec N 0); [done|].
  destruct (Z.leb_spec N C); [lia|].
  destruct (Z.eqb_spec C 0); [done|].
  destruct (Z.ltb_spec 0 C); [lia|]. cbv zeta.
  assert (Hn : (1 - (N + 1) - C - 1) / - C <= 0).
  { apply Z.lt_succ_r. apply Z.div_lt_upper_bound; lia. }
  replace (Z.to_nat ((1 - (N + 1) - C - 1) / - C)) with 0%nat by lia.
  unfold make_chunks. cbn [seq map]. by destruct (covered_pages [] =? N).
Qed.

Lemma split_pdf_pages_bad_chunk_witness :
  _split_pdf_pages 12 (-3) = [].
Proof. apply split_pdf_pages_bad_chunk. lia. Defined.

(** X4. With at least one credential and at least one page, the plan of
    [_extract_pdf_with_concurrent_pages] uses a chunk size between 2 and 6,
    covers pages 1 to [N] contiguously, gives no range more than 6 pages,
    and has at least two ranges when the document has more than 6 pages. *)
Theorem plan_page_ranges_spec (total_pages api_count : Z) :
  1 <= api_count -> 1 <= total_pages ->
  exists chunk page_ranges,
    optimal_chunk_size total_pages api_count = Some chunk /\
    2 <= chunk <= 6 /\
    plan_page_ranges total_pages api_count = Some page_ranges /\
    contiguous_from 1 page_ranges /\
    covered_pages page_ranges = total_pages /\
    Forall (fun r => 1 <= range_pages r <= 6) page_ranges /\
    (6 < total_pages -> (2 <= length page_ranges)%nat).
Proof.
  intros Hk HN. unfold plan_page_ranges, optimal_chunk_size.
  destruct (Z.eqb_spec (api_count * 2) 0); [lia|]. cbv zeta.
  set (chunk := if 6 <? _ then 6 else _).
  assert (Hc : 2 <= chunk <= 6).
  { subst chunk. destruct (Z.ltb_spec 6 (Z.max 2 (total_pages / (api_count * 2)))); lia. }
  destruct (Z.leb_spec total_pages 0); [lia|].
  exists chunk. destruct (Z_lt_le_dec chunk total_pages) as [Hbig|Hsmall].
  - destruct (split_large total_pages chunk ltac:(lia) Hbig) as [Hcont Hcov].
    destruct (split_pdf_pages_layout total_pages chunk ltac:(lia) Hbig)
      as [Hlen Hlay].
    destruct (_split_pdf_pages total_pages chunk) as [|r0 rest] eqn:Hs.
    { simpl in Hcov. lia. }
    exists (r0 :: rest). repeat split; auto; try lia.
    + apply Forall_forall. intros r Hr.
      apply list_elem_of_lookup in Hr as [i Hi].
      destruct (Hlay i r Hi) as (_ & _ & Hp & _). lia.
    + intros _.
      assert ((total_pages + chunk - 1) / chunk >= 2); [|lia].
      apply Z.le_ge, Z.div_le_lower_bound; lia.
  - unfold _split_pdf_pages.
    destruct (Z.leb_spec total_pages 0); [lia|].
    destruct (Z.leb_spec total_pages chunk); [|lia].
    exists [(1, total_pages)]. simpl. unfold range_pages.
    repeat split; auto; try lia. constructor; [simpl; lia|constructor].
Qed.

Lemma plan_page_ranges_spec_witness :
  exists chunk page_ranges,
    optimal_chunk_size 20 3 = Some chunk /\
    2 <= chunk <= 6 /\
    plan_page_ranges 20 3 = Some page_ranges /\
    contiguous_from 1 page_ranges /\
    covered_pages page_ranges = 20 /\
    Forall (fun r => 1 <= range_pages r <= 6) page_ranges /\
    (6 < 20 -> (2 <= length page_ranges)%nat).
Proof. apply plan_page_ranges_spec; lia. Defined.

(** ** The worker pool after [task_queue.join()] *)

(** X5. Once no task is unfinished, which is when [task_queue.join()]
    returns, the results dict never changes again, whether or not the
    progress callback raises: whatever the workers still do, they store no
    result and the count stays at zero, so the main thread reads a final
    dict. *)
Theorem results_final_after_join `{PyRuntime} (log_raises : bool)
  (page_ranges : list (Z * Z)) (api_key_count : Z) (st st' : pool) :
  rtc (pool_step log_raises) (pool_init page_ranges api_key_count) st ->
  unfinished_tasks st = 0%nat ->
  rtc (pool_step log_raises) st st' ->
  results st' = results st /\ stored st' = stored st /\
  unfinished_tasks st' = 0%nat.
Proof.
  intros Hrun Hdone Hmore.
  pose proof (pool_reachable_inv _ _ _ _ Hrun) as Hinv.
  destruct (pool_joined _ _ _ _ Hinv Hdone) as (Hq & Hz & _).
  destruct (pool_run_after_join _ _ _ Hmore Hq Hz) as (? & ? & ->). done.
Qed.

Lemma results_final_after_join_witness :
  results
    {| task_queue := []; unfinished_tasks := 0;
       processed_tasks := {[0%nat]} ∪ ∅;
       results := [(0%nat, (1, range_failure 1 2 (Py.lit "log failed")))];
       workers := [Exited]; stored := [0%nat; 0%nat] |}
  = results one_task_overwritten.
Proof.
  assert (Hrun : rtc (pool_step (H := ascii_runtime) true)
                   (pool_init [(1, 2)] 1) one_task_overwritten).
  {
    apply (rtc_l _ _ (Build_pool [] 1 (∅ : gset nat) [] [Got (0%nat, 1, 2) 0]
        [])).
    { exact (step_get (H := ascii_runtime) true (pool_init [(1, 2)] 1) [] [] 0
        (0%nat, 1, 2) [] eq_refl eq_refl). }
    apply (rtc_l _ _ (Build_pool [] 1 ({[0%nat]} ∪ ∅) [] [Running (0%nat, 1,
        2) 0] [])).
    { refine (step_claim (H := ascii_runtime) true (Build_pool [] 1 (∅ : gset
        nat) [] [Got (0%nat, 1, 2) 0] []) [] [] 0 (0%nat, 1, 2) eq_refl _);
        simpl; set_solver. }
    apply (rtc_l _ _ (Build_pool [] 1 ({[0%nat]} ∪ ∅) [(0%nat, (1, Py.lit
        "page one" ))] [Stored (0%nat, 1, 2) 1] [0%nat])).
    { exact (step_store (H := ascii_runtime) true (Build_pool [] 1 ({[0%nat]}
        ∪ ∅) [] [Running (0%nat, 1, 2) 0] []) [] [] 0 0%nat 1 2 (Py.lit
        "page one" ) eq_refl). }
    apply (rtc_l _ _ (Build_pool [] 1 ({[0%nat]} ∪ ∅) [(0%nat, (1,
        range_failure 1 2 (Py.lit "log failed" )))] [Finishing 1] [0%nat;
        0%nat])).
    { exact (step_overwrite (H := ascii_runtime) true (Build_pool [] 1
        ({[0%nat]} ∪ ∅) [(0%nat, (1, Py.lit "page one" ))] [Stored (0%nat, 1,
        2) 1] [0%nat]) [] [] 1 0%nat 1 2 (Exception (Py.lit "log failed" ))
        eq_refl eq_refl). }
    apply (rtc_l _ _ one_task_overwritten).
    { exact (step_task_done (H := ascii_runtime) true (Build_pool [] 1
        ({[0%nat]} ∪ ∅) [(0%nat, (1, range_failure 1 2 (Py.lit "log failed"
        )))] [Finishing 1] [0%nat; 0%nat]) [] [] 1 eq_refl). }
    apply rtc_refl. }
  assert (Hmore : rtc (pool_step (H := ascii_runtime) true)
                    one_task_overwritten
                    {| task_queue := []; unfinished_tasks := 0;
                       processed_tasks := {[0%nat]} ∪ ∅;
                       results :=
                         [(0%nat,
                           (1, range_failure 1 2 (Py.lit "log failed")))];
                       workers := [Exited]; stored := [0%nat; 0%nat] |}).
  { eapply rtc_l; [|apply rtc_refl].
    exact (step_exit (H := ascii_runtime) true one_task_overwritten [] [] 1
             eq_refl eq_refl). }
  apply (results_final_after_join (H := ascii_runtime) true [(1, 2)] 1
           one_task_overwritten _ Hrun eq_refl Hmore).
Defined.

(** ** The order of the rotation *)

Section Rotation.

Lemma mod_shift_neq n cur k :
  0 <= cur < n -> 0 < k < n -> (cur + k) mod n <> cur.
Proof.
  intros Hc Hk. destruct (Z_lt_le_dec (cur + k) n).
  - rewrite Z.mod_small; lia.
  - replace (cur + k) with (cur + k - n + 1 * n) by lia.
    rewrite Z.mod_add by lia. rewrite Z.mod_small; lia.
Qed.

Lemma find_next_first n cur avail (d : nat) : forall fuel (j : nat),
  0 <= cur < n -> (j <= d)%nat -> Z.of_nat d < n ->
  (cur + Z.of_nat d) mod n ∈ avail ->
  (forall d' : nat, (d' < d)%nat -> (cur + Z.of_nat d') mod n ∉ avail) ->
  (d - j < fuel)%nat ->
  find_next fuel n cur avail ((cur + Z.of_nat j) mod n)
    = Ret ((cur + Z.of_nat d) mod n).
Proof.
  induction fuel as [|fuel IH]; intros j Hc Hj Hd Hin Hout Hfuel; [lia|].
  cbn [find_next]. destruct (decide (j = d)) as [->|Hne].
  - by rewrite bool_decide_eq_true_2.
  - rewrite bool_decide_eq_false_2 by (apply Hout; lia).
    rewrite Zplus_mod_idemp_l.
    replace (cur + Z.of_nat j + 1) with (cur + Z.of_nat (S j)) by lia.
    destruct (Z.eqb_spec ((cur + Z.of_nat (S j)) mod n) cur) as [Heq|_].
    + exfalso. revert Heq. apply mod_shift_neq; lia.
    + apply IH; auto; lia.
Qed.

Lemma mapM_index_of_elem keys available indices i :
  mapM (index_of keys) available = Some indices ->
  i ∈ indices <-> exists key, key ∈ available /\ index_of keys key = Some i.
Proof.
  intros Hm. apply mapM_Some in Hm.
  induction Hm as [|key j available indices Hkey _ IH].
  - split; [by intros ?%elem_of_nil|]. by intros (? & ?%elem_of_nil & _).
  - rewrite elem_of_cons, IH. split.
    + intros [->|(k & Hk & Hi)]; [exists key|exists k];
        (split; [|done]); set_solver.
    + intros (k & [->|Hk]%elem_of_cons & Hi); [left; congruence|].
      right. by exists k.
Qed.

Lemma select_key_first r available (d : nat) key :
  NoDup (api_keys r) ->
  0 <= current_index r < len (api_keys r) ->
  (2 <= length available)%nat ->
  available ⊆ api_keys r ->
  Z.of_nat d < len (api_keys r) ->
  getitem (api_keys r) ((current_index r + Z.of_nat d) mod len (api_keys r))
    = Some key ->
  key ∈ available ->
  (forall (d' : nat) key', (d' < d)%nat ->
     getitem (api_keys r)
       ((current_index r + Z.of_nat d') mod len (api_keys r)) = Some key' ->
     key' ∉ available) ->
  select_key r available
    = Ret (key, (current_index r + Z.of_nat d + 1) mod len (api_keys r)).
Proof.
  intros Hnd Hcur Hlen Hsub Hd Hkey Hin Hout. unfold select_key.
  destruct available as [|a1 [|a2 rest]]; [simpl in Hlen; lia..|].
  set (available := a1 :: a2 :: rest) in *.
  destruct (mapM_index_of (api_keys r) available Hsub) as (indices & Hm & _).
  rewrite Hm.
  set (n := len (api_keys r)) in *. set (cur := current_index r) in *.
  assert (Hpos : forall x, 0 <= (cur + x) mod n < n)
    by (intros x; apply Z.mod_pos_bound; lia).
  rewrite getitem_nonneg in Hkey by apply Hpos.
  assert (Hstart : cur = (cur + Z.of_nat 0) mod n)
    by (rewrite Z.add_0_r, Z.mod_small; lia).
  rewrite Hstart at 2.
  rewrite (find_next_first n cur indices d); try lia.
  - rewrite getitem_nonneg by apply Hpos. rewrite Hkey.
    by rewrite Zplus_mod_idemp_l.
  - apply (mapM_index_of_elem _ _ _ _ Hm). exists key. split; [done|].
    replace ((cur + Z.of_nat d) mod n)
      with (Z.of_nat (Z.to_nat ((cur + Z.of_nat d) mod n)))
      by (specialize (Hpos (Z.of_nat d)); lia).
    by apply index_of_NoDup.
  - intros d' Hd' (key' & Hin' & Hi)%(mapM_index_of_elem _ _ _ _ Hm).
    apply index_of_lookup in Hi as [_ Hi].
    apply (Hout d' key'); [done| |done].
    by rewrite getitem_nonneg by apply Hpos.
  - unfold n, Py.len in *. lia.
Qed.

End Rotation.

(** X6. Rotation order.  When the key list has no duplicates and at least
    two credentials are available, [get_next_client] hands out the first
    credential at or after the rotation cursor, in cyclic order, that is not
    blacklisted, and moves the cursor to the position after it; it counts
    the use and records the time, and leaves the blacklist as it is. *)
Theorem rotation_order (r : APIRotator) (now : Q) (d : nat) (used : Z)
  (key client : pystr) :
  NoDup (api_keys r) ->
  0 <= current_index r < len (api_keys r) ->
  (2 <= length (available_keys r))%nat ->
  Z.of_nat d < len (api_keys r) ->
  getitem (api_keys r) ((current_index r + Z.of_nat d) mod len (api_keys r))
    = Some key ->
  key ∉ blacklisted r ->
  (forall (d' : nat) key', (d' < d)%nat ->
     getitem (api_keys r)
       ((current_index r + Z.of_nat d') mod len (api_keys r)) = Some key' ->
     key' ∈ blacklisted r) ->
  usage_count r !! key = Some used ->
  clients r !! key = Some client ->
  snd (get_next_client r now) = Ret (client, key) /\
  current_index (fst (get_next_client r now))
    = (current_index r + Z.of_nat d + 1) mod len (api_keys r) /\
  usage_count (fst (get_next_client r now)) !! key = Some (used + 1) /\
  last_use_time (fst (get_next_client r now)) !! key = Some now /\
  blacklisted (fst (get_next_client r now)) = blacklisted r.
Proof.
  intros Hnd Hcur Hlen Hd Hkey Hfree Hout Hused Hclient.
  assert (Hpos : 0 <= (current_index r + Z.of_nat d) mod len (api_keys r)).
  { apply Z.mod_pos_bound. lia. }
  assert (Hsel : select_key r (available_keys r)
            = Ret (key, (current_index r + Z.of_nat d + 1)
                          mod len (api_keys r))).
  { apply select_key_first; auto.
    - apply available_keys_subseteq.
    - apply available_keys_spec. split; [|done].
      rewrite getitem_nonneg in Hkey by done.
      by apply list_elem_of_lookup_2 in Hkey.
    - intros d' key' Hd' Hk' Hin. apply available_keys_spec in Hin as [_ Hin].
      apply Hin. by apply (Hout d' key'). }
  unfold get_next_client.
  destruct (api_keys r) as [|k0 ks] eqn:Hkeys.
  { unfold Py.len in Hcur. simpl in Hcur. lia. }
  rewrite <- Hkeys in *.
  destruct (available_keys r) as [|a0 rest] eqn:Hav; [simpl in Hlen; lia|].
  cbv zeta. rewrite Hsel. cbn. rewrite Hused. cbn. rewrite Hclient. cbn.
  by rewrite !lookup_insert_eq.
Qed.

Lemma rotation_order_witness :
  snd (get_next_client three_keys_middle_out 5) = Ret (key_c, key_c) /\
  current_index (fst (get_next_client three_keys_middle_out 5)) = 0.
Proof.
  assert (Hnd : NoDup (api_keys three_keys_middle_out)).
  { change (NoDup [key_a; key_b; key_c]). compute_done. }
  assert (Hcur : 0 <= current_index three_keys_middle_out
                 < len (api_keys three_keys_middle_out))
    by (vm_compute; split; [discriminate|reflexivity]).
  assert (Hlen : (2 <= length (available_keys three_keys_middle_out))%nat).
  { apply Nat.leb_le. vm_compute. reflexivity. }
  assert (Hd : Z.of_nat 1 < len (api_keys three_keys_middle_out))
    by (vm_compute; reflexivity).
  assert (Hkey : getitem (api_keys three_keys_middle_out)
            ((current_index three_keys_middle_out + Z.of_nat 1)
               mod len (api_keys three_keys_middle_out)) = Some key_c)
    by (vm_compute; reflexivity).
  assert (Hfree : key_c ∉ blacklisted three_keys_middle_out).
  { compute_done. }
  assert (Hout : forall (d' : nat) key', (d' < 1)%nat ->
            getitem (api_keys three_keys_middle_out)
              ((current_index three_keys_middle_out + Z.of_nat d')
                 mod len (api_keys three_keys_middle_out)) = Some key' ->
            key' ∈ blacklisted three_keys_middle_out).
  { intros d' key' Hd'. assert (d' = 0%nat) as -> by lia.
    intros Hk. vm_compute in Hk. injection Hk as <-.
    compute_done. }
  assert (Hused : usage_count three_keys_middle_out !! key_c = Some 0)
    by (vm_compute; reflexivity).
  assert (Hclient : clients three_keys_middle_out !! key_c = Some key_c)
    by (vm_compute; reflexivity).
  destruct (rotation_order three_keys_middle_out 5 1 0 key_c key_c
              Hnd Hcur Hlen Hd Hkey Hfree Hout Hused Hclient)
    as (Hret & Hidx & _).
  split; [exact Hret|]. rewrite Hidx. vm_compute. reflexivity.
Defined.

(** ** Histories of the credential pool *)

Section RotatorHistory.
Context (keys : list pystr) (client_ok : pystr -> bool).

Lemma dict_of_keys_is_Some {V} (ks : list pystr) (v : V) key :
  is_Some (dict_of_keys ks v !! key) <-> key ∈ ks.
Proof.
  unfold dict_of_keys. induction ks as [|k ks IH]; simpl.
  - rewrite lookup_empty. split; [by intros [? ?]|by intros ?%elem_of_nil].
  - rewrite elem_of_cons. destruct (decide (k = key)) as [->|Hne].
    + rewrite lookup_insert_eq. split; eauto.
    + rewrite lookup_insert_ne by done. rewrite IH. naive_solver.
Qed.

Lemma dict_of_keys_Some {V} (ks : list pystr) (v x : V) key :
  dict_of_keys ks v !! key = Some x -> x = v.
Proof.
  unfold dict_of_keys. induction ks as [|k ks IH]; simpl; [done|].
  destruct (decide (k = key)) as [->|Hne].
  - rewrite lookup_insert_eq. congruence.
  - by rewrite lookup_insert_ne.
Qed.

Lemma insert_is_Some_present {V} (m : gmap pystr V) k v key :
  is_Some (m !! k) -> is_Some (<[k := v]> m !! key) <-> is_Some (m !! key).
Proof.
  intros Hk. destruct (decide (k = key)) as [->|Hne].
  - rewrite lookup_insert_eq. split; eauto.
  - by rewrite lookup_insert_ne.
Qed.

Lemma rotator_init_inv : rotator_inv keys client_ok (rotator_init keys client_ok).
Proof.
  constructor; simpl; auto.
  - intros key. induction keys as [|k ks IH]; simpl.
    + rewrite lookup_empty. split; [by intros [? ?]|].
      by intros [?%elem_of_nil _].
    + rewrite elem_of_cons. destruct (client_ok k) eqn:Hok; simpl.
      * destruct (decide (k = key)) as [->|Hne].
        -- rewrite lookup_insert_eq. split; eauto.
        -- rewrite lookup_insert_ne by done. rewrite IH. naive_solver.
      * rewrite IH. split; [naive_solver|].
        intros [[->|Hin] Hk]; [congruence|done].
  - intros key client. induction keys as [|k ks IH]; simpl; [done|].
    destruct (client_ok k); simpl; [|done].
    destruct (decide (k = key)) as [->|Hne].
    + rewrite lookup_insert_eq. congruence.
    + by rewrite lookup_insert_ne.
  - intros key Hin. apply elem_of_list_to_set in Hin.
    apply list_elem_of_In, filter_In in Hin as [Hin _].
    by apply list_elem_of_In.
  - intros key. apply dict_of_keys_is_Some.
  - intros key n Hn. apply dict_of_keys_Some in Hn. lia.
  - intros key. apply dict_of_keys_is_Some.
  - intros key n Hn. apply dict_of_keys_Some in Hn. lia.
  - intros key. apply dict_of_keys_is_Some.
  - intros key. apply dict_of_keys_is_Some.
  - intros key times Hn. apply dict_of_keys_Some in Hn. subst.
    split; [done|constructor].
Qed.

Lemma report_error_inv r api_key :
  rotator_inv keys client_ok r ->
  rotator_inv keys client_ok (fst (report_error r api_key)).
Proof.
  intros [Hk Hc Hcl Hid Hb He Hen Hu Hun Hs Ht Hh]. unfold report_error.
  destruct (error_count r !! api_key) as [n|] eqn:Hn; [|by constructor].
  assert (Hin : api_key ∈ keys) by (apply He; eauto).
  assert (He' : forall key,
            is_Some (<[api_key := n + 1]> (error_count r) !! key)
            <-> key ∈ keys).
  { intros key. rewrite insert_is_Some_present by eauto. apply He. }
  assert (Hen' : forall key m,
            <[api_key := n + 1]> (error_count r) !! key = Some m -> 0 <= m).
  { intros key m. destruct (decide (api_key = key)) as [->|Hne].
    - rewrite lookup_insert_eq. intros [= <-]. apply Hen in Hn. lia.
    - rewrite lookup_insert_ne by done. apply Hen. }
  destruct (3 <=? n + 1); constructor; simpl; auto.
  intros key [->%elem_of_singleton|Hkey]%elem_of_union; auto.
Qed.

Lemma report_success_inv r api_key response_time :
  rotator_inv keys client_ok r ->
  rotator_inv keys client_ok (fst (report_success r api_key response_time)).
Proof.
  intros Hinv. unfold report_success.
  destruct (error_count r !! api_key) as [n|] eqn:Hn; [|done].
  set (n' := if 0 <? n then Z.max 0 (n - 1) else n).
  set (r1 := if 0 <? n then _ else r).
  assert (Hinv1 : rotator_inv keys client_ok r1).
  { subst r1. destruct (0 <? n); [|done].
    destruct Hinv as [Hk Hc Hcl Hid Hb He Hen Hu Hun Hs Ht Hh].
    constructor; simpl; auto.
    - intros key. rewrite insert_is_Some_present by eauto. apply He.
    - intros key m. destruct (decide (api_key = key)) as [->|Hne].
      + rewrite lookup_insert_eq. intros [= <-]. subst n'. lia.
      + rewrite lookup_insert_ne by done. apply Hen. }
  clearbody r1. clear Hinv.
  set (r2 := if _ && _ then _ else r1).
  assert (Hinv2 : rotator_inv keys client_ok r2).
  { subst r2. destruct (_ && _); [|done].
    destruct Hinv1 as [Hk Hc Hcl Hid Hb He Hen Hu Hun Hs Ht Hh].
    constructor; simpl; auto.
    intros key [Hkey _]%elem_of_difference. auto. }
  clearbody r2. clear Hinv1.
  destruct (success_count r2 !! api_key) as [successes|] eqn:Hsucc; [|done].
  set (r3 := set_success r2 _ _ _).
  assert (Hinv3 : rotator_inv keys client_ok r3).
  { destruct Hinv2 as [Hk Hc Hcl Hid Hb He Hen Hu Hun Hs Ht Hh].
    constructor; simpl; auto.
    intros key. rewrite insert_is_Some_present by eauto. apply Hs. }
  clearbody r3. clear Hinv2.
  destruct (Qlt_le_dec 0 response_time) as [Hpos|_]; [|done].
  destruct (response_times r3 !! api_key) as [times|] eqn:Htimes; [|done].
  destruct Hinv3 as [Hk Hc Hcl Hid Hb He Hen Hu Hun Hs Ht Hh].
  destruct (Hh _ _ Htimes) as [Hlen Hall].
  cbv zeta. constructor; simpl; auto.
  - intros key. rewrite insert_is_Some_present by eauto. apply Ht.
  - intros key ts. destruct (decide (api_key = key)) as [->|Hne].
    + rewrite lookup_insert_eq. intros [= <-]. split.
      * unfold Py.len in *. rewrite length_app. simpl.
        destruct (Z.leb_spec 10 (Z.of_nat (length times))).
        -- rewrite length_drop. lia.
        -- lia.
      * apply Forall_app. split; [|by repeat constructor].
        destruct (_ <=? _); [by apply Forall_drop|done].
    + rewrite lookup_insert_ne by done. apply Hh.
Qed.

Lemma select_key_index r available key index :
  select_key r available = Ret (key, index) ->
  index = current_index r \/ 0 <= index < len (api_keys r).
Proof.
  unfold select_key. intros Hsel.
  assert (Hgen :
    forall next,
      match getitem (api_keys r) next with
      | Some selected_key =>
        Ret (selected_key, (next + 1) mod len (api_keys r))
      | None => Raise IndexError
      end = Ret (key, index) ->
      0 <= index < len (api_keys r)).
  { intros next. destruct (getitem (api_keys r) next) eqn:Hg; [|done].
    intros [= _ <-]. apply Z.mod_pos_bound.
    destruct (api_keys r); [|unfold Py.len; simpl; lia].
    unfold getitem in Hg. by repeat case_match. }
  destruct available as [|a1 [|a2 rest]]; revert Hsel.
  - destruct (mapM _ _); [|done].
    destruct (find_next _ _ _ _ _) as [next| |]; [|done..].
    intros Hsel. right. by eapply Hgen.
  - intros [= _ <-]. by left.
  - destruct (mapM _ _); [|done].
    destruct (find_next _ _ _ _ _) as [next| |]; [|done..].
    intros Hsel. right. by eapply Hgen.
Qed.

Lemma get_next_client_inv r now :
  rotator_inv keys client_ok r ->
  rotator_inv keys client_ok (fst (get_next_client r now)).
Proof.
  intros Hinv. unfold get_next_client.
  destruct (api_keys r) as [|k0 ks] eqn:Hkeys; [done|].
  set (r1 := match available_keys r with [] => _ | _ => r end).
  set (available := match available_keys r with [] => _ | ks' => ks' end).
  assert (Hinv1 : rotator_inv keys client_ok r1).
  { subst r1. destruct (available_keys r); [|done].
    destruct Hinv as [Hk Hc Hcl Hid Hb He Hen Hu Hun Hs Ht Hh].
    constructor; simpl; auto.
    - intros key ?%elem_of_empty. done.
    - intros key. rewrite <- Hkeys, Hk. apply dict_of_keys_is_Some.
    - intros key n Hn. apply dict_of_keys_Some in Hn. lia. }
  clearbody r1 available. clear Hinv.
  destruct (select_key r1 available) as [[selected_key index]|e|] eqn:Hsel;
    [|done..].
  apply select_key_index in Hsel.
  destruct Hinv1 as [Hk Hc Hcl Hid Hb He Hen Hu Hun Hs Ht Hh].
  assert (Hinv2 : rotator_inv keys client_ok (set_current_index r1 index)).
  { constructor; simpl; auto. rewrite Hk in Hsel.
    destruct Hsel as [->|Hsel]; auto. }
  cbv zeta.
  destruct (usage_count (set_current_index r1 index) !! selected_key)
    as [used|] eqn:Hused; [|done].
  simpl in Hused.
  assert (Hinv3 :
    rotator_inv keys client_ok
      (set_usage (set_current_index r1 index)
         (<[selected_key := used + 1]> (usage_count r1))
         (<[selected_key := now]> (last_use_time r1)))).
  { destruct Hinv2 as [Hk2 Hc2 _ _ _ _ _ _ _ _ _ _].
    constructor; simpl; auto.
    - intros key. rewrite insert_is_Some_present by eauto. apply Hu.
    - intros key m. destruct (decide (selected_key = key)) as [->|Hne].
      + rewrite lookup_insert_eq. intros [= <-]. apply Hun in Hused. lia.
      + rewrite lookup_insert_ne by done. apply Hun. }
  simpl. by destruct (clients r1 !! selected_key).
Qed.

Lemma run_ops_inv ops : forall r,
  rotator_inv keys client_ok r -> rotator_inv keys client_ok (run_ops r ops).
Proof.
  induction ops as [|op ops IH]; intros r Hinv; [done|].
  apply IH. destruct op; simpl.
  - by apply get_next_client_inv.
  - by apply report_error_inv.
  - by apply report_success_inv.
Qed.

End RotatorHistory.

(** X7. After any history of calls on a pool created for [keys], the key
    list is unchanged, the rotation cursor is a valid position, only
    configured keys are blacklisted, every configured key and no other has
    an error counter, which is never negative, and every latency history
    holds at most 10 samples, all positive. *)
Theorem rotator_history_invariant (keys : list pystr)
  (client_ok : pystr -> bool) (ops : list rotator_op) :
  let r := run_ops (rotator_init keys client_ok) ops in
  api_keys r = keys /\
  (current_index r = 0 \/ 0 <= current_index r < len keys) /\
  (forall key, key ∈ blacklisted r -> key ∈ keys) /\
  (forall key, is_Some (error_count r !! key) <-> key ∈ keys) /\
  (forall key n, error_count r !! key = Some n -> 0 <= n) /\
  (forall key times, response_times r !! key = Some times ->
     len times <= 10 /\ Forall (fun t => (0 < t)%Q) times).
Proof.
  intros r.
  destruct (run_ops_inv keys client_ok ops _ (rotator_init_inv keys client_ok))
    as [Hk Hc Hcl Hid Hb He Hen Hu Hun Hs Ht Hh].
  split; [exact Hk|]. split; [exact Hc|]. split; [exact Hb|].
  split; [exact He|]. split; [exact Hen|exact Hh].
Qed.

(** X8. After any history of calls on a pool with at least one key,
    [get_next_client] selects a configured key that is not blacklisted
    afterwards; it returns that key's client when the client was created,
    and raises [KeyError] for the key when the creation of its client had
    failed.  No other outcome is possible. *)
Theorem get_next_client_outcome (keys : list pystr)
  (client_ok : pystr -> bool) (ops : list rotator_op) (now : Q) :
  keys <> [] ->
  let r := run_ops (rotator_init keys client_ok) ops in
  exists key,
    key ∈ keys /\
    (key ∉ blacklisted (fst (get_next_client r now))) /\
    ((client_ok key = true /\ snd (get_next_client r now) = Ret (key, key)) \/
     (client_ok key = false /\
      snd (get_next_client r now) = Raise (KeyError key))).
Proof.
  intros Hne r.
  destruct (run_ops_inv keys client_ok ops _ (rotator_init_inv keys client_ok))
    as [Hk Hc Hcl Hid Hb He Hen Hu Hun Hs Ht Hh].
  fold r in Hk, Hc, Hcl, Hid, Hb, He, Hen, Hu, Hun, Hs, Ht, Hh.
  clearbody r. unfold get_next_client.
  destruct (api_keys r) as [|k0 ks] eqn:Hkeys; [congruence|].
  set (r1 := match available_keys r with [] => _ | _ => r end).
  set (available := match available_keys r with [] => _ | ks' => ks' end).
  assert (H1 : api_keys r1 = keys /\ usage_count r1 = usage_count r /\
               clients r1 = clients r).
  { subst r1. destruct (available_keys r); simpl; rewrite Hkeys; auto. }
  destruct H1 as (Hk1 & Hu1 & Hc1).
  assert (Hav : available <> [] /\ available ⊆ keys /\
                forall key, key ∈ available -> key ∉ blacklisted r1).
  { subst available r1. destruct (available_keys r) as [|a rest] eqn:Ha.
    - simpl. rewrite <- Hk. split; [done|]. split; [done|set_solver].
    - rewrite <- Ha. repeat split.
      + by rewrite Ha.
      + rewrite <- Hk, <- Hkeys. apply available_keys_subseteq.
      + intros key Hin. by apply available_keys_spec in Hin as [_ ?]. }
  destruct Hav as (Hav1 & Hav2 & Hav3). clearbody available.
  destruct (select_key_total r1 available Hav1) as (sel & idx & Hsel);
    [by rewrite Hk1|].
  pose proof (select_key_available _ _ _ _ Hsel) as Hin.
  rewrite Hsel. cbv zeta. cbn [usage_count set_current_index].
  rewrite Hu1. destruct (proj2 (Hu sel) (Hav2 _ Hin)) as [used Hused].
  rewrite Hused. cbn [clients set_usage set_current_index]. rewrite Hc1.
  exists sel. split; [by apply Hav2|].
  destruct (clients r !! sel) as [client|] eqn:Hclient.
  - split; [simpl; by apply Hav3|]. left.
    rewrite (Hid _ _ Hclient). split; [|done].
    apply (Hcl sel). eauto.
  - split; [simpl; by apply Hav3|]. right. split; [|done].
    destruct (client_ok sel) eqn:Hok; [|done].
    destruct (proj2 (Hcl sel)) as [c Hc']; [by split; [apply Hav2|]|].
    congruence.
Qed.

Lemma get_next_client_outcome_witness :
  exists key,
    key ∈ [key_a; key_b] /\
    (key ∉ blacklisted
             (fst (get_next_client
                     (run_ops (rotator_init [key_a; key_b] (fun _ => false))
                        [OpNext 1; OpError key_a]) 2))) /\
    (((fun _ : pystr => false) key = true /\
      snd (get_next_client
             (run_ops (rotator_init [key_a; key_b] (fun _ => false))
                [OpNext 1; OpError key_a]) 2) = Ret (key, key)) \/
     ((fun _ : pystr => false) key = false /\
      snd (get_next_client
             (run_ops (rotator_init [key_a; key_b] (fun _ => false))
                [OpNext 1; OpError key_a]) 2) = Raise (KeyError key))).
Proof.
  apply (get_next_client_outcome [key_a; key_b] (fun _ => false)
           [OpNext 1; OpError key_a] 2).
  discriminate.
Defined.
